(** * PyDDA multigrid retrieval: [pydda/retrieval/multigrid.py]

    A shallow embedding of [get_dd_wind_field_multigrid] and of the two
    coarse-level adapters [_J_coarse] and [_grad_coarse], followed by the
    properties proved about them.

    Conventions of the embedding.
    - A float64 is an exact number ([Q], or [R] where a square root is
      taken) or a non-finite marker; rounding and overflow are not modelled.
    - A numpy array is the list of its entries in C order, next to its shape
      where the shape matters.
    - A raised Python exception is the left injection of [result].
    - Library calls are modelled on the arrays they are meant for: axes
      that ascend strictly, a gradient of the shape of the winds.  Of the
      exceptions that numpy raises on other arrays only the shape checks
      of element-wise operations, masked stores and indexing are kept.
    - Collaborators that live outside this file of the repository
      ([cost_functions.J_function], [cost_functions.grad_J], [get_bca]) and
      the optimiser [fmin_l_bfgs_b] are parameters of the definitions that
      call them. *)

From Stdlib Require Import String ZArith QArith Qabs Reals List Bool Lia Psatz.
Import ListNotations.
Local Open Scope string_scope.
Local Open Scope Q_scope.

(* ================================================================== *)
(** * Part I: definitions *)
(* ================================================================== *)

(** ** Exceptions *)

Inductive exn : Type :=
| ValueError (msg : string)
| NameError (name : string)
| IndexError.

Definition result (A : Type) : Type := (exn + A)%type.

Definition ok {A} (a : A) : result A := inr a.
Definition raise {A} (e : exn) : result A := inl e.

Definition bind {A B} (c : result A) (k : A -> result B) : result B :=
  match c with
  | inl e => inl e
  | inr a => k a
  end.

Notation "x <- c ;; k" := (bind c (fun x => k))
  (at level 61, c at next level, right associativity).

Definition is_ValueError {A} (r : result A) : bool :=
  match r with
  | inl (ValueError _) => true
  | _ => false
  end.

(** ** Floats

    A float64 is a number or NaN.  Infinities do not arise from the finite
    data and the operations modelled here, except through a division by
    zero, which is rendered as NaN. *)

Inductive fval : Type :=
| Num (q : Q)
| NaN.

Definition isnan (v : fval) : bool :=
  match v with NaN => true | Num _ => false end.

Definition fadd (a b : fval) : fval :=
  match a, b with Num p, Num q => Num (p + q) | _, _ => NaN end.

Definition fsub (a b : fval) : fval :=
  match a, b with Num p, Num q => Num (p - q) | _, _ => NaN end.

Definition fmul (a b : fval) : fval :=
  match a, b with Num p, Num q => Num (p * q) | _, _ => NaN end.

Definition fdiv (a b : fval) : fval :=
  match a, b with
  | Num p, Num q => if Qeq_bool q 0 then NaN else Num (p / q)
  | _, _ => NaN
  end.

(** ** Grids

    Only what [multigrid.py] reads of a Py-ART grid: the three coordinate
    arrays, the origin latitude (a one-element array) and the mask of the
    radial-velocity field, one horizontal level after the other, each level
    in row-major order. *)

Record Grid : Type := mkGrid {
  x : list Q;
  y : list Q;
  z : list Q;
  origin_latitude : Q;
  vel_mask : list (list bool)
}.

(** ** numpy: [allclose]

    [np.allclose(a, b, atol=10)] keeps numpy's default [rtol=1e-05]: entry
    by entry, [|a - b| <= atol + rtol * |b|]. *)

Definition rtol_default : Q := 1 # 100000.

Definition isclose (atol a b : Q) : bool :=
  Qle_bool (Qabs (a - b)) (atol + rtol_default * Qabs b).

Fixpoint all2 {A} (p : A -> A -> bool) (l1 l2 : list A) : bool :=
  match l1, l2 with
  | a :: l1', b :: l2' => p a b && all2 p l1' l2'
  | _, _ => true
  end.

(** Shapes broadcast when they are equal or one of them is [(1,)];
    otherwise numpy raises a [ValueError] of its own. *)
Definition allclose (a b : list Q) (atol : Q) : result bool :=
  if Nat.eqb (length a) (length b) then ok (all2 (isclose atol) a b)
  else match a, b with
       | [a0], _ => ok (forallb (fun bi => isclose atol a0 bi) b)
       | _, [b0] => ok (forallb (fun ai => isclose atol ai b0) a)
       | _, _ => raise (ValueError "operands could not be broadcast together")
       end.

(** ** Lines 69-87: the grids share one coordinate system *)

Inductive axis : Type := AxisX | AxisY | AxisZ | AxisOrigin.

Definition axis_msg (a : axis) : string :=
  match a with
  | AxisX => "Grids do not have equal x coordinates!"
  | AxisY => "Grids do not have equal y coordinates!"
  | AxisZ => "Grids do not have equal z coordinates!"
  | AxisOrigin => "Grids have unequal origin lat/lons!"
  end.

Definition check_pair (g prev_grid : Grid) : result unit :=
  cx <- allclose (x g) (x prev_grid) 10 ;;
  if negb cx then raise (ValueError (axis_msg AxisX)) else
  cy <- allclose (y g) (y prev_grid) 10 ;;
  if negb cy then raise (ValueError (axis_msg AxisY)) else
  cz <- allclose (z g) (z prev_grid) 10 ;;
  if negb cz then raise (ValueError (axis_msg AxisZ)) else
  if negb (Qeq_bool (origin_latitude g) (origin_latitude prev_grid))
  then raise (ValueError (axis_msg AxisOrigin))
  else ok tt.

(** [for g in Grids: ...; prev_grid = g] *)
Fixpoint check_loop (prev_grid : Grid) (gs : list Grid) : result unit :=
  match gs with
  | [] => ok tt
  | g :: rest => _ <- check_pair g prev_grid ;; check_loop g rest
  end.

(** [prev_grid = Grids[0]] raises [IndexError] on the empty list. *)
Definition check_grids (Grids : list Grid) : result unit :=
  match Grids with
  | [] => raise IndexError
  | g0 :: _ => check_loop g0 Grids
  end.

(** ** Lines 60-141: argument checks

    The [Grids] argument is any Python object; only a [list] passes
    [isinstance(Grids, list)]. *)

Inductive pyobj : Type :=
| PyList (gs : list Grid)
| PyTuple (gs : list Grid).

Record Args : Type := mkArgs {
  Grids : pyobj;
  vel_name : option string;
  refl_field : option string;
  Cv : Q;
  Cmod : Q;
  Ut : option Q;
  Vt : option Q;
  weights_obs : option (list (list (list Q)));
  weights_model : option (list (list (list fval)));
  weights_bg : option (list (list Q));
  max_iterations : Z;
  min_bca : Q;
  max_bca : Q;
  model_fields : option (list string)
}.

(** A call that leaves the weights, the iteration budget and the
    beam-crossing bounds at their defaults. *)
Definition call (Grids : pyobj) (vel_name refl_field : option string)
    (Cv Cmod : Q) (Ut Vt : option Q) (model_fields : option (list string))
    : Args :=
  mkArgs Grids vel_name refl_field Cv Cmod Ut Vt None None None
         1300%Z 30 150 model_fields.

Definition is_None {A} (o : option A) : bool :=
  match o with None => true | Some _ => false end.

(** [pyart] is not among the module's imports (lines 1-11), so evaluating
    [pyart.config.get_field_name(...)] raises [NameError]. *)
Definition default_field_name (arg : option string) : result string :=
  match arg with
  | None => raise (NameError "pyart")
  | Some s => ok s
  end.

(** The checks in the order of the source.  The sounding interpolation of
    lines 89-110 and the array allocations of lines 119-136 sit between
    them; on well-formed arrays they raise nothing and are left out.  The
    value returned is the pair of resolved field names with which the
    function goes on. *)
Definition check_args (a : Args) : result (string * string) :=
  (* 60-64 *)
  if (is_None (Ut a) || is_None (Vt a)) && negb (Qeq_bool (Cv a) 0)
  then raise (ValueError
    "Ut and Vt cannot be None if vertical vorticity constraint is enabled!")
  else
  (* 66-67 *)
  match Grids a with
  | PyTuple _ => raise (ValueError "Grids has to be a list!")
  | PyList gs =>
    (* 69-87 *)
    _ <- check_grids gs ;;
    (* 112-118 *)
    refl <- default_field_name (refl_field a) ;;
    vel <- default_field_name (vel_name a) ;;
    (* 138-141 *)
    if is_None (model_fields a) && negb (Qeq_bool (Cmod a) 0)
    then raise (ValueError
      "Cmod must be zero if model fields are not specified!")
    else ok (refl, vel)
  end.

(** ** Python and numpy indexing *)

Definition getitem {A} (l : list A) (i : nat) : result A :=
  match nth_error l i with
  | Some a => ok a
  | None => raise IndexError
  end.

Fixpoint update {A} (l : list A) (i : nat) (a : A) : list A :=
  match l, i with
  | [], _ => []
  | _ :: l', O => a :: l'
  | b :: l', S i' => b :: update l' i' a
  end.

Definition setitem {A} (l : list A) (i : nat) (a : A) : result (list A) :=
  if (i <? length l)%nat then ok (update l i a) else raise IndexError.

Fixpoint map2 {A B C} (f : A -> B -> C) (l : list A) (m : list B) : list C :=
  match l, m with
  | a :: l', b :: m' => f a b :: map2 f l' m'
  | _, _ => []
  end.

Definition broadcast_error : exn :=
  ValueError "operands could not be broadcast together".

(** Element-wise operation on two arrays of one shape. *)
Definition elementwise {A B C} (f : A -> B -> C) (l : list A) (m : list B)
    : result (list C) :=
  if (length l =? length m)%nat then ok (map2 f l m)
  else raise broadcast_error.

(** [arr[cond] = f(arr[cond])] for a boolean array [cond]. *)
Definition where_mask {A} (f : A -> A) (cond : list bool) (arr : list A)
    : result (list A) :=
  if (length cond =? length arr)%nat
  then ok (map2 (fun (c : bool) v => if c then f v else v) cond arr)
  else raise IndexError.

(** [arr[i] = v], the two of one shape. *)
Definition assign_level {A B} (arr : list (list A)) (i : nat) (v : list A)
    (like : list B) : result (list (list A)) :=
  if (length v =? length like)%nat then setitem arr i v
  else raise broadcast_error.

(** [for x in xs: s = body(x, s)], stopping at the first exception. *)
Fixpoint for_each {A S} (xs : list A) (body : A -> S -> result S) (s : S)
    : result S :=
  match xs with
  | [] => ok s
  | x0 :: xs' => s' <- body x0 s ;; for_each xs' body s'
  end.

(** [range(a, b)] *)
Definition range (a b : nat) : list nat := seq a (b - a).

(** ** Lines 126-136 and 198-262: the weights

    A volume of shape [(nz, ny, nx)] is the list of its [nz] levels, a
    level the list of its [ny * nx] cells. *)

(** Line 173: [vrs[i]] is the velocity field of [Grids[i]]; its mask. *)
Definition velocity_masks (gs : list Grid) : list (list (list bool)) :=
  map vel_mask gs.

Section Weights.

(** [get_bca] of [wind_retrieve.py], for the radars of grids [i] and [j]. *)
Variable get_bca : nat -> nat -> list Q.
(** [math.radians] *)
Variable radians : Q -> Q.
(** [u_init.shape]: [nz] and [ny * nx]. *)
Variable nz nyx : nat.
Variable a : Args.
(** [vrs[i].mask] for each grid. *)
Variable vrs_mask : list (list (list bool)).

Definition full {A} (v : A) : list (list A) := repeat (repeat v nyx) nz.

Definition within_bounds (bca : list Q) : list bool :=
  map (fun b => Qle_bool (radians (min_bca a)) b &&
                Qle_bool b (radians (max_bca a))) bca.

Definition either_bound (bca : list Q) : list bool :=
  map (fun b => Qle_bool (radians (min_bca a)) b ||
                Qle_bool b (radians (max_bca a))) bca.

(** Lines 212-221 (with [r = i]) and 223-232 (with [r = j]). *)
Definition observation_weight (bca : list Q) (r k : nat)
    (weights : list (list (list Q))) : result (list (list (list Q))) :=
  w_r <- getitem weights r ;;
  match weights_obs a with
  | None =>
      cur_array <- getitem w_r k ;;
      vr <- getitem vrs_mask r ;;
      mask <- getitem vr k ;;
      cond <- elementwise andb (map negb mask) (within_bounds bca) ;;
      cur_array <- where_mask (fun w => w + 1) cond cur_array ;;
      w_r <- setitem w_r k cur_array ;;
      setitem weights r w_r
  | Some given =>
      g_r <- getitem given r ;;
      g_rk <- getitem g_r k ;;
      old <- getitem w_r k ;;
      w_r <- assign_level w_r k g_rk old ;;
      setitem weights r w_r
  end.

(** Lines 234-242.  [cur_array] is a view of [bg_weights[k]]: the two
    masked stores change level [k], whose new content is then copied to
    level [i]. *)
Definition background_weight (bca : list Q) (i k : nat)
    (bg_weights : list (list Q)) : result (list (list Q)) :=
  match weights_bg a with
  | None =>
      cur_array <- getitem bg_weights k ;;
      cur_array <- where_mask (fun _ => 1) (either_bound bca) cur_array ;;
      vr <- getitem vrs_mask i ;;
      mask <- getitem vr k ;;
      cur_array <- where_mask (fun _ => 0) mask cur_array ;;
      bg_weights <- setitem bg_weights k cur_array ;;
      setitem bg_weights i cur_array
  | Some given =>
      g_i <- getitem given i ;;
      old <- getitem bg_weights i ;;
      assign_level bg_weights i g_i old
  end.

Definition weights_state : Type :=
  (list (list (list Q)) * list (list Q))%type.

(** Lines 211-242: one level of one pair of radars. *)
Definition level_body (i j : nat) (bca : list Q) (k : nat)
    (s : weights_state) : result weights_state :=
  let '(weights, bg_weights) := s in
  weights <- observation_weight bca i k weights ;;
  weights <- observation_weight bca j k weights ;;
  bg_weights <- background_weight bca i k bg_weights ;;
  ok (weights, bg_weights).

(** Lines 200-242: one pair of radars. *)
Definition pair_body (i j : nat) (s : weights_state) : result weights_state :=
  let bca := get_bca i j in
  vr <- getitem vrs_mask i ;;
  for_each (range 0 (length vr)) (level_body i j bca) s.

(** Lines 199-242. *)
Definition pairs_loop (s : weights_state) : result weights_state :=
  let n := length vrs_mask in
  for_each (range 0 n)
    (fun i => for_each (range (i + 1) n) (pair_body i)) s.

(** [weights.sum(axis=0)] *)
Definition sum_axis0 (weights : list (list (list Q))) : list (list Q) :=
  fold_left (map2 (map2 Qplus)) weights (full 0).

Definition Qmax (p q : Q) : Q := if Qle_bool p q then q else p.

(** [arr.max()], a [ValueError] on an empty array. *)
Definition array_max (arr : list (list Q)) : result Q :=
  match concat arr with
  | [] => raise (ValueError "zero-size array to reduction operation")
  | c :: cs => ok (fold_left Qmax cs c)
  end.

(** Lines 245-257. *)
Definition model_weights (weights : list (list (list Q)))
    (mod_weights : list (list (list fval)))
    : result (list (list (list fval))) :=
  let n := length vrs_mask in
  let coverage_grade := sum_axis0 weights in
  top <- array_max coverage_grade ;;
  let coverage_grade :=
    map (map (fun c => fdiv (Num c) (Num top))) coverage_grade in
  match model_fields a with
  | None => ok mod_weights
  | Some fields =>
      for_each (range 0 (length fields))
        (fun i mod_weights =>
           match weights_model a with
           | None =>
               setitem mod_weights i
                 (map (map (fun c =>
                    fsub (Num 1) (fdiv c (Num (inject_Z (Z.of_nat n) + 1)))))
                    coverage_grade)
           | Some given =>
               g_i <- getitem given i ;;
               if (length g_i =? nz)%nat then setitem mod_weights i g_i
               else raise broadcast_error
           end)
        mod_weights
  end.

(** [np.where(~vrs[0].mask, v_valid, v_masked)] *)
Definition where_valid (v_valid v_masked : Q) (mask : list (list bool))
    : list (list Q) :=
  map (map (fun m : bool => if negb m then v_valid else v_masked)) mask.

Definition same_dims {A B} (u : list (list A)) (v : list (list B)) : bool :=
  (length u =? length v)%nat &&
  forallb (fun n => n) (map2 (fun l m => (length l =? length m)%nat) u v).

(** [weights[weights > 0] = 1] *)
Definition clip (weights : list (list (list Q))) : list (list (list Q)) :=
  map (map (map (fun w => if Qlt_le_dec 0 w then 1 else w))) weights.

(** Lines 126-136 and 198-262: the observation weights, the background
    weights and the model weights. *)
Definition build_weights
    : result (list (list (list Q)) * list (list Q) *
              list (list (list fval))) :=
  let n := length vrs_mask in
  (* 126-136 *)
  let weights := repeat (full 0) n in
  let bg_weights := full 0 in
  let mod_weights :=
    match model_fields a with
    | Some fields => repeat (full (Num 1)) (length fields)
    | None => [full (Num 0)]
    end in
  if (1 <? n)%nat then
    (* 199-257 *)
    s <- pairs_loop (weights, bg_weights) ;;
    let '(weights, bg_weights) := s in
    mod_weights <- model_weights weights mod_weights ;;
    ok (clip weights, bg_weights, mod_weights)
  else
    (* 259-260 *)
    vr0 <- getitem vrs_mask 0 ;;
    old <- getitem weights 0 ;;
    if same_dims (where_valid 1 0 vr0) old then
      weights <- setitem weights 0 (where_valid 1 0 vr0) ;;
      let bg_weights := where_valid 0 1 vr0 in
      ok (clip weights, bg_weights, mod_weights)
    else raise broadcast_error.

End Weights.


(** ** scipy: [RegularGridInterpolator]

    The interpolator over three axes, method ["linear"].  [values] is the
    array of shape [(len(grid_z), len(grid_y), len(grid_x))] in C order. *)

Record RegularGridInterpolator : Type := mkInterpolator {
  grid_z : list Q;
  grid_y : list Q;
  grid_x : list Q;
  values : list fval;
  bounds_error : bool;
  fill_value : option fval
}.

(** [np.searchsorted(grid, v)]: the first index whose entry is not below
    [v], in an ascending array. *)
Fixpoint searchsorted (grid : list Q) (v : Q) : nat :=
  match grid with
  | [] => O
  | g :: rest => if Qle_bool v g then O else S (searchsorted rest v)
  end.

(** The node that an edge index [e] of a cell stands for.  On an axis of
    two or more nodes the edges [i] and [i + 1] of a cell are nodes of the
    axis.  On an axis of a single node numpy's cell is [(-1, 0)], and both
    of its edges are that node; here the cell is counted as [(0, 1)] and
    its upper edge is brought back to the node. *)
Definition node (grid : list Q) (e : nat) : nat :=
  Nat.min e (pred (length grid)).

(** [_find_indices], one axis: the cell index, clipped to
    [.. grid.size - 2], and the distance to its lower edge in units of
    the cell, [np.where(denom != 0, (x - grid[i]) / denom, 0)]: on an axis
    of a single node the cell has no width and the distance is 0.  An
    axis without a node is never queried: a mesh built on such an axis has
    no point, and lines 297-299 raise before anything is prolonged from a
    coarse axis without a node. *)
Definition find_index (grid : list Q) (v : Q) : nat * Q :=
  let i := Nat.min (pred (searchsorted grid v)) (length grid - 2) in
  let lower := nth (node grid i) grid 0 in
  let denom := nth (node grid (S i)) grid 0 - lower in
  (i, if Qeq_bool denom 0 then 0 else (v - lower) / denom).

Definition out_of_bounds (grid : list Q) (v : Q) : bool :=
  negb (Qle_bool (nth 0 grid 0) v) || negb (Qle_bool v (last grid 0)).

(** [values[ez, ey, ex]] for the edges of a cell. *)
Definition value_at (I : RegularGridInterpolator) (ez ey ex : nat) : fval :=
  nth ((node (grid_z I) ez * length (grid_y I) + node (grid_y I) ey)
       * length (grid_x I) + node (grid_x I) ex) (values I) NaN.

(** [np.where(ei == i, 1 - yi, yi)] *)
Definition edge_weight (ei i : nat) (yi : Q) : Q :=
  if (ei =? i)%nat then 1 - yi else yi.

(** [itertools.product] over the pairs [[i, i + 1]] of the three axes. *)
Definition edges (iz iy ix : nat) : list (nat * nat * nat) :=
  [(iz, iy, ix); (iz, iy, S ix); (iz, S iy, ix); (iz, S iy, S ix);
   (S iz, iy, ix); (S iz, iy, S ix); (S iz, S iy, ix); (S iz, S iy, S ix)].

(** [_evaluate_linear] *)
Definition evaluate_linear (I : RegularGridInterpolator)
    (iz iy ix : nat) (dz dy dx : Q) : fval :=
  fold_left
    (fun acc '(ez, ey, ex) =>
       let weight :=
         1 * edge_weight ez iz dz * edge_weight ey iy dy * edge_weight ex ix dx in
       fadd acc (fmul (value_at I ez ey ex) (Num weight)))
    (edges iz iy ix) (Num 0).

(** [__call__] at one point [(z, y, x)]. *)
Definition interpolate (I : RegularGridInterpolator) (p : Q * Q * Q)
    : result fval :=
  let '(pz, py, px) := p in
  let oob := out_of_bounds (grid_z I) pz || out_of_bounds (grid_y I) py
             || out_of_bounds (grid_x I) px in
  if bounds_error I && oob
  then raise (ValueError "One of the requested xi is out of bounds")
  else
    let '(iz, dz) := find_index (grid_z I) pz in
    let '(iy, dy) := find_index (grid_y I) py in
    let '(ix, dx) := find_index (grid_x I) px in
    let r := evaluate_linear I iz iy ix dz dy dx in
    match fill_value I with
    | Some fill => if negb (bounds_error I) && oob then ok fill else ok r
    | None => ok r
    end.

(** [np.meshgrid(zs, ys, xs, indexing='ij')], as the list of points. *)
Definition meshgrid (zs ys xs : list Q) : list (Q * Q * Q) :=
  flat_map (fun pz => flat_map (fun py => map (fun px => (pz, py, px)) xs) ys) zs.

Fixpoint map_result {A B} (f : A -> result B) (l : list A) : result (list B) :=
  match l with
  | [] => ok []
  | a :: l' => b <- f a ;; bs <- map_result f l' ;; ok (b :: bs)
  end.

(** ** Lines 153-165: the coarse grid *)

(** [arr[::2]] *)
Fixpoint every_other {A} (l : list A) : list A :=
  match l with
  | [] => []
  | a :: l' => a :: match l' with
                    | [] => []
                    | _ :: l'' => every_other l''
                    end
  end.

(** [(f[:-1:2] + f[1::2]) / 2.0] *)
Definition coarsen_axis (f : list Q) : list Q :=
  map2 (fun p q => (p + q) / 2) (every_other (removelast f)) (every_other (tl f)).

(** ** Restriction and prolongation

    Every interpolator of the function is built with the two keywords
    [bounds_error=False, fill_value=None] (lines 177-196, 267-279, 342-359,
    389-410 and 461-469). *)

Definition make_interpolator (gz gy gx : list Q) (vals : list fval)
    : RegularGridInterpolator :=
  mkInterpolator gz gy gx vals false None.

(** [RegularGridInterpolator((zf, yf, xf), field, ...)((zc_mgrid, yc_mgrid,
    xc_mgrid))]: a field given on one grid, sampled at the nodes of
    another. *)
Definition resample (from_z from_y from_x : list Q) (field : list fval)
    (to_z to_y to_x : list Q) : result (list fval) :=
  map_result (interpolate (make_interpolator from_z from_y from_x field))
             (meshgrid to_z to_y to_x).

(** A masked array: data and mask. *)
Record MaskedArray : Type := mkMasked {
  data : list fval;
  mask : list bool
}.

(** ** numpy: masked arrays and in-place addition *)

(** A plain array seen as a masked array. *)
Definition unmasked (arr : list fval) : MaskedArray :=
  mkMasked arr (map (fun _ => false) arr).

(** [np.ma.masked_where(cond, a)]: the data of [a], masked where [cond]
    holds or [a] is masked already. *)
Definition masked_where (cond : list bool) (a : MaskedArray) : MaskedArray :=
  mkMasked (data a) (map2 orb cond (mask a)).

(** [m.filled(np.nan)] *)
Definition filled_nan (m : MaskedArray) : list fval :=
  map2 (fun d (k : bool) => if k then NaN else d) (data m) (mask m).

(** [np.stack([...]).flatten()] on masked arrays: the data of the inputs
    one after the other; [np.stack] does not keep the masks of its
    inputs. *)
Definition stack_flatten (arrs : list MaskedArray) : list fval :=
  concat (map data arrs).

(** [arr.reshape(3, nz, ny, nx)[c]] for an array of [3 * n] entries. *)
Definition component (c n : nat) (arr : list fval) : list fval :=
  firstn n (skipn (c * n) arr).

(** [arr += operand] with a masked operand, entry by entry: an entry whose
    operand is not masked becomes [arr + operand]; what an entry with a
    masked operand becomes is numpy's business and left to
    [masked_entry]. *)
Definition iadd_masked (masked_entry : fval -> fval -> fval)
    (arr : list fval) (operand : MaskedArray) : list fval :=
  map2 (fun a (dm : fval * bool) =>
          if snd dm then masked_entry a (fst dm) else fadd a (fst dm))
       arr (combine (data operand) (mask operand)).

(** ** Lines 364-478: the multigrid cycle *)

Section Cycle.

(** [cost_functions.grad_J] with the fine-grid observations, weights and
    cost parameters of lines 372-376. *)
Variable grad_J : list fval -> list fval.
(** [fmin_l_bfgs_b(_J_coarse, winds_coarse, args=(residual, ...), ...)]
    of lines 423-432: the solution [w[0]] and [w[2]["warnflag"]]. *)
Variable fmin_l_bfgs_b : list fval -> list fval -> list fval * Z.
Variable masked_entry : fval -> fval -> fval.
(** The axes of [Grids[0]]. *)
Variables zf yf xf : list Q.

Definition zc : list Q := coarsen_axis zf.
Definition yc : list Q := coarsen_axis yf.
Definition xc : list Q := coarsen_axis xf.

Definition n_fine : nat := (length zf * length yf * length xf)%nat.
Definition n_coarse : nat := (length zc * length yc * length xc)%nat.

(** Lines 176-196: the velocity, fall speed, azimuth and elevation of one
    radar on the coarse grid.  The fall speed of line 186 carries the data
    of the coarse velocity under its own mask. *)
Definition coarsen_radar (vr wt az el : MaskedArray)
    : result (MaskedArray * MaskedArray * MaskedArray * MaskedArray) :=
  vr_coarse <- resample zf yf xf (filled_nan vr) zc yc xc ;;
  let vr_coarse := masked_where (map isnan vr_coarse) (unmasked vr_coarse) in
  wt_coarse <- resample zf yf xf (filled_nan wt) zc yc xc ;;
  let wt_coarse := masked_where (map isnan wt_coarse) vr_coarse in
  az_coarse <- resample zf yf xf (filled_nan az) zc yc xc ;;
  let az_coarse := masked_where (map isnan az_coarse) (unmasked az_coarse) in
  el_coarse <- resample zf yf xf (filled_nan el) zc yc xc ;;
  let el_coarse := masked_where (map isnan el_coarse) (unmasked el_coarse) in
  ok (vr_coarse, wt_coarse, az_coarse, el_coarse).

(** Lines 372-378: one pass of the relaxation loop. *)
Definition relax_step (s : list fval * list fval) : list fval * list fval :=
  let '(winds_new, _) := s in
  let fine_gradient := grad_J winds_new in
  let step_size := Num 1 in
  (map2 fsub winds_new (map (fmul step_size) fine_gradient), fine_gradient).

(** Lines 371-378: [for i in range(5)]. *)
Definition relax (winds_new fine_gradient : list fval)
    : list fval * list fval :=
  fold_left (fun s (_ : nat) => relax_step s) (range 0 5)
            (winds_new, fine_gradient).

(** Lines 365-478 without the prints and the diagnostics of lines 436-450:
    the new [winds], [warnflag] and [fine_gradient]. *)
Definition cycle (winds fine_gradient : list fval)
    : result (list fval * Z * list fval) :=
  (* 366 *)
  let winds_new := winds in
  (* 371-378 *)
  let '(winds_new, fine_gradient) := relax winds_new fine_gradient in
  (* 387 *)
  let residual := fine_gradient in
  (* 389-404 *)
  u_coarse <- resample zf yf xf (component 0 n_fine winds_new) zc yc xc ;;
  v_coarse <- resample zf yf xf (component 1 n_fine winds_new) zc yc xc ;;
  w_coarse <- resample zf yf xf (component 2 n_fine winds_new) zc yc xc ;;
  let u_coarse := masked_where (map isnan u_coarse) (unmasked u_coarse) in
  let v_coarse := masked_where (map isnan v_coarse) (unmasked v_coarse) in
  let w_coarse := masked_where (map isnan w_coarse) (unmasked w_coarse) in
  (* 405-416 *)
  u_gcoarse <- resample zf yf xf (component 0 n_fine residual) zc yc xc ;;
  v_gcoarse <- resample zf yf xf (component 1 n_fine residual) zc yc xc ;;
  w_gcoarse <- resample zf yf xf (component 2 n_fine residual) zc yc xc ;;
  let u_gcoarse := masked_where (map isnan u_gcoarse) u_coarse in
  let v_gcoarse := masked_where (map isnan v_gcoarse) v_coarse in
  let w_gcoarse := masked_where (map isnan w_gcoarse) w_coarse in
  (* 418-419 *)
  let winds_coarse := stack_flatten [u_coarse; v_coarse; w_coarse] in
  let residual := stack_flatten [u_gcoarse; v_gcoarse; w_gcoarse] in
  (* 423-434 *)
  let '(winds_coarse1, warnflag) := fmin_l_bfgs_b winds_coarse residual in
  (* 461-473 *)
  u_add <- resample zc yc xc
             (map2 fsub (component 0 n_coarse winds_coarse1)
                        (component 0 n_coarse winds_coarse)) zf yf xf ;;
  w_add <- resample zc yc xc
             (map2 fsub (component 2 n_coarse winds_coarse1)
                        (component 2 n_coarse winds_coarse)) zf yf xf ;;
  v_add <- resample zc yc xc
             (map2 fsub (component 1 n_coarse winds_coarse1)
                        (component 1 n_coarse winds_coarse)) zf yf xf ;;
  (* 475-478 *)
  let winds0 := iadd_masked masked_entry (component 0 n_fine winds)
                  (masked_where (map isnan u_add) (unmasked u_add)) in
  let winds1 := iadd_masked masked_entry (component 1 n_fine winds)
                  (masked_where (map isnan v_add) (unmasked v_add)) in
  let winds2 := iadd_masked masked_entry (component 2 n_fine winds)
                  (masked_where (map isnan w_add) (unmasked w_add)) in
  ok ((winds0 ++ winds1 ++ winds2)%list, warnflag, fine_gradient).

(** The variables the loop carries from one cycle to the next. *)
Record LoopState : Type := mkLoopState {
  iterations : Z;
  winds : list fval;
  warnflag : Z;
  fine_gradient : list fval
}.

(** Lines 365-478: the body of the [while]. *)
Definition loop_body (s : LoopState) : result LoopState :=
  out <- cycle (winds s) (fine_gradient s) ;;
  let '(winds', warnflag', fine_gradient') := out in
  (* 457 *)
  ok (mkLoopState (iterations s + 50) winds' warnflag' fine_gradient').

(** Line 364: [while (iterations < max_iterations)].  [None] when the fuel
    runs out before the loop has ended. *)
Fixpoint while_loop (fuel : nat) (a : Args) (s : LoopState)
    : option (result LoopState) :=
  if (iterations s <? max_iterations a)%Z then
    match fuel with
    | O => None
    | S fuel' =>
        match loop_body s with
        | inl e => Some (raise e)
        | inr s' => while_loop fuel' a s'
        end
    end
  else Some (ok s).

(** Lines 322 and 362-363: the state on entry.  [fine_gradient] starts as
    [np.inf]; the relaxation assigns it before it is read, and the empty
    array stands for it. *)
Definition initial_state (winds : list fval) : LoopState :=
  mkLoopState 0 winds 0 [].

(** The body run [n] times in a row. *)
Fixpoint cycles (n : nat) (s : LoopState) : result LoopState :=
  match n with
  | O => ok s
  | S n' => s' <- loop_body s ;; cycles n' s'
  end.

End Cycle.


(** ** Vocabulary of the statements about the cycle *)

(** One steepest-descent step with unit step size. *)
Definition descent (grad_J : list fval -> list fval) (w : list fval)
    : list fval :=
  map2 fsub w (map (fmul (Num 1)) (grad_J w)).

(** The entry of the fine field after a correction entry has been added
    to it. *)
Definition add_correction (masked_entry : fval -> fval -> fval)
    (w d : fval) : fval :=
  if isnan d then masked_entry w d else fadd w d.

(** [ceil(a / b)] on integers. *)
Definition ceil_div (a b : Z) : Z := ((a + b - 1) / b)%Z.


(** [coarse] is the field [field] resampled, component by component, from
    the fine grid to the coarse grid. *)
Definition restricted (zf yf xf : list Q) (field coarse : list fval) : Prop :=
  exists uc vc wc,
    resample zf yf xf (component 0 (n_fine zf yf xf) field)
             (zc zf) (yc yf) (xc xf) = ok uc /\
    resample zf yf xf (component 1 (n_fine zf yf xf) field)
             (zc zf) (yc yf) (xc xf) = ok vc /\
    resample zf yf xf (component 2 (n_fine zf yf xf) field)
             (zc zf) (yc yf) (xc xf) = ok wc /\
    coarse = (uc ++ vc ++ wc)%list.

(** [correction] is the difference [sol - coarse_in] resampled, component
    by component, from the coarse grid to the fine grid. *)
Definition prolonged (zf yf xf : list Q) (sol coarse_in correction : list fval)
    : Prop :=
  exists ua va wa,
    resample (zc zf) (yc yf) (xc xf)
      (map2 fsub (component 0 (n_coarse zf yf xf) sol)
                 (component 0 (n_coarse zf yf xf) coarse_in))
      zf yf xf = ok ua /\
    resample (zc zf) (yc yf) (xc xf)
      (map2 fsub (component 1 (n_coarse zf yf xf) sol)
                 (component 1 (n_coarse zf yf xf) coarse_in))
      zf yf xf = ok va /\
    resample (zc zf) (yc yf) (xc xf)
      (map2 fsub (component 2 (n_coarse zf yf xf) sol)
                 (component 2 (n_coarse zf yf xf) coarse_in))
      zf yf xf = ok wa /\
    correction = (ua ++ va ++ wa)%list.


(** ** Lines 13-43: the coarse cost and gradient adapters

    [np.linalg.norm] takes a square root, so here a float64 is a real
    number or a non-finite value (NaN or an infinity), the two kinds that
    [np.isfinite] tells apart. *)

Inductive rval : Type :=
| Finite (r : R)
| NotFinite.

Definition isfinite (v : rval) : bool :=
  match v with Finite _ => true | NotFinite => false end.

Definition radd (a b : rval) : rval :=
  match a, b with Finite p, Finite q => Finite (p + q)%R | _, _ => NotFinite end.

Definition rsub (a b : rval) : rval :=
  match a, b with Finite p, Finite q => Finite (p - q)%R | _, _ => NotFinite end.

Definition rmul (a b : rval) : rval :=
  match a, b with Finite p, Finite q => Finite (p * q)%R | _, _ => NotFinite end.

Definition rsqrt (a : rval) : rval :=
  match a with
  | Finite p => if Rlt_dec p 0 then NotFinite else Finite (sqrt p)
  | NotFinite => NotFinite
  end.

(** [np.linalg.norm(v)] of a one-dimensional array: [sqrt(dot(v, v))]. *)
Definition norm (v : list rval) : rval :=
  rsqrt (fold_left radd (map (fun e => rmul e e) v) (Finite 0)).

(** [arr[cond]] for a boolean array [cond]: the entries where it holds. *)
Fixpoint select {A} (arr : list A) (cond : list bool) : list A :=
  match arr, cond with
  | e :: arr', c :: cond' =>
      if c then e :: select arr' cond' else select arr' cond'
  | _, _ => []
  end.

Definition boolean_index {A} (arr : list A) (cond : list bool)
    : result (list A) :=
  if (length cond =? length arr)%nat then ok (select arr cond)
  else raise IndexError.

Definition scale_residual : rval := Finite (1 / 1000).

Section CoarseAdapters.

(** [cost_functions.J_function] and [cost_functions.grad_J] with the
    coarse-grid arguments that the adapters pass on. *)
Variable J_function : list rval -> rval.
Variable grad_J : list rval -> list rval.

(** Lines 13-26, without the print. *)
Definition _J_coarse (winds residual : list rval) : result rval :=
  let cost := J_function winds in
  finites <- elementwise andb (map isfinite winds) (map isfinite residual) ;;
  picked <- boolean_index residual finites ;;
  let cost := norm (map (fun r => rsub cost (rmul scale_residual r)) picked) in
  ok cost.

(** Lines 29-43, without the print. *)
Definition _grad_coarse (winds residual : list rval) : result (list rval) :=
  let gradJ := grad_J winds in
  finites <- elementwise andb (map isfinite winds) (map isfinite residual) ;;
  elementwise (fun g r => rsub g (rmul scale_residual r)) gradJ residual.

End CoarseAdapters.

(** ** Vocabulary of the statements about the adapters *)

(** The Euclidean norm of [cost - 0.001 * residual] over the entries at
    which both [winds] and [residual] are finite. *)
Definition norm_over_finite (cost : rval) (winds residual : list rval) : rval :=
  norm (flat_map
          (fun wr : rval * rval =>
             if isfinite (fst wr) && isfinite (snd wr)
             then [rsub cost (rmul scale_residual (snd wr))] else [])
          (combine winds residual)).

(** A cost and its gradient for the worked examples: the squared misfit
    of the winds to an observation of 1 in every entry. *)
Definition cost_misfit (winds : list rval) : rval :=
  fold_left radd
    (map (fun w => rmul (rsub w (Finite 1)) (rsub w (Finite 1))) winds)
    (Finite 0).
Definition grad_misfit (winds : list rval) : list rval :=
  map (fun w => rmul (Finite 2) (rsub w (Finite 1))) winds.

(** ** Vocabulary of the statements about the weights *)

(** The mask of a velocity field has the shape of [u_init]. *)
Definition has_shape {A} (nz nyx : nat) (v : list (list A)) : Prop :=
  length v = nz /\ Forall (fun l => length l = nyx) v.

(** Entry [(k, c)] of a volume. *)
Definition cell {A} (v : list (list A)) (k c : nat) : option A :=
  match nth_error v k with
  | Some l => nth_error l c
  | None => None
  end.


(** ** Vocabulary of the statements about interpolation *)

(** An axis as [RegularGridInterpolator] accepts it and with a cell to
    interpolate in: at least two nodes, strictly ascending. *)
Definition ascending (grid : list Q) : Prop :=
  (2 <= length grid)%nat /\
  forall i, (S i < length grid)%nat -> nth i grid 0 < nth (S i) grid 0.

Definition well_formed (I : RegularGridInterpolator) : Prop :=
  ascending (grid_z I) /\ ascending (grid_y I) /\ ascending (grid_x I) /\
  length (values I) =
    (length (grid_z I) * length (grid_y I) * length (grid_x I))%nat.

Definition is_number (v : fval) : Prop := exists q, v = Num q.

(** The values are those of [f] at the nodes. *)
Definition samples (f : Q -> Q -> Q -> Q) (I : RegularGridInterpolator) : Prop :=
  forall a b c,
    (a < length (grid_z I))%nat -> (b < length (grid_y I))%nat ->
    (c < length (grid_x I))%nat ->
    value_at I a b c = Num (f (nth a (grid_z I) 0) (nth b (grid_y I) 0)
                              (nth c (grid_x I) 0)).

Definition affine (c0 cz cy cx : Q) (pz py px : Q) : Q :=
  c0 + cz * pz + cy * py + cx * px.


(** The point lies outside the bounds of the grid on some axis. *)
Definition outside (I : RegularGridInterpolator) (p : Q * Q * Q) : Prop :=
  let '(pz, py, px) := p in
  out_of_bounds (grid_z I) pz = true \/ out_of_bounds (grid_y I) py = true \/
  out_of_bounds (grid_x I) px = true.




(** The fine axis and the coarse correction of the worked example. *)
Definition fine_axis : list Q := [0; 1; 2; 3].


(** ** Data of the worked examples *)

(** A rational stand-in for [math.radians]. *)
Definition radians_approx (deg : Q) : Q := deg * (355 # 113) / 180.

(** A beam-crossing angle of one radian (about 57 degrees) in both cells
    of a level. *)
Definition bca_one_radian (i j : nat) : list Q := [1; 1].

Definition args_defaults : Args :=
  call (PyList []) (Some "corrected_velocity") (Some "reflectivity")
       0 0 None None None.

Definition args_with_model : Args :=
  call (PyList []) (Some "corrected_velocity") (Some "reflectivity")
       0 1 None None (Some ["hrrr"]).

(** Collaborators of the worked examples: a gradient that is 1 in every
    entry, a solver that returns its starting point with [warnflag] 2, and
    masked entries left as they are. *)
Definition grad_ones (w : list fval) : list fval := map (fun _ => Num 1) w.
Definition solver_stalls (x0 residual : list fval) : list fval * Z := (x0, 2%Z).
Definition keep_entry (w d : fval) : fval := w.

(** A solver that hands back the residual it is given, with [warnflag]
    0: what it returns shows what the cycle passes as the residual. *)
Definition solver_echo (x0 residual : list fval) : list fval * Z :=
  (residual, 0%Z).

(** A wind field at rest on the 4 x 4 x 4 grid of [fine_axis]. *)
Definition winds_at_rest : list fval := repeat (Num 0) 192.


(** Grids of the worked examples: a pair that agrees, a pair 20 apart in
    y, a pair 10.5 apart in x at 100 km, and calls built on them. *)
Definition grid_a : Grid := mkGrid [0; 1000] [0; 1000] [0; 500] 36 [].
Definition grid_b : Grid := mkGrid [0; 1000] [0; 1020] [0; 500] 36 [].

Definition grid_far : Grid := mkGrid [100000] [0] [0] 36 [].
Definition grid_farther : Grid := mkGrid [1000105 # 10] [0] [0] 36 [].

Definition args_model_blend : Args :=
  call (PyList [grid_a; grid_a]) (Some "corrected_velocity")
       (Some "reflectivity") 0 1 None None None.

Definition args_no_grids : Args :=
  call (PyList []) (Some "corrected_velocity") (Some "reflectivity")
       0 1 None None None.

Definition args_default_names : Args :=
  call (PyList [grid_a; grid_a]) None None 0 0 None None None.

Definition args_tuple : Args :=
  call (PyTuple [grid_a]) None None 0 0 None None None.

(** Grids of one and of two levels of two cells each, by the mask of
    their velocity field. *)
Definition grid_of_mask (m : list (list bool)) : Grid :=
  mkGrid [0; 1000] [0] [0; 500] 36 m.
Definition grid_second_cell : Grid := grid_of_mask [[false; true]].
Definition grid_all_valid : Grid := grid_of_mask [[false; false]].
Definition grid_two_levels : Grid :=
  grid_of_mask [[false; true]; [true; false]].
Definition grid_two_levels_valid : Grid :=
  grid_of_mask [[false; false]; [false; false]].

(** ** Vocabulary of the statements about the argument checks *)

(** Two coordinate arrays are out of tolerance at some index. *)
Definition far_apart (a b : list Q) : Prop :=
  exists i ai bi,
    nth_error a i = Some ai /\ nth_error b i = Some bi /\
    10 + rtol_default * Qabs bi < Qabs (ai - bi).

Definition disagree (ax : axis) (g prev_grid : Grid) : Prop :=
  match ax with
  | AxisX => far_apart (x g) (x prev_grid)
  | AxisY => far_apart (y g) (y prev_grid)
  | AxisZ => far_apart (z g) (z prev_grid)
  | AxisOrigin => ~ origin_latitude g == origin_latitude prev_grid
  end.

(** [g] comes right after [prev_grid] in the list. *)
Definition consecutive (gs : list Grid) (g prev_grid : Grid) : Prop :=
  exists m, nth_error gs m = Some prev_grid /\ nth_error gs (S m) = Some g.

Definition same_shape (gs : list Grid) : Prop :=
  forall g h, In g gs -> In h gs ->
    length (x g) = length (x h) /\
    length (y g) = length (y h) /\
    length (z g) = length (z h).

(** The coordinate arrays differ by more than 10 at some index. *)
Definition differ_by_more_than_10 (a b : list Q) : Prop :=
  exists i ai bi,
    nth_error a i = Some ai /\ nth_error b i = Some bi /\
    10 < Qabs (ai - bi).

(** A configuration error as the argument checks are meant to catch it. *)
Definition storm_motion_missing (a : Args) : Prop :=
  ~ Cv a == 0 /\ (Ut a = None \/ Vt a = None).

Definition model_fields_missing (a : Args) : Prop :=
  ~ Cmod a == 0 /\ model_fields a = None.

Definition not_a_list (a : Args) : Prop :=
  exists gs, Grids a = PyTuple gs.

(** The call gets as far as line 138: a non-empty list and both field
    names given. *)
Definition reaches_model_check (a : Args) : Prop :=
  (exists g gs, Grids a = PyList (g :: gs)) /\
  refl_field a <> None /\ vel_name a <> None.

(** The call gets as far as line 113. *)
Definition reaches_field_names (a : Args) : Prop :=
  (Cv a == 0 \/ (Ut a <> None /\ Vt a <> None)) /\
  exists gs, Grids a = PyList gs /\ check_grids gs = ok tt.

(** ** Vocabulary of the statements about restricted fields *)

(** The entry is a number between [lo] and [hi]. *)
Definition within (lo hi : Q) (v : fval) : Prop :=
  exists q, v = Num q /\ lo <= q /\ q <= hi.

(** A field of ones on a grid of [n] nodes, and the axis of the examples
    with a fifth node. *)
Definition field_of_ones (n : nat) : list fval := repeat (Num 1) n.
Definition odd_axis : list Q := [0; 1; 2; 3; 4].

(** ** Vocabulary of the statements about stalled cycles *)

(** Two entries hold the same number. *)
Definition same_number (a b : fval) : Prop :=
  exists p q, a = Num p /\ b = Num q /\ p == q.

(** [f] maps arrays of [n] numbers to arrays of [n] numbers. *)
Definition keeps_numbers (n : nat) (f : list fval -> list fval) : Prop :=
  forall v, length v = n -> Forall is_number v ->
            length (f v) = n /\ Forall is_number (f v).

(** A call with the defaults of the worked examples and an iteration
    budget of [n]. *)
Definition args_budget (n : Z) : Args :=
  mkArgs (PyList []) (Some "corrected_velocity") (Some "reflectivity")
         0 0 None None None None None n 30 150 None.

(** A call on two grids that agree, with both field names given. *)
Definition args_two_grids : Args :=
  call (PyList [grid_a; grid_a]) (Some "corrected_velocity")
       (Some "reflectivity") 0 0 None None None.

(** ** Vocabulary of the statements about two radars *)

(** The observation weight of one level that lines 212-232 leave on a
    level of zeros: 1 where the velocity is valid and the beam-crossing
    angle within its bounds. *)
Definition observed_level (radians : Q -> Q) (a : Args) (bca : list Q)
    (mask : list bool) : list Q :=
  map (fun c : bool => if c then 1 else 0)
      (map2 andb (map negb mask) (within_bounds radians a bca)).

(** 1 where the velocity is valid. *)
Definition valid_level (mask : list bool) : list Q :=
  map (fun m : bool => if m then 0 else 1) mask.

(** What one pass of lines 211-242 at level [k] does to the observation
    weights of one radar and to the background weights, radar 0 being the
    first of the pair. *)
Definition observed_step (radians : Q -> Q) (a : Args) (bca : list Q)
    (masks : list (list bool)) (w : list (list Q)) (k : nat)
    : list (list Q) :=
  update w k (observed_level radians a bca (nth k masks [])).

Definition background_step (masks : list (list bool)) (bg : list (list Q))
    (k : nat) : list (list Q) :=
  update (update bg k (valid_level (nth k masks []))) 0
         (valid_level (nth k masks [])).

(** ** Vocabulary of the statements about clipped weights *)

(** One volume for each of [n] radars, no entry negative. *)
Definition counted (n : nat) (weights : list (list (list Q))) : Prop :=
  length weights = n /\
  Forall (Forall (Forall (fun q => 0 <= q))) weights.

(** Every entry is 1 or 0. *)
Definition zero_or_one (weights : list (list (list Q))) : Prop :=
  Forall (Forall (Forall (fun v => v = 1 \/ v == 0))) weights.

(** ** Lines 263-269: the observation weights on the coarse grid *)

(** A volume of weights as the array of values of an interpolator. *)
Definition volume_values (vol : list (list Q)) : list fval :=
  map Num (concat vol).

(** [weights_coarse], before [np.stack]: one restricted volume per
    radar. *)
Definition coarse_weights (zf yf xf : list Q)
    (weights : list (list (list Q))) : result (list (list fval)) :=
  map_result
    (fun vol => resample zf yf xf (volume_values vol)
                         (coarsen_axis zf) (coarsen_axis yf) (coarsen_axis xf))
    weights.

(** Two radars on a grid of 2 x 2 x 2 nodes for the worked examples: the
    axis of each direction, the masks of the two velocity fields and the
    beam-crossing angle. *)
Definition axis_pair : list Q := [0; 1].
Definition mask_partly : list (list bool) :=
  [[false; true; false; false]; [true; false; false; false]].
Definition mask_none : list (list bool) :=
  [[false; false; false; false]; [false; false; false; false]].
Definition bca_four (i j : nat) : list Q := [1; 1; 1; 1].

(** ** Lines 480-497: the retrieved winds and their masks *)

(** [np.sum(mod_weights, axis=0)] for volumes of shape [(nz, ny * nx)]. *)
Definition sum_axis0_float (nz nyx : nat)
    (mod_weights : list (list (list fval))) : list (list fval) :=
  fold_left (map2 (map2 fadd)) mod_weights (repeat (repeat (Num 0) nyx) nz).

(** [where_mask < 1], entry by entry; a comparison with NaN is [False]. *)
Definition below_one (v : fval) : bool :=
  match v with
  | Num q => negb (Qle_bool 1 q)
  | NaN => false
  end.

(** Lines 486 and 492: [where_mask < 1] for
    [where_mask = np.sum(weights, axis=0) + np.sum(mod_weights, axis=0)],
    cell after cell. *)
Definition outside_coverage (nz nyx : nat) (weights : list (list (list Q)))
    (mod_weights : list (list (list fval))) : list bool :=
  concat (map2 (map2 (fun w m => below_one (fadd (Num w) m)))
               (sum_axis0 nz nyx weights)
               (sum_axis0_float nz nyx mod_weights)).

(** [np.ma.masked_where(cond, arr)] with its check of the two shapes. *)
Definition mask_where (cond : list bool) (arr : MaskedArray)
    : result MaskedArray :=
  if (length cond =? length (data arr))%nat then ok (masked_where cond arr)
  else raise IndexError.

(** The three components that lines 498-516 store as the fields [u], [v]
    and [w] of every output grid. *)
Record Winds : Type := mkWinds {
  u_wind : MaskedArray;
  v_wind : MaskedArray;
  w_wind : MaskedArray
}.

(** Lines 481-497.  [np.reshape] raises [ValueError] when the size of
    [winds] is not [3 * nz * ny * nx]. *)
Definition retrieved_winds (nz nyx : nat) (winds : list fval)
    (weights : list (list (list Q))) (mod_weights : list (list (list fval)))
    (mask_outside_opt mask_w_outside_opt : bool) : result Winds :=
  let n := (nz * nyx)%nat in
  if negb (length winds =? 3 * n)%nat
  then raise (ValueError "cannot reshape array")
  else
  let u := component 0 n winds in
  let v := component 1 n winds in
  let w := component 2 n winds in
  let outside := outside_coverage nz nyx weights mod_weights in
  let u := unmasked u in
  let w := unmasked w in
  let v := unmasked v in
  uvw <- (if mask_outside_opt
          then u <- mask_where outside u ;;
               v <- mask_where outside v ;;
               w <- mask_where outside w ;;
               ok (u, v, w)
          else ok (u, v, w)) ;;
  let '(u, v, w) := uvw in
  w <- (if mask_w_outside_opt then mask_where outside w else ok w) ;;
  ok (mkWinds u v w).

(** No entry is masked. *)
Definition nothing_masked (m : MaskedArray) : Prop :=
  mask m = map (fun _ => false) (data m).

(** ** Lines 297-299: the grid spacing *)

(** [np.diff(arr, axis=0)[0]]: an [IndexError] with fewer than two
    nodes. *)
Definition first_difference (arr : list Q) : result Q :=
  match arr with
  | a :: b :: _ => ok (b - a)
  | _ => raise IndexError
  end.

(** Consecutive nodes are [h] apart. *)
Definition uniform (h : Q) (arr : list Q) : Prop :=
  forall i, (S i < length arr)%nat -> nth (S i) arr 0 - nth i arr 0 == h.

(** ** Lines 263-276 and 326-361: the model fields

    Two more exceptions of Python occur here, next to those of [exn]. *)

Inductive pyerror : Type :=
| Base (e : exn)
| AttributeError (msg : string)
| KeyError (key : string).

Definition attempt (A : Type) : Type := (pyerror + A)%type.

Definition attempt_bind {A B} (c : attempt A) (k : A -> attempt B)
    : attempt B :=
  match c with
  | inl e => inl e
  | inr a => k a
  end.

Notation "x <~ c ;; k" := (attempt_bind c (fun x => k))
  (at level 61, c at next level, right associativity).

Definition lift {A} (r : result A) : attempt A :=
  match r with
  | inl e => inl (Base e)
  | inr a => inr a
  end.

(** [for x in xs: s = body(x, s)], stopping at the first exception. *)
Fixpoint attempt_each {A S} (xs : list A) (body : A -> S -> attempt S)
    (s : S) : attempt S :=
  match xs with
  | [] => inr s
  | x0 :: xs' => s' <~ body x0 s ;; attempt_each xs' body s'
  end.

(** The object that the name [mod_weights_coarse] is bound to: the list of
    line 264, or the array that [np.stack] returns on line 276. *)
Inductive stacked : Type :=
| AsList (items : list (list fval))
| AsArray (items : list (list fval)).

Definition no_append : string :=
  "'numpy.ndarray' object has no attribute 'append'".

(** [mod_weights_coarse.append(item)] *)
Definition append (o : stacked) (item : list fval) : attempt stacked :=
  match o with
  | AsList items => inr (AsList (items ++ [item]))
  | AsArray _ => inl (AttributeError no_append)
  end.

(** [np.stack(mod_weights_coarse)] *)
Definition np_stack (o : stacked) : attempt stacked :=
  match o with
  | AsList [] | AsArray [] =>
      inl (Base (ValueError "need at least one array to stack"))
  | AsList items | AsArray items => inr (AsArray items)
  end.

(** Lines 271-276. *)
Definition coarsen_model_weights (zf yf xf : list Q)
    (model_fields : option (list string))
    (mod_weights : list (list (list fval))) : attempt stacked :=
  match model_fields with
  | None => inr (AsList [])
  | Some names =>
      attempt_each (range 0 (length names))
        (fun i mod_weights_coarse =>
           vol <~ lift (getitem mod_weights i) ;;
           coarse <~ lift (resample zf yf xf (concat vol)
                             (coarsen_axis zf) (coarsen_axis yf)
                             (coarsen_axis xf)) ;;
           mod_weights_coarse <~ append mod_weights_coarse coarse ;;
           np_stack mod_weights_coarse)
        (AsList [])
  end.

(** [Grids[0].fields[key]["data"]] *)
Definition field_data (fields : list (string * MaskedArray)) (key : string)
    : attempt MaskedArray :=
  match find (fun kv => String.eqb (fst kv) key) fields with
  | Some kv => inr (snd kv)
  | None => inl (KeyError key)
  end.

Definition model_arrays : Type :=
  (list MaskedArray * list MaskedArray * list MaskedArray)%type.

(** Lines 336-361, the body of the loop over the model fields.  Line 343
    indexes [u_model] with [model_no]; the function binds [mod_no] (line
    334) and never [model_no]. *)
Definition model_field_body (fields : list (string * MaskedArray))
    (the_field : string) (s : model_arrays) : attempt model_arrays :=
  let '(u_model, v_model, w_model) := s in
  u <~ field_data fields ("U_" ++ the_field) ;;
  v <~ field_data fields ("V_" ++ the_field) ;;
  w <~ field_data fields ("W_" ++ the_field) ;;
  let u_model := (u_model ++ [u])%list in
  let v_model := (v_model ++ [v])%list in
  let w_model := (w_model ++ [w])%list in
  inl (Base (NameError "model_no")).

(** Lines 263-361 as far as the model fields go, with the grid spacing of
    lines 297-299 in between, which needs two nodes on every axis.  The
    other lines in between (the coarse observation weights, the statistics
    of the coarse velocities) work on arrays of matching shapes and raise
    nothing. *)
Definition model_fields_setup (zf yf xf : list Q)
    (fields : list (string * MaskedArray))
    (model_fields : option (list string))
    (mod_weights : list (list (list fval)))
    : attempt (stacked * model_arrays) :=
  (* 271-276 *)
  mod_weights_coarse <~ coarsen_model_weights zf yf xf model_fields
                          mod_weights ;;
  (* 297-299 *)
  dx <~ lift (first_difference xf) ;;
  dy <~ lift (first_difference yf) ;;
  dz <~ lift (first_difference zf) ;;
  (* 326-361 *)
  models <~ match model_fields with
            | None => inr ([], [], [])
            | Some names =>
                attempt_each names (model_field_body fields) ([], [], [])
            end ;;
  inr (mod_weights_coarse, models).

(** A grid of the worked examples carries the three wind components of the
    model ["hrrr"]. *)
Definition hrrr_fields : list (string * MaskedArray) :=
  [("U_hrrr", unmasked []); ("V_hrrr", unmasked []); ("W_hrrr", unmasked [])].

(** ** Lines 266-280: the background weights on the coarse grid

    Line 278 builds [weight_interp], the interpolator of the background
    weights.  Line 280 calls [weights_interp], the interpolator that the
    loops of lines 266-276 built last, and hands it the coarse mesh with
    the y and x coordinates in each other's place. *)
Definition coarse_background (zf yf xf : list Q)
    (weights : list (list (list Q)))
    (mod_weights : list (list (list fval)))
    (model_fields : option (list string))
    (bg_weights : list (list Q)) : attempt (list fval) :=
  (* 266-269 *)
  weights_coarse <~ lift (coarse_weights zf yf xf weights) ;;
  let observed := map volume_values weights in
  (* 271-276 *)
  mod_weights_coarse <~ coarsen_model_weights zf yf xf model_fields
                          mod_weights ;;
  let modelled :=
    match model_fields with
    | Some names => map (@concat fval) (firstn (length names) mod_weights)
    | None => []
    end in
  (* 278-280 *)
  match rev (observed ++ modelled) with
  | [] => inl (Base (NameError "weights_interp"))
  | vals :: _ =>
      let weights_interp := make_interpolator zf yf xf vals in
      let weight_interp :=
        make_interpolator zf yf xf (volume_values bg_weights) in
      lift (map_result
              (fun p : Q * Q * Q =>
                 let '(pz, py, px) := p in
                 interpolate weights_interp (pz, px, py))
              (meshgrid (coarsen_axis zf) (coarsen_axis yf)
                        (coarsen_axis xf)))
  end.

(** No cell of the velocity field is masked. *)
Definition all_valid (m : list (list bool)) : Prop :=
  Forall (Forall (fun b : bool => b = false)) m.

(** ** Python: slices

    [arr[start:stop:step]] for a non-zero [step], as
    [slice.indices(len(arr))] resolves it: a bound that is left out is the
    end of the array in the direction of travel, a negative bound counts
    from the end, and a bound beyond the array is clipped. *)

Definition adjust (len step b : Z) : Z :=
  if (b <? 0)%Z then
    let b' := (b + len)%Z in
    if (b' <? 0)%Z then (if (step <? 0)%Z then -1 else 0)%Z else b'
  else if (len <=? b)%Z then (if (step <? 0)%Z then len - 1 else len)%Z
  else b.

Definition slice_start (len step : Z) (start : option Z) : Z :=
  match start with
  | None => if (step <? 0)%Z then (len - 1)%Z else 0%Z
  | Some b => adjust len step b
  end.

Definition slice_stop (len step : Z) (stop : option Z) : Z :=
  match stop with
  | None => if (step <? 0)%Z then (-1)%Z else len
  | Some b => adjust len step b
  end.

(** The indices from [i] on, [step] apart, as long as they are short of
    [stop]. *)
Fixpoint slice_walk (fuel : nat) (i stop step : Z) : list Z :=
  match fuel with
  | O => []
  | S fuel' =>
      if (if (step <? 0)%Z then (stop <? i)%Z else (i <? stop)%Z)
      then i :: slice_walk fuel' (i + step)%Z stop step
      else []
  end.

Definition gather {A} (arr : list A) (indices : list Z) : list A :=
  flat_map (fun i => match nth_error arr (Z.to_nat i) with
                     | Some e => [e]
                     | None => []
                     end) indices.

Definition pyslice {A} (arr : list A) (start stop : option Z) (step : Z)
    : list A :=
  let len := Z.of_nat (length arr) in
  gather arr (slice_walk (length arr) (slice_start len step start)
                         (slice_stop len step stop) step).

(** ** Lines 89-110: the background wind on the coarse grid *)

(** The sum of two one-dimensional arrays: shapes broadcast when they are
    equal or one of them is [(1,)]. *)
Definition broadcast_add (u v : list fval) : result (list fval) :=
  if (length u =? length v)%nat then ok (map2 fadd u v)
  else match u, v with
       | [u0], _ => ok (map (fadd u0) v)
       | _, [v0] => ok (map (fun e => fadd e v0) u)
       | _, _ => raise broadcast_error
       end.

(** Lines 107-108. *)
Definition u_back_coarse (u_back2 : list fval) : result (list fval) :=
  s <- broadcast_add (pyslice u_back2 None (Some (-2)%Z) (-2)%Z)
                     (pyslice u_back2 (Some 1%Z) (Some (-1)%Z) 2%Z) ;;
  ok (map (fun e => fdiv e (Num 2)) s).

(** Lines 109-110; the second slice is taken from [u_back2]. *)
Definition v_back_coarse (u_back2 v_back2 : list fval)
    : result (list fval) :=
  s <- broadcast_add (pyslice v_back2 None (Some (-2)%Z) (-2)%Z)
                     (pyslice u_back2 (Some 1%Z) (Some (-1)%Z) 2%Z) ;;
  ok (map (fun e => fdiv e (Num 2)) s).

(** A sounding on five levels for the worked examples. *)
Definition u_sounding : list fval := [Num 1; Num 2; Num 3; Num 4; Num 5].
Definition v_sounding : list fval := [Num 10; Num 20; Num 30; Num 40; Num 50].


(** ** A NaN on the way to the coarse solve *)

(** A coarse solver that returns its starting point and reports in
    [warnflag] whether the starting point holds a NaN: 1 if it does, 0 if
    it does not. *)
Definition solver_reports_nan (x0 residual : list fval) : list fval * Z :=
  (x0, if existsb isnan x0 then 1%Z else 0%Z).

(** The wind field at rest on the 4 x 4 x 4 grid of [fine_axis], but for a
    NaN in the first entry of [u]. *)
Definition winds_one_nan : list fval := NaN :: repeat (Num 0) 191.


(* ================================================================== *)
(** * Part II: properties *)
(* ================================================================== *)

(** ** Facts about lists *)

Section ListFacts.

Lemma length_map2 {A B C} (f : A -> B -> C) (l : list A) (m : list B) :
  length l = length m -> length (map2 f l m) = length l.
Proof.
  revert m. induction l as [|a l IH]; intros [|b m] H; simpl in *;
    try discriminate; [reflexivity|].
  f_equal. apply IH. lia.
Qed.

Lemma nth_error_map2 {A B C} (f : A -> B -> C) (l : list A) (m : list B)
    (i : nat) (a : A) (b : B) :
  nth_error l i = Some a -> nth_error m i = Some b ->
  nth_error (map2 f l m) i = Some (f a b).
Proof.
  revert l m. induction i as [|i IH]; intros [|a0 l] [|b0 m]; simpl;
    try discriminate.
  - intros [= ->] [= ->]. reflexivity.
  - apply IH.
Qed.

Lemma map2_app {A B C} (f : A -> B -> C) (l1 l2 : list A) (m1 m2 : list B) :
  length l1 = length m1 ->
  map2 f (l1 ++ l2) (m1 ++ m2) = (map2 f l1 m1 ++ map2 f l2 m2)%list.
Proof.
  revert m1. induction l1 as [|a l1 IH]; intros [|b m1] H; simpl in *;
    try discriminate; [reflexivity|].
  f_equal. apply IH. lia.
Qed.

Lemma map2_repeat {A B C} (f : A -> B -> C) (u : A) (v : B) (n : nat) :
  map2 f (repeat u n) (repeat v n) = repeat (f u v) n.
Proof. induction n as [|n IH]; simpl; [reflexivity | now rewrite IH]. Qed.

Lemma map_repeat {A B} (f : A -> B) (u : A) (n : nat) :
  map f (repeat u n) = repeat (f u) n.
Proof. induction n as [|n IH]; simpl; [reflexivity | now rewrite IH]. Qed.

Lemma map_result_ok {A B} (f : A -> result B) (P : B -> Prop) (l : list A) :
  (forall a, In a l -> exists b, f a = ok b /\ P b) ->
  exists bs, map_result f l = ok bs /\ Forall P bs /\ length bs = length l.
Proof.
  induction l as [|a l IH]; intros H; simpl.
  - exists []. repeat split. constructor.
  - destruct (H a (or_introl eq_refl)) as (b & Hb & Pb).
    destruct IH as (bs & Hbs & Pbs & Hlen).
    { intros a' Ha'. apply H. now right. }
    exists (b :: bs). rewrite Hb. simpl. rewrite Hbs. simpl.
    repeat split; [now constructor | now rewrite Hlen].
Qed.

Lemma flat_index_lt (a b n m : nat) :
  (a < n)%nat -> (b < m)%nat -> (a * m + b < n * m)%nat.
Proof.
  intros Ha Hb.
  assert (H : (S a * m <= n * m)%nat) by (apply Nat.mul_le_mono_r; lia).
  simpl in H. lia.
Qed.

End ListFacts.

(** ** Argument checks *)

Section ArgumentChecks.

Lemma isclose_false (atol a b : Q) :
  isclose atol a b = false <-> atol + rtol_default * Qabs b < Qabs (a - b).
Proof.
  unfold isclose. split; intro H.
  - apply Qnot_le_lt. intro Hle. apply Qle_bool_iff in Hle. congruence.
  - destruct (Qle_bool _ _) eqn:E; [|reflexivity].
    apply Qle_bool_iff in E. exfalso. apply (Qlt_not_le _ _ H E).
Qed.

Lemma isclose_refl (a : Q) : isclose 10 a a = true.
Proof.
  unfold isclose. apply Qle_bool_iff.
  assert (Ha : Qabs (a - a) == 0).
  { assert (E : a - a == 0) by ring. rewrite E. reflexivity. }
  rewrite Ha.
  assert (H0 : 0 <= rtol_default * Qabs a).
  { apply Qmult_le_0_compat; [unfold rtol_default; lra | apply Qabs_nonneg]. }
  lra.
Qed.

Lemma all2_isclose_refl (l : list Q) : all2 (isclose 10) l l = true.
Proof.
  induction l as [|a l IH]; simpl; [reflexivity|].
  now rewrite isclose_refl, IH.
Qed.

Lemma all2_isclose_false (a b : list Q) :
  all2 (isclose 10) a b = false -> far_apart a b.
Proof.
  revert b. induction a as [|a0 a IH]; intros [|b0 b]; simpl; try discriminate.
  intro H. apply andb_false_iff in H. destruct H as [H|H].
  - exists 0%nat, a0, b0. repeat split. now apply isclose_false.
  - destruct (IH _ H) as (i & ai & bi & Ha & Hb & Hfar).
    exists (S i), ai, bi. auto.
Qed.

Lemma far_apart_all2 (a b : list Q) :
  far_apart a b -> all2 (isclose 10) a b = false.
Proof.
  intros (i & ai & bi & Ha & Hb & Hfar). revert a b Ha Hb.
  induction i as [|i IH]; intros [|a0 a] [|b0 b]; simpl; try discriminate.
  - intros [= ->] [= ->]. apply isclose_false in Hfar. now rewrite Hfar.
  - intros Ha Hb. rewrite (IH _ _ Ha Hb). apply andb_false_r.
Qed.

Lemma allclose_same_length (a b : list Q) :
  length a = length b -> allclose a b 10 = ok (all2 (isclose 10) a b).
Proof. intro H. unfold allclose. rewrite H, Nat.eqb_refl. reflexivity. Qed.

(** Every exception of the pairwise check is a [ValueError]. *)
Lemma allclose_raises (a b : list Q) (e : exn) :
  allclose a b 10 = raise e -> exists msg, e = ValueError msg.
Proof.
  unfold allclose. destruct (Nat.eqb _ _); [discriminate|].
  destruct a as [|a0 [|a1 a]], b as [|b0 [|b1 b]]; try discriminate;
    intros [= <-]; eauto.
Qed.

Lemma check_pair_raises (g p : Grid) (e : exn) :
  check_pair g p = raise e -> exists msg, e = ValueError msg.
Proof.
  unfold check_pair.
  destruct (allclose (x g) (x p) 10) as [ex|cx] eqn:Ex; simpl.
  { intros [= <-]. eapply allclose_raises; eauto. }
  destruct cx; simpl; [|intros [= <-]; eauto].
  destruct (allclose (y g) (y p) 10) as [ey|cy] eqn:Ey; simpl.
  { intros [= <-]. eapply allclose_raises; eauto. }
  destruct cy; simpl; [|intros [= <-]; eauto].
  destruct (allclose (z g) (z p) 10) as [ez|cz] eqn:Ez; simpl.
  { intros [= <-]. eapply allclose_raises; eauto. }
  destruct cz; simpl; [|intros [= <-]; eauto].
  destruct (Qeq_bool _ _); simpl; [discriminate|intros [= <-]; eauto].
Qed.

Lemma check_loop_raises (gs : list Grid) (p : Grid) (e : exn) :
  check_loop p gs = raise e -> exists msg, e = ValueError msg.
Proof.
  revert p. induction gs as [|g gs IH]; intros p; simpl; [discriminate|].
  destruct (check_pair g p) as [e'|[]] eqn:E; simpl.
  - intros [= <-]. eapply check_pair_raises; eauto.
  - apply IH.
Qed.

(** What one comparison does on arrays of matching lengths. *)
Lemma check_pair_spec (g p : Grid) :
  length (x g) = length (x p) ->
  length (y g) = length (y p) ->
  length (z g) = length (z p) ->
  (check_pair g p = ok tt /\ forall ax, ~ disagree ax g p) \/
  (exists ax, check_pair g p = raise (ValueError (axis_msg ax)) /\
              disagree ax g p).
Proof.
  intros Hx Hy Hz. unfold check_pair.
  rewrite (allclose_same_length _ _ Hx),
          (allclose_same_length _ _ Hy),
          (allclose_same_length _ _ Hz). simpl.
  destruct (all2 (isclose 10) (x g) (x p)) eqn:Ex; simpl.
  2:{ right. exists AxisX. split; [reflexivity|]. now apply all2_isclose_false. }
  destruct (all2 (isclose 10) (y g) (y p)) eqn:Ey; simpl.
  2:{ right. exists AxisY. split; [reflexivity|]. now apply all2_isclose_false. }
  destruct (all2 (isclose 10) (z g) (z p)) eqn:Ez; simpl.
  2:{ right. exists AxisZ. split; [reflexivity|]. now apply all2_isclose_false. }
  destruct (Qeq_bool (origin_latitude g) (origin_latitude p)) eqn:Eo; simpl.
  2:{ right. exists AxisOrigin. split; [reflexivity|].
      simpl. now apply Qeq_bool_neq. }
  left. split; [reflexivity|].
  intros [] Hd; simpl in Hd.
  - apply far_apart_all2 in Hd. congruence.
  - apply far_apart_all2 in Hd. congruence.
  - apply far_apart_all2 in Hd. congruence.
  - apply Hd. now apply Qeq_bool_iff.
Qed.

Lemma disagree_irrefl (ax : axis) (g : Grid) : ~ disagree ax g g.
Proof.
  destruct (check_pair_spec g g eq_refl eq_refl eq_refl) as [[_ H]|(ax' & H & _)].
  - apply H.
  - exfalso. unfold check_pair in H.
    rewrite !allclose_same_length in H by reflexivity.
    rewrite !all2_isclose_refl in H. simpl in H.
    assert (E : Qeq_bool (origin_latitude g) (origin_latitude g) = true)
      by (apply Qeq_bool_iff; reflexivity).
    rewrite E in H. discriminate.
Qed.

(** The loop stops at the first pair of neighbours that disagree. *)
Lemma check_loop_spec (gs : list Grid) (p : Grid) :
  same_shape (p :: gs) ->
  (check_loop p gs = ok tt /\
   forall g q ax, consecutive (p :: gs) g q -> ~ disagree ax g q) \/
  (exists ax g q, check_loop p gs = raise (ValueError (axis_msg ax)) /\
                  consecutive (p :: gs) g q /\ disagree ax g q).
Proof.
  revert p. induction gs as [|g gs IH]; intros p Hs.
  - left. split; [reflexivity|].
    intros g q ax (m & _ & Hm). destruct m; discriminate.
  - simpl.
    destruct (Hs g p) as (Hx & Hy & Hz); [simpl; auto | simpl; auto |].
    destruct (check_pair_spec g p Hx Hy Hz) as [[Hok Hno]|(ax & Hr & Hd)].
    + rewrite Hok. simpl.
      assert (Hs' : same_shape (g :: gs)).
      { intros a b Ha Hb. apply Hs; now right. }
      destruct (IH g Hs') as [[Hok' Hno']|(ax & g' & q & Hr & Hc & Hd)].
      * left. split; [assumption|].
        intros g' q ax (m & Hq & Hg'). destruct m as [|m]; simpl in *.
        -- injection Hq as <-. injection Hg' as <-. apply Hno.
        -- apply Hno'. exists m. auto.
      * right. exists ax, g', q. split; [assumption|]. split; [|assumption].
        destruct Hc as (m & Hq & Hg'). exists (S m). auto.
    + right. exists ax, g, p. rewrite Hr. simpl. split; [reflexivity|].
      split; [|assumption]. exists 0%nat. auto.
Qed.

Lemma check_grids_spec (gs : list Grid) :
  gs <> [] -> same_shape gs ->
  (check_grids gs = ok tt /\
   forall g q ax, consecutive gs g q -> ~ disagree ax g q) \/
  (exists ax g q, check_grids gs = raise (ValueError (axis_msg ax)) /\
                  consecutive gs g q /\ disagree ax g q).
Proof.
  destruct gs as [|g0 gs]; [congruence|]. intros _ Hs.
  unfold check_grids.
  assert (Hs' : same_shape (g0 :: g0 :: gs)).
  { intros a b Ha Hb. apply Hs.
    - destruct Ha as [<-|Ha]; [now left | exact Ha].
    - destruct Hb as [<-|Hb]; [now left | exact Hb]. }
  destruct (check_loop_spec (g0 :: gs) g0 Hs')
    as [[Hok Hno]|(ax & g & q & Hr & Hc & Hd)].
  - left. split; [assumption|].
    intros g q ax (m & Hq & Hg). apply Hno. exists (S m). auto.
  - right. exists ax, g, q. split; [assumption|]. split; [|assumption].
    destruct Hc as (m & Hq & Hg). destruct m as [|m]; simpl in *.
    + injection Hq as <-. injection Hg as <-.
      exfalso. eapply disagree_irrefl; eauto.
    + exists m. auto.
Qed.

End ArgumentChecks.

Section ArgumentCheckClaims.

Lemma origin_chain (gs : list Grid) (g0 : Grid) :
  nth_error gs 0 = Some g0 ->
  (forall g q ax, consecutive gs g q -> ~ disagree ax g q) ->
  forall m g, nth_error gs m = Some g ->
    origin_latitude g == origin_latitude g0.
Proof.
  intros H0 Hno. induction m as [|m IH]; intros g Hg.
  - rewrite H0 in Hg. injection Hg as <-. reflexivity.
  - destruct (nth_error gs m) as [q|] eqn:Hq.
    + rewrite <- (IH q eq_refl).
      destruct (Qeq_dec (origin_latitude g) (origin_latitude q)) as [E|E];
        [exact E|].
      exfalso. apply (Hno g q AxisOrigin); [exists m; auto | exact E].
    + exfalso. apply nth_error_None in Hq.
      assert (Hlt : (S m < length gs)%nat)
        by (apply nth_error_Some; congruence).
      lia.
Qed.

(** C6, amended.  For a non-empty list of grids whose coordinate arrays
    have matching lengths: when some grid is out of tolerance with the grid
    just before it in the list (at some index of x, y or z the two
    coordinates differ by more than [10 + 1e-5 * |coordinate of the earlier
    grid|]), or has another origin latitude, [ValueError] is raised with
    the message of an axis on which two neighbours disagree; when any two
    grids of the list differ in origin latitude, [ValueError] is raised;
    and a list of identical grids passes. *)
Theorem check_grids_neighbours (gs : list Grid) :
  gs <> [] -> same_shape gs ->
  ((exists g q ax, consecutive gs g q /\ disagree ax g q) ->
   exists ax g q, check_grids gs = raise (ValueError (axis_msg ax)) /\
                  consecutive gs g q /\ disagree ax g q) /\
  ((exists g h, In g gs /\ In h gs /\
                ~ origin_latitude g == origin_latitude h) ->
   is_ValueError (check_grids gs) = true) /\
  ((forall g h, In g gs -> In h gs -> g = h) -> check_grids gs = ok tt).
Proof.
  intros Hne Hs.
  destruct (check_grids_spec gs Hne Hs)
    as [[Hok Hno]|(ax & g & q & Hr & Hc & Hd)].
  - split; [|split].
    + intros (g & q & ax & Hc & Hd). exfalso. eapply Hno; eauto.
    + intros (g & h & Hg & Hh & Hneq). exfalso. apply Hneq.
      destruct gs as [|g0 gs']; [congruence|].
      apply In_nth_error in Hg. destruct Hg as [m Hg].
      apply In_nth_error in Hh. destruct Hh as [n Hh].
      rewrite (origin_chain (g0 :: gs') g0 eq_refl Hno m g Hg).
      rewrite (origin_chain (g0 :: gs') g0 eq_refl Hno n h Hh).
      reflexivity.
    + intros _. exact Hok.
  - split; [|split].
    + intros _. exists ax, g, q. auto.
    + intros _. rewrite Hr. reflexivity.
    + intros Hsame. exfalso.
      destruct Hc as (m & Hq & Hg).
      apply nth_error_In in Hq. apply nth_error_In in Hg.
      rewrite (Hsame g q Hg Hq) in Hd.
      eapply disagree_irrefl; eauto.
Qed.

Lemma same_shape_pair (g h : Grid) :
  length (x g) = length (x h) ->
  length (y g) = length (y h) ->
  length (z g) = length (z h) ->
  same_shape [g; h].
Proof.
  intros Hx Hy Hz a b [<-|[<-|[]]] [<-|[<-|[]]]; auto.
Qed.

Lemma check_grids_neighbours_witness :
  (exists ax g q,
      check_grids [grid_a; grid_b] = raise (ValueError (axis_msg ax)) /\
      consecutive [grid_a; grid_b] g q /\ disagree ax g q) /\
  check_grids [grid_a; grid_a] = ok tt.
Proof.
  split.
  - apply (check_grids_neighbours [grid_a; grid_b]).
    + discriminate.
    + apply same_shape_pair; reflexivity.
    + exists grid_b, grid_a, AxisY. split.
      * exists 0%nat. split; reflexivity.
      * exists 1%nat, 1020, 1000. repeat split.
  - apply (check_grids_neighbours [grid_a; grid_a]).
    + discriminate.
    + apply same_shape_pair; reflexivity.
    + intros g h [<-|[<-|[]]] [<-|[<-|[]]]; reflexivity.
Defined.

(** C6 as stated fails: two grids whose x coordinates differ by 10.5 pass
    the check, because [np.allclose] adds [rtol * |b|] to the tolerance. *)
Lemma check_grids_relative_tolerance :
  differ_by_more_than_10 (x grid_farther) (x grid_far) /\
  check_grids [grid_far; grid_farther] = ok tt.
Proof.
  split; [|reflexivity].
  exists 0%nat, (1000105 # 10), 100000. repeat split.
Qed.

(** The comparison is between neighbours only: the first and the third of
    these grids are 16 apart and the list passes. *)
Example check_grids_chain :
  let g k := mkGrid [k] [0] [0] 36 [] in
  differ_by_more_than_10 (x (g 16)) (x (g 0)) /\
  check_grids [g 0; g 8; g 16] = ok tt.
Proof.
  split; [|reflexivity].
  exists 0%nat, 16, 0. repeat split.
Qed.

End ArgumentCheckClaims.

Section ConfigurationErrors.

Lemma check_grids_raises (gs : list Grid) (e : exn) :
  gs <> [] -> check_grids gs = raise e -> exists msg, e = ValueError msg.
Proof.
  destruct gs as [|g0 gs]; [congruence|]. intros _.
  unfold check_grids. apply check_loop_raises.
Qed.

Lemma Qeq_bool_false (a b : Q) : ~ a == b -> Qeq_bool a b = false.
Proof.
  intro H. destruct (Qeq_bool a b) eqn:E; [|reflexivity].
  apply Qeq_bool_iff in E. contradiction.
Qed.

(** C7, amended.  [ValueError] is raised, and nothing is returned, when
    [Grids] is not a list; when [Cv] is nonzero while [Ut] or [Vt] is
    [None]; and when [Cmod] is nonzero while [model_fields] is [None] in a
    call that gets as far as that check, that is, with a non-empty list of
    grids and both field names given. *)
Theorem check_args_configuration_error (a : Args) :
  not_a_list a \/ storm_motion_missing a \/
  (model_fields_missing a /\ reaches_model_check a) ->
  exists msg, check_args a = raise (ValueError msg).
Proof.
  intros H. unfold check_args.
  destruct ((is_None (Ut a) || is_None (Vt a)) && negb (Qeq_bool (Cv a) 0))
    eqn:Estorm; [eauto|].
  destruct H as [(gs & Hg)|[(Hcv & Hnone)|((Hcm & Hmf) & (g & gs & Hg) & Hr & Hv)]].
  - rewrite Hg. eauto.
  - exfalso. rewrite (Qeq_bool_false _ _ Hcv) in Estorm.
    destruct Hnone as [Hu|Hv].
    + rewrite Hu in Estorm. discriminate.
    + rewrite Hv, orb_true_r in Estorm. discriminate.
  - rewrite Hg.
    destruct (check_grids (g :: gs)) as [e|[]] eqn:Ec; simpl.
    + destruct (check_grids_raises (g :: gs) e) as [msg ->];
        [discriminate | exact Ec | eauto].
    + destruct (refl_field a); [|congruence].
      destruct (vel_name a); [|congruence]. simpl.
      rewrite Hmf, (Qeq_bool_false _ _ Hcm). simpl. eauto.
Qed.

Lemma check_args_configuration_error_witness :
  exists msg, check_args args_model_blend = raise (ValueError msg).
Proof.
  apply check_args_configuration_error. right. right.
  split; [split; [discriminate | reflexivity]|].
  split; [exists grid_a, [grid_a]; reflexivity|].
  split; discriminate.
Defined.

(** C7 as stated fails: with an empty list of grids, a nonzero [Cmod]
    and no model fields, [Grids[0]] raises [IndexError] before line 138 is
    reached. *)
Lemma check_args_empty_list :
  model_fields_missing args_no_grids /\
  check_args args_no_grids = raise IndexError /\
  is_ValueError (check_args args_no_grids) = false.
Proof.
  split; [split; [discriminate | reflexivity]|].
  split; reflexivity.
Qed.

(** The default field names lead to the same place: [NameError] comes
    before the model check. *)
Example check_args_default_names :
  let a := call (PyList [grid_a]) None None 0 1 None None None in
  model_fields_missing a /\ check_args a = raise (NameError "pyart").
Proof.
  split; [split; [discriminate | reflexivity]|reflexivity].
Qed.

(** C10, amended.  A call with [refl_field = None], or with [vel_name =
    None], never gets past the argument checks: it raises [NameError] for
    [pyart] whenever the checks before line 113 pass (storm motion, list,
    conformance of the grids), and the exception of the failing check
    otherwise. *)
Theorem check_args_missing_field_name (a : Args) :
  refl_field a = None \/ vel_name a = None ->
  (forall names, check_args a <> ok names) /\
  (reaches_field_names a -> check_args a = raise (NameError "pyart")).
Proof.
  intros Hnone. split.
  - intros names. unfold check_args.
    destruct (_ && negb (Qeq_bool (Cv a) 0)); [discriminate|].
    destruct (Grids a) as [gs|gs]; [|discriminate].
    destruct (check_grids gs) as [e|[]]; simpl; [discriminate|].
    destruct (refl_field a); simpl; [|discriminate].
    destruct (vel_name a); simpl; [|discriminate].
    destruct Hnone; discriminate.
  - intros (Hstorm & gs & Hg & Hok). unfold check_args.
    assert (E : (is_None (Ut a) || is_None (Vt a))
                && negb (Qeq_bool (Cv a) 0) = false).
    { destruct Hstorm as [Hcv|[Hu Hv]].
      - apply Qeq_bool_iff in Hcv. rewrite Hcv. apply andb_false_r.
      - destruct (Ut a); [|congruence]. destruct (Vt a); [|congruence].
        reflexivity. }
    rewrite E, Hg, Hok. simpl.
    destruct (refl_field a); simpl; [|reflexivity].
    destruct (vel_name a); simpl; [|reflexivity].
    destruct Hnone; discriminate.
Qed.

Lemma check_args_missing_field_name_witness :
  (forall names, check_args args_default_names <> ok names) /\
  check_args args_default_names = raise (NameError "pyart").
Proof.
  destruct (check_args_missing_field_name args_default_names) as [H1 H2].
  - left. reflexivity.
  - split; [exact H1|]. apply H2.
    split; [left; reflexivity|].
    exists [grid_a; grid_a]. split; reflexivity.
Defined.

(** C10 as stated fails: with [Grids] a tuple the call raises
    [ValueError], whatever the field names. *)
Lemma check_args_tuple_no_names :
  refl_field args_tuple = None /\
  check_args args_tuple = raise (ValueError "Grids has to be a list!") /\
  check_args args_tuple <> raise (NameError "pyart").
Proof.
  split; [reflexivity|]. split; [reflexivity|]. discriminate.
Qed.

End ConfigurationErrors.

(** ** Weights with a single grid *)

Section SingleGrid.

Variable get_bca : nat -> nat -> list Q.
Variable radians : Q -> Q.
Variables nz nyx : nat.
Variable a : Args.
Variable g : Grid.
Hypothesis mask_shape : has_shape nz nyx (vel_mask g).

Lemma same_dims_map_repeat {A B C} (f : A -> B) (v : C) (n m : nat)
    (vol : list (list A)) :
  has_shape n m vol ->
  same_dims (map (map f) vol) (repeat (repeat v m) n) = true.
Proof.
  intros [Hlen Hall]. unfold same_dims.
  rewrite length_map, repeat_length, Hlen, Nat.eqb_refl. simpl.
  clear Hlen. revert n.
  induction Hall as [|l vol Hl Hall IH]; intros [|n]; simpl; try reflexivity.
  rewrite length_map, repeat_length, Hl, Nat.eqb_refl. simpl. apply IH.
Qed.

Lemma clip_where_valid (m : list (list bool)) :
  clip [where_valid 1 0 m] = [where_valid 1 0 m].
Proof.
  unfold clip, where_valid. simpl. f_equal.
  rewrite map_map. apply map_ext. intros l.
  rewrite map_map. apply map_ext. intros []; reflexivity.
Qed.

(** Lines 258-260 are all that runs with one grid. *)
Lemma build_weights_single :
  build_weights get_bca radians nz nyx a (velocity_masks [g]) =
  ok ([where_valid 1 0 (vel_mask g)], where_valid 0 1 (vel_mask g),
      match model_fields a with
      | Some fields => repeat (repeat (repeat (Num 1) nyx) nz) (length fields)
      | None => [repeat (repeat (Num 0) nyx) nz]
      end).
Proof.
  unfold build_weights. simpl.
  unfold where_valid at 1, full at 1.
  rewrite (same_dims_map_repeat _ 0 nz nyx (vel_mask g) mask_shape). simpl.
  pose proof (clip_where_valid (vel_mask g)) as Hclip.
  unfold clip in Hclip. simpl in Hclip. injection Hclip as Hclip.
  rewrite Hclip. reflexivity.
Qed.

Lemma cell_map {A B} (f : A -> B) (v : list (list A)) (k c : nat) :
  cell (map (map f) v) k c = option_map f (cell v k c).
Proof.
  unfold cell. rewrite nth_error_map.
  destruct (nth_error v k) as [l|]; simpl; [|reflexivity].
  apply nth_error_map.
Qed.

(** C5.  With exactly one grid, the observation weights are the validity
    mask of its velocity field (1 where the observation is valid, 0 where
    it is masked) and the background weights are the complement (0 where
    valid, 1 where masked). *)
Theorem single_grid_weights :
  exists w bg mw,
    build_weights get_bca radians nz nyx a (velocity_masks [g])
    = ok ([w], bg, mw) /\
    (forall k c m, cell (vel_mask g) k c = Some m ->
       cell w k c = Some (if m then 0 else 1) /\
       cell bg k c = Some (if m then 1 else 0) /\
       cell bg k c = option_map (fun v => 1 - v) (cell w k c)) /\
    has_shape nz nyx w /\ has_shape nz nyx bg.
Proof.
  exists (where_valid 1 0 (vel_mask g)), (where_valid 0 1 (vel_mask g)).
  eexists. split; [apply build_weights_single|]. split.
  - intros k c m Hm. unfold where_valid. rewrite !cell_map, Hm. simpl.
    destruct m; repeat split; reflexivity.
  - destruct mask_shape as [Hlen Hall].
    unfold where_valid, has_shape. rewrite !length_map.
    repeat split; try assumption;
      apply Forall_map; eapply Forall_impl; [|exact Hall| |exact Hall];
      intros l Hl; simpl; now rewrite length_map.
Qed.

(** C9.  With exactly one grid, model fields and no [weights_model], the
    model weights are what line 131 set them to: one volume per model
    field, 1 in every cell. *)
Theorem single_grid_model_weights (fields : list string) :
  model_fields a = Some fields ->
  weights_model a = None ->
  exists w bg mw,
    build_weights get_bca radians nz nyx a (velocity_masks [g])
    = ok (w, bg, mw) /\
    length mw = length fields /\
    (forall i, (i < length fields)%nat ->
       exists vol, nth_error mw i = Some vol /\ has_shape nz nyx vol /\
         forall k c, (k < nz)%nat -> (c < nyx)%nat ->
           cell vol k c = Some (Num 1)).
Proof.
  intros Hf _. do 3 eexists. split; [apply build_weights_single|].
  rewrite Hf. split; [apply repeat_length|].
  intros i Hi. exists (repeat (repeat (Num 1) nyx) nz).
  split; [|split].
  - apply nth_error_repeat. exact Hi.
  - split; [apply repeat_length|].
    apply Forall_forall. intros l Hl. apply repeat_spec in Hl. subst l.
    apply repeat_length.
  - intros k c Hk Hc. unfold cell.
    rewrite (nth_error_repeat _ Hk). now apply nth_error_repeat.
Qed.

End SingleGrid.

Lemma single_grid_weights_witness :
  exists w bg mw,
    build_weights bca_one_radian radians_approx 2 2 args_defaults
                  (velocity_masks [grid_two_levels]) = ok ([w], bg, mw) /\
    (forall k c m, cell (vel_mask grid_two_levels) k c = Some m ->
       cell w k c = Some (if m then 0 else 1) /\
       cell bg k c = Some (if m then 1 else 0) /\
       cell bg k c = option_map (fun v => 1 - v) (cell w k c)) /\
    has_shape 2 2 w /\ has_shape 2 2 bg.
Proof.
  apply single_grid_weights.
  split; [reflexivity|]. repeat constructor.
Defined.

Lemma single_grid_model_weights_witness :
  exists w bg mw,
    build_weights bca_one_radian radians_approx 2 2 args_with_model
                  (velocity_masks [grid_two_levels]) = ok (w, bg, mw) /\
    length mw = length ["hrrr"] /\
    (forall i, (i < length ["hrrr"])%nat ->
       exists vol, nth_error mw i = Some vol /\ has_shape 2 2 vol /\
         forall k c, (k < 2)%nat -> (c < 2)%nat ->
           cell vol k c = Some (Num 1)).
Proof.
  apply single_grid_model_weights.
  - split; [reflexivity|]. repeat constructor.
  - reflexivity.
  - reflexivity.
Defined.

(** ** Background weights with two radars *)

Section BackgroundLevel.

Variable radians : Q -> Q.
Variable a : Args.
Variable vrs_mask : list (list (list bool)).

Lemma update_length {A} (l : list A) (i : nat) (v : A) :
  length (update l i v) = length l.
Proof.
  revert i. induction l as [|b l IH]; intros [|i]; simpl; auto.
Qed.

Lemma either_bound_all (bca : list Q) :
  radians (min_bca a) <= radians (max_bca a) ->
  either_bound radians a bca = map (fun _ => true) bca.
Proof.
  intros Hle. unfold either_bound. apply map_ext. intros b.
  destruct (Qle_bool (radians (min_bca a)) b) eqn:E1; [reflexivity|].
  simpl. apply Qle_bool_iff.
  assert (Hlt : b < radians (min_bca a)).
  { apply Qnot_le_lt. intros H. apply Qle_bool_iff in H. congruence. }
  lra.
Qed.

Lemma store_one_everywhere (bca : list Q) (cur : list Q) :
  length bca = length cur ->
  map2 (fun (c : bool) (v : Q) => if c then 1 else v)
       (map (fun _ => true) bca) cur = map (fun _ => 1) cur.
Proof.
  revert cur. induction bca as [|b bca IH]; intros [|v cur] H; simpl in *;
    try discriminate; [reflexivity|].
  f_equal. apply IH. lia.
Qed.

Lemma store_zero_where_masked (mask : list bool) (cur : list Q) :
  length mask = length cur ->
  map2 (fun (c : bool) (v : Q) => if c then 0 else v)
       mask (map (fun _ => 1) cur)
  = map (fun m : bool => if m then 0 else 1) mask.
Proof.
  revert cur. induction mask as [|m mask IH]; intros [|v cur] H; simpl in *;
    try discriminate; [reflexivity|].
  f_equal. apply IH. lia.
Qed.

(** Lines 234-240 on one level, for bounds in their natural order: level
    [k] becomes 1 where radar [i] has a valid observation and 0 where it
    is masked, and the same array is stored at index [i]. *)
Lemma background_weight_level (bca : list Q) (i k : nat)
    (bg_weights : list (list Q)) (cur : list Q) (vr : list (list bool))
    (mask : list bool) :
  weights_bg a = None ->
  radians (min_bca a) <= radians (max_bca a) ->
  nth_error bg_weights k = Some cur ->
  nth_error vrs_mask i = Some vr ->
  nth_error vr k = Some mask ->
  length bca = length cur ->
  length mask = length cur ->
  (i < length bg_weights)%nat ->
  let valid := map (fun m : bool => if m then 0 else 1) mask in
  background_weight radians a vrs_mask bca i k bg_weights =
  ok (update (update bg_weights k valid) i valid).
Proof.
  intros Hbg Hle Hcur Hvr Hmask Lb Lm Hi valid.
  unfold background_weight. rewrite Hbg.
  unfold getitem. rewrite Hcur. cbn [bind ok].
  unfold where_mask at 1.
  rewrite (either_bound_all bca Hle), length_map, Lb, Nat.eqb_refl.
  cbn [bind ok]. rewrite store_one_everywhere by exact Lb.
  rewrite Hvr. cbn [bind ok]. rewrite Hmask. cbn [bind ok].
  unfold where_mask. rewrite length_map, Lm, Nat.eqb_refl. cbn [bind ok].
  rewrite store_zero_where_masked by exact Lm. fold valid.
  unfold setitem.
  assert (Hk : (k < length bg_weights)%nat)
    by (apply nth_error_Some; congruence).
  apply Nat.ltb_lt in Hk. rewrite Hk. cbn [bind ok].
  rewrite update_length. apply Nat.ltb_lt in Hi. rewrite Hi. reflexivity.
Qed.

End BackgroundLevel.


(** C4 on a concrete pair of radars: one level of two cells, the first
    radar valid in the first cell and masked in the second, the
    beam-crossing angle within its bounds in both.  Lines 234-240 leave the
    background weight 1 in the valid cell and 0 in the masked one. *)
Theorem two_radar_background_weights :
  exists w mw,
    build_weights bca_one_radian radians_approx 1 2 args_defaults
                  (velocity_masks [grid_second_cell; grid_all_valid])
    = ok (w, [[1; 0]], mw) /\
    cell (vel_mask grid_second_cell) 0 1 = Some true /\
    cell (vel_mask grid_second_cell) 0 0 = Some false.
Proof.
  do 2 eexists. split; [vm_compute; reflexivity|]. split; reflexivity.
Qed.

(** With one grid the same mask gives the opposite background weights
    (line 260). *)
Example one_radar_background_weights :
  exists w mw,
    build_weights bca_one_radian radians_approx 1 2 args_defaults
                  (velocity_masks [grid_second_cell]) = ok (w, [[0; 1]], mw).
Proof. do 2 eexists. vm_compute. reflexivity. Qed.

(** Line 240 stores level [k] at index [i]: with two levels, level 0 ends
    as a copy of the last level. *)
Example two_radar_background_levels :
  exists w mw,
    build_weights bca_one_radian radians_approx 2 2 args_defaults
                  (velocity_masks [grid_two_levels; grid_two_levels_valid])
    = ok (w, [[0; 1]; [0; 1]], mw).
Proof. do 2 eexists. vm_compute. reflexivity. Qed.

(** ** Interpolation *)

Example coarsen_axis_even : coarsen_axis [0; 1; 2; 3] = [1 # 2; 5 # 2].
Proof. reflexivity. Qed.

Example coarsen_axis_odd : coarsen_axis [0; 1; 2; 3; 4] = [1 # 2; 5 # 2].
Proof. reflexivity. Qed.

Section Interpolation.

Lemma node_id (grid : list Q) (e : nat) :
  (e < length grid)%nat -> node grid e = e.
Proof. intros H. unfold node. lia. Qed.


Lemma find_index_bound (grid : list Q) (v : Q) :
  (2 <= length grid)%nat -> (S (fst (find_index grid v)) < length grid)%nat.
Proof. intro H. unfold find_index. simpl. lia. Qed.

Lemma ascending_cell (grid : list Q) (v : Q) :
  ascending grid ->
  let i := fst (find_index grid v) in
  ~ nth (S i) grid 0 - nth i grid 0 == 0.
Proof.
  intros [Hlen Hasc]. cbv zeta.
  pose proof (Hasc _ (find_index_bound grid v Hlen)) as Hlt.
  set (lo := nth (fst (find_index grid v)) grid 0) in *.
  set (hi := nth (S (fst (find_index grid v))) grid 0) in *.
  intro E. lra.
Qed.

Lemma value_at_number (I : RegularGridInterpolator) (a b c : nat) :
  length (values I) =
    (length (grid_z I) * length (grid_y I) * length (grid_x I))%nat ->
  Forall is_number (values I) ->
  (a < length (grid_z I))%nat -> (b < length (grid_y I))%nat ->
  (c < length (grid_x I))%nat ->
  is_number (value_at I a b c).
Proof.
  intros Hlen Hall Ha Hb Hc. unfold value_at.
  rewrite !node_id by assumption.
  rewrite Forall_forall in Hall. apply Hall. apply nth_In. rewrite Hlen.
  apply flat_index_lt; [|assumption]. now apply flat_index_lt.
Qed.

Lemma edge_weight_low (i : nat) (d : Q) : edge_weight i i d = 1 - d.
Proof. unfold edge_weight. now rewrite Nat.eqb_refl. Qed.

Lemma edge_weight_high (i : nat) (d : Q) : edge_weight (S i) i d = d.
Proof.
  unfold edge_weight. destruct (Nat.eqb_spec (S i) i); [lia|reflexivity].
Qed.

(** The eight corners of a cell with numbers in them give a number. *)
Lemma evaluate_linear_number (I : RegularGridInterpolator)
    (iz iy ix : nat) (dz dy dx : Q) :
  (forall a b c, (a = iz \/ a = S iz) -> (b = iy \/ b = S iy) ->
                 (c = ix \/ c = S ix) -> is_number (value_at I a b c)) ->
  is_number (evaluate_linear I iz iy ix dz dy dx).
Proof.
  intros H. unfold evaluate_linear, edges. simpl.
  destruct (H iz iy ix) as [v1 ->]; auto.
  destruct (H iz iy (S ix)) as [v2 ->]; auto.
  destruct (H iz (S iy) ix) as [v3 ->]; auto.
  destruct (H iz (S iy) (S ix)) as [v4 ->]; auto.
  destruct (H (S iz) iy ix) as [v5 ->]; auto.
  destruct (H (S iz) iy (S ix)) as [v6 ->]; auto.
  destruct (H (S iz) (S iy) ix) as [v7 ->]; auto.
  destruct (H (S iz) (S iy) (S ix)) as [v8 ->]; auto.
  simpl. eexists. reflexivity.
Qed.

(** With [bounds_error=False, fill_value=None] a query is answered from
    the cell nearest to it, in bounds or not. *)
Lemma interpolate_make (gz gy gx : list Q) (vals : list fval) (pz py px : Q) :
  interpolate (make_interpolator gz gy gx vals) (pz, py, px) =
  ok (evaluate_linear (make_interpolator gz gy gx vals)
        (fst (find_index gz pz)) (fst (find_index gy py))
        (fst (find_index gx px))
        (snd (find_index gz pz)) (snd (find_index gy py))
        (snd (find_index gx px))).
Proof. reflexivity. Qed.

Lemma interpolate_number (gz gy gx : list Q) (vals : list fval) (p : Q * Q * Q) :
  well_formed (make_interpolator gz gy gx vals) ->
  Forall is_number vals ->
  exists q, interpolate (make_interpolator gz gy gx vals) p = ok (Num q).
Proof.
  intros (Hz & Hy & Hx & Hlen) Hall. simpl in *.
  destruct p as [[pz py] px].
  rewrite interpolate_make.
  pose proof (find_index_bound gz pz (proj1 Hz)) as Bz.
  pose proof (find_index_bound gy py (proj1 Hy)) as By.
  pose proof (find_index_bound gx px (proj1 Hx)) as Bx.
  destruct (evaluate_linear_number (make_interpolator gz gy gx vals)
              (fst (find_index gz pz)) (fst (find_index gy py))
              (fst (find_index gx px))
              (snd (find_index gz pz)) (snd (find_index gy py))
              (snd (find_index gx px))) as [q Hq].
  - intros a b c Ha Hb Hc. apply value_at_number; simpl; auto;
      [destruct Ha | destruct Hb | destruct Hc]; subst; lia.
  - exists q. now rewrite Hq.
Qed.

(** On an axis of two or more ascending nodes no cell is without width. *)
Lemma find_index_distance (grid : list Q) (v : Q) :
  ascending grid ->
  snd (find_index grid v) =
  (v - nth (fst (find_index grid v)) grid 0) /
  (nth (S (fst (find_index grid v))) grid 0 - nth (fst (find_index grid v)) grid 0).
Proof.
  intros Hg. pose proof (ascending_cell grid v Hg) as Hcell.
  pose proof (find_index_bound grid v (proj1 Hg)) as Hb.
  cbv zeta in Hcell. unfold find_index in *. cbn [fst snd] in *.
  set (i := Nat.min (pred (searchsorted grid v)) (length grid - 2)) in *.
  rewrite !node_id by lia.
  destruct (Qeq_bool (nth (S i) grid 0 - nth i grid 0) 0) eqn:E;
    [|reflexivity].
  apply Qeq_bool_iff in E. contradiction.
Qed.

(** Linear means linear everywhere: a field that is affine in the
    coordinates is reproduced at every query point, inside the grid or
    outside of it. *)
Lemma interpolate_affine (gz gy gx : list Q) (vals : list fval)
    (c0 cz cy cx pz py px : Q) :
  well_formed (make_interpolator gz gy gx vals) ->
  samples (affine c0 cz cy cx) (make_interpolator gz gy gx vals) ->
  exists q, interpolate (make_interpolator gz gy gx vals) (pz, py, px)
            = ok (Num q) /\
            q == affine c0 cz cy cx pz py px.
Proof.
  intros (Hz & Hy & Hx & Hlen) Hs. simpl in Hz, Hy, Hx.
  rewrite interpolate_make.
  pose proof (find_index_bound gz pz (proj1 Hz)) as Bz.
  pose proof (find_index_bound gy py (proj1 Hy)) as By.
  pose proof (find_index_bound gx px (proj1 Hx)) as Bx.
  pose proof (ascending_cell gz pz Hz) as Nz.
  pose proof (ascending_cell gy py Hy) as Ny.
  pose proof (ascending_cell gx px Hx) as Nx.
  cbv zeta in Nz, Ny, Nx.
  rewrite (find_index_distance gz pz Hz), (find_index_distance gy py Hy),
          (find_index_distance gx px Hx).
  set (iz := fst (find_index gz pz)) in *.
  set (iy := fst (find_index gy py)) in *.
  set (ix := fst (find_index gx px)) in *.
  clearbody iz iy ix.
  unfold evaluate_linear, edges. simpl fold_left.
  unfold samples in Hs. simpl grid_z in Hs. simpl grid_y in Hs.
  simpl grid_x in Hs.
  rewrite !Hs by lia.
  rewrite !edge_weight_low, !edge_weight_high.
  set (z0 := nth iz gz 0) in *. set (z1 := nth (S iz) gz 0) in *.
  set (y0 := nth iy gy 0) in *. set (y1 := nth (S iy) gy 0) in *.
  set (x0 := nth ix gx 0) in *. set (x1 := nth (S ix) gx 0) in *.
  clearbody z0 z1 y0 y1 x0 x1.
  simpl. eexists. split; [reflexivity|].
  unfold affine. field. repeat split; assumption.
Qed.

Lemma meshgrid_length (zs ys xs : list Q) :
  length (meshgrid zs ys xs) = (length zs * length ys * length xs)%nat.
Proof.
  unfold meshgrid.
  assert (Hrow : forall pz : Q,
    length (flat_map (fun py : Q => map (fun px : Q => (pz, py, px)) xs) ys)
    = (length ys * length xs)%nat).
  { intros pz. induction ys as [|y0 ys' IH]; simpl; [reflexivity|].
    rewrite length_app, length_map, IH. reflexivity. }
  induction zs as [|z0 zs' IH]; simpl; [reflexivity|].
  rewrite length_app, Hrow, IH. lia.
Qed.

(** No query raises: the interpolators are built with [bounds_error=False]. *)
Lemma resample_total (gz gy gx : list Q) (field : list fval)
    (to_z to_y to_x : list Q) :
  exists out, resample gz gy gx field to_z to_y to_x = ok out /\
              length out = (length to_z * length to_y * length to_x)%nat.
Proof.
  destruct (map_result_ok
              (interpolate (make_interpolator gz gy gx field))
              (fun _ => True) (meshgrid to_z to_y to_x))
    as (out & Hout & _ & Hlen).
  - intros [[pz py] px] _. rewrite interpolate_make. eauto.
  - exists out. split; [exact Hout|]. now rewrite Hlen, meshgrid_length.
Qed.




End Interpolation.

Section InterpolationClaims.

(** A field of numbers resampled onto any grid is a field of numbers, one
    for each node of that grid, whether the node lies inside the bounds of
    the source grid or not. *)
Lemma resample_numbers (gz gy gx : list Q) (field : list fval)
    (to_z to_y to_x : list Q) :
  well_formed (make_interpolator gz gy gx field) ->
  Forall is_number field ->
  exists out, resample gz gy gx field to_z to_y to_x = ok out /\
              Forall is_number out /\
              length out = length (meshgrid to_z to_y to_x).
Proof.
  intros Hwf Hall. unfold resample. apply map_result_ok.
  intros p _. destruct (interpolate_number gz gy gx field p Hwf Hall) as [q Hq].
  exists (Num q). split; [exact Hq | now exists q].
Qed.










Lemma ascending_pair (lo hi : Q) : lo < hi -> ascending [lo; hi].
Proof.
  intros H. split; [simpl; lia|].
  intros [|i] Hi; simpl in *; [exact H | lia].
Qed.





End InterpolationClaims.

(** ** The multigrid cycle *)

Section CycleProperties.

Variable grad_J : list fval -> list fval.
Variable fmin_l_bfgs_b : list fval -> list fval -> list fval * Z.
Variable masked_entry : fval -> fval -> fval.
Variables zf yf xf : list Q.

(** The relaxation is five descent steps; the gradient it leaves is the
    one evaluated for the fifth step. *)
Lemma relax_five_steps (w g : list fval) :
  relax grad_J w g =
  (Nat.iter 5 (descent grad_J) w, grad_J (Nat.iter 4 (descent grad_J) w)).
Proof. reflexivity. Qed.

Lemma iadd_masked_isnan (arr d : list fval) :
  iadd_masked masked_entry arr (masked_where (map isnan d) (unmasked d)) =
  map2 (add_correction masked_entry) arr d.
Proof.
  unfold iadd_masked, masked_where, unmasked. simpl.
  revert arr. induction d as [|d0 d IH]; intros [|a0 arr]; simpl;
    try reflexivity.
  rewrite IH. unfold add_correction. rewrite orb_false_r. reflexivity.
Qed.

Lemma components_split (n : nat) (arr : list fval) :
  length arr = (3 * n)%nat ->
  arr = (component 0 n arr ++ component 1 n arr ++ component 2 n arr)%list /\
  length (component 0 n arr) = n /\ length (component 1 n arr) = n /\
  length (component 2 n arr) = n.
Proof.
  intros H. unfold component.
  repeat split; try (rewrite length_firstn, length_skipn; lia).
  simpl skipn at 1. rewrite Nat.mul_1_l.
  replace (2 * n)%nat with (n + n)%nat by lia.
  rewrite <- (skipn_skipn n n arr).
  rewrite <- (firstn_skipn n arr) at 1. f_equal.
  rewrite <- (firstn_skipn n (skipn n arr)) at 1. f_equal.
  symmetry. apply firstn_all2. rewrite !length_skipn. lia.
Qed.

(** What one cycle computes, stage by stage. *)
Lemma cycle_stages (w g : list fval) :
  let relaxed := Nat.iter 5 (descent grad_J) w in
  let fine_residual := grad_J (Nat.iter 4 (descent grad_J) w) in
  let nf := n_fine zf yf xf in
  let nc := n_coarse zf yf xf in
  exists uc vc wc sol warn ua va wa,
    resample zf yf xf (component 0 nf relaxed) (zc zf) (yc yf) (xc xf) = ok uc /\
    resample zf yf xf (component 1 nf relaxed) (zc zf) (yc yf) (xc xf) = ok vc /\
    resample zf yf xf (component 2 nf relaxed) (zc zf) (yc yf) (xc xf) = ok wc /\
    fmin_l_bfgs_b (uc ++ vc ++ wc) (uc ++ vc ++ wc) = (sol, warn) /\
    resample (zc zf) (yc yf) (xc xf)
      (map2 fsub (component 0 nc sol) (component 0 nc (uc ++ vc ++ wc)))
      zf yf xf = ok ua /\
    resample (zc zf) (yc yf) (xc xf)
      (map2 fsub (component 1 nc sol) (component 1 nc (uc ++ vc ++ wc)))
      zf yf xf = ok va /\
    resample (zc zf) (yc yf) (xc xf)
      (map2 fsub (component 2 nc sol) (component 2 nc (uc ++ vc ++ wc)))
      zf yf xf = ok wa /\
    length ua = nf /\ length va = nf /\ length wa = nf /\
    cycle grad_J fmin_l_bfgs_b masked_entry zf yf xf w g =
    ok ((map2 (add_correction masked_entry) (component 0 nf w) ua ++
         map2 (add_correction masked_entry) (component 1 nf w) va ++
         map2 (add_correction masked_entry) (component 2 nf w) wa)%list,
        warn, fine_residual).
Proof.
  intros relaxed fine_residual nf nc.
  unfold cycle. rewrite relax_five_steps. fold relaxed. fold fine_residual.
  fold nf. fold nc.
  destruct (resample_total zf yf xf (component 0 nf relaxed)
              (zc zf) (yc yf) (xc xf)) as (uc & Huc & _).
  destruct (resample_total zf yf xf (component 1 nf relaxed)
              (zc zf) (yc yf) (xc xf)) as (vc & Hvc & _).
  destruct (resample_total zf yf xf (component 2 nf relaxed)
              (zc zf) (yc yf) (xc xf)) as (wc & Hwc & _).
  destruct (resample_total zf yf xf (component 0 nf fine_residual)
              (zc zf) (yc yf) (xc xf)) as (ug & Hug & _).
  destruct (resample_total zf yf xf (component 1 nf fine_residual)
              (zc zf) (yc yf) (xc xf)) as (vg & Hvg & _).
  destruct (resample_total zf yf xf (component 2 nf fine_residual)
              (zc zf) (yc yf) (xc xf)) as (wg & Hwg & _).
  rewrite Huc, Hvc, Hwc, Hug, Hvg, Hwg. cbn [bind ok].
  assert (Estack : forall m1 m2 m3 m4 m5 m6 : list bool,
    stack_flatten [masked_where m1 (unmasked uc);
                   masked_where m2 (unmasked vc);
                   masked_where m3 (unmasked wc)] = (uc ++ vc ++ wc)%list /\
    stack_flatten
      [masked_where m4 (masked_where m1 (unmasked uc));
       masked_where m5 (masked_where m2 (unmasked vc));
       masked_where m6 (masked_where m3 (unmasked wc))]
    = (uc ++ vc ++ wc)%list).
  { intros. unfold stack_flatten. simpl. rewrite app_nil_r. auto. }
  destruct (Estack (map isnan uc) (map isnan vc) (map isnan wc)
                   (map isnan ug) (map isnan vg) (map isnan wg)) as [E1 E2].
  rewrite E1, E2. clear Estack E1 E2.
  destruct (fmin_l_bfgs_b (uc ++ vc ++ wc) (uc ++ vc ++ wc)) as [sol warn] eqn:Esol.
  destruct (resample_total (zc zf) (yc yf) (xc xf)
              (map2 fsub (component 0 nc sol) (component 0 nc (uc ++ vc ++ wc)))
              zf yf xf) as (ua & Hua & Lua).
  destruct (resample_total (zc zf) (yc yf) (xc xf)
              (map2 fsub (component 1 nc sol) (component 1 nc (uc ++ vc ++ wc)))
              zf yf xf) as (va & Hva & Lva).
  destruct (resample_total (zc zf) (yc yf) (xc xf)
              (map2 fsub (component 2 nc sol) (component 2 nc (uc ++ vc ++ wc)))
              zf yf xf) as (wa & Hwa & Lwa).
  rewrite Hua, Hva, Hwa. cbn [bind ok].
  rewrite !iadd_masked_isnan.
  exists uc, vc, wc, sol, warn, ua, va, wa.
  repeat split; auto.
Qed.

End CycleProperties.

Section CycleClaims.

(** C1.  The claim: a cycle relaxes the fine wind field by five
    steepest-descent steps, keeps the last gradient as the fine residual,
    and ends with the relaxed field plus the prolonged coarse correction.
    The code on the 4 x 4 x 4 grid, from a field at rest and with a unit
    gradient: the relaxed field is -5 everywhere.  With a coarse solver
    that returns its starting point the correction is 0, and the cycle
    ends with the field at rest, the entry field plus the correction, not
    the relaxed field plus the correction, which is -5 (lines 366 and
    475-477).  With a coarse solver that hands back the residual it is
    given the cycle ends with the field at rest again: the residual it was
    given is the coarse wind, -5, and not the restricted fine residual,
    which is 1 and would make the correction 6 (lines 414-416). *)
Theorem cycle_drops_relaxation :
  let relaxed := Nat.iter 5 (descent grad_ones) winds_at_rest in
  exists coarse_in sol warn correction out res,
    restricted fine_axis fine_axis fine_axis relaxed coarse_in /\
    solver_stalls coarse_in coarse_in = (sol, warn) /\
    prolonged fine_axis fine_axis fine_axis sol coarse_in correction /\
    cycle grad_ones solver_stalls keep_entry fine_axis fine_axis fine_axis
          winds_at_rest [] = ok (out, warn, res) /\
    out <> map2 (add_correction keep_entry) relaxed correction /\
    (exists q, nth_error out 0 = Some (Num q) /\ q == 0) /\
    (exists r d, nth_error relaxed 0 = Some (Num r) /\
                 nth_error correction 0 = Some (Num d) /\ r + d == - (5)) /\
    (exists out2 warn2 coarse_residual,
       cycle grad_ones solver_echo keep_entry fine_axis fine_axis fine_axis
             winds_at_rest [] = ok (out2, warn2, res) /\
       restricted fine_axis fine_axis fine_axis res coarse_residual /\
       (exists q, nth_error out2 0 = Some (Num q) /\ q == 0) /\
       (exists c r, nth_error coarse_in 0 = Some (Num c) /\
                    nth_error coarse_residual 0 = Some (Num r) /\
                    c == - (5) /\ r == 1)).
Proof.
  intros relaxed.
  destruct (cycle_stages grad_ones solver_stalls keep_entry
              fine_axis fine_axis fine_axis winds_at_rest [])
    as (uc & vc & wc & sol & warn & ua & va & wa &
        Huc & Hvc & Hwc & Hs & Hua & Hva & Hwa & _ & _ & _ & Hc).
  fold relaxed in Huc, Hvc, Hwc.
  exists (uc ++ vc ++ wc)%list, sol, warn, (ua ++ va ++ wa)%list.
  do 2 eexists.
  split; [exists uc, vc, wc; auto|]. split; [exact Hs|].
  split; [exists ua, va, wa; auto|]. split; [exact Hc|].
  vm_compute in Huc. injection Huc as <-.
  vm_compute in Hvc. injection Hvc as <-.
  vm_compute in Hwc. injection Hwc as <-.
  vm_compute in Hs. injection Hs as <- <-.
  vm_compute in Hua. injection Hua as <-.
  vm_compute in Hva. injection Hva as <-.
  vm_compute in Hwa. injection Hwa as <-.
  split; [|split; [|split]].
  - vm_compute. discriminate.
  - eexists. split; [vm_compute; reflexivity|]. vm_compute. reflexivity.
  - do 2 eexists. split; [vm_compute; reflexivity|].
    split; [vm_compute; reflexivity|]. vm_compute. reflexivity.
  - destruct (cycle_stages grad_ones solver_echo keep_entry
                fine_axis fine_axis fine_axis winds_at_rest [])
      as (uc2 & vc2 & wc2 & sol2 & warn2 & ua2 & va2 & wa2 &
          Huc2 & Hvc2 & Hwc2 & Hs2 & Hua2 & Hva2 & Hwa2 & _ & _ & _ & Hc2).
    destruct (resample_total fine_axis fine_axis fine_axis
                (component 0 (n_fine fine_axis fine_axis fine_axis)
                   (grad_ones (Nat.iter 4 (descent grad_ones) winds_at_rest)))
                (zc fine_axis) (yc fine_axis) (xc fine_axis))
      as (ug & Hug & _).
    destruct (resample_total fine_axis fine_axis fine_axis
                (component 1 (n_fine fine_axis fine_axis fine_axis)
                   (grad_ones (Nat.iter 4 (descent grad_ones) winds_at_rest)))
                (zc fine_axis) (yc fine_axis) (xc fine_axis))
      as (vg & Hvg & _).
    destruct (resample_total fine_axis fine_axis fine_axis
                (component 2 (n_fine fine_axis fine_axis fine_axis)
                   (grad_ones (Nat.iter 4 (descent grad_ones) winds_at_rest)))
                (zc fine_axis) (yc fine_axis) (xc fine_axis))
      as (wg & Hwg & _).
    eexists _, warn2, (ug ++ vg ++ wg)%list.
    split; [exact Hc2|].
    split; [exists ug, vg, wg; auto|].
    vm_compute in Hug. injection Hug as <-.
    vm_compute in Huc2. injection Huc2 as <-.
    vm_compute in Hvc2. injection Hvc2 as <-.
    vm_compute in Hwc2. injection Hwc2 as <-.
    vm_compute in Hs2. injection Hs2 as <- <-.
    vm_compute in Hua2. injection Hua2 as <-.
    vm_compute in Hva2. injection Hva2 as <-.
    vm_compute in Hwa2. injection Hwa2 as <-.
    split.
    + eexists. split; [vm_compute; reflexivity|]. vm_compute. reflexivity.
    + do 2 eexists. split; [vm_compute; reflexivity|].
      split; [vm_compute; reflexivity|]. split; vm_compute; reflexivity.
Qed.

End CycleClaims.

(** ** The outer loop *)

Section LoopClaims.

Variable grad_J : list fval -> list fval.
Variable fmin_l_bfgs_b : list fval -> list fval -> list fval * Z.
Variable masked_entry : fval -> fval -> fval.
Variables zf yf xf : list Q.

Local Abbreviation body := (loop_body grad_J fmin_l_bfgs_b masked_entry zf yf xf).
Local Abbreviation run := (cycles grad_J fmin_l_bfgs_b masked_entry zf yf xf).
Local Abbreviation while := (while_loop grad_J fmin_l_bfgs_b masked_entry zf yf xf).

(** The body always completes and adds 50 to the counter, whatever the
    solver reports. *)
Lemma loop_body_total (s : LoopState) :
  exists s', body s = ok s' /\ iterations s' = (iterations s + 50)%Z.
Proof.
  unfold loop_body.
  destruct (cycle_stages grad_J fmin_l_bfgs_b masked_entry zf yf xf
              (winds s) (fine_gradient s))
    as (uc & vc & wc & sol & warn & ua & va & wa & H).
  decompose [and] H. clear H.
  match goal with Hc : cycle _ _ _ _ _ _ _ _ = _ |- _ => rewrite Hc end.
  cbn [bind ok]. eexists. split; reflexivity.
Qed.

Lemma cycles_total (m : nat) (s : LoopState) :
  exists s', run m s = ok s' /\
             iterations s' = (iterations s + 50 * Z.of_nat m)%Z.
Proof.
  revert s. induction m as [|m IH]; intros s.
  - exists s. split; [reflexivity | simpl; lia].
  - destruct (loop_body_total s) as (s1 & H1 & I1).
    destruct (IH s1) as (s2 & H2 & I2).
    exists s2. cbn [cycles]. rewrite H1. cbn [bind]. split; [exact H2 | lia].
Qed.

(** The loop is the body run as often as the counter stays below the
    budget. *)
Lemma while_loop_cycles (a : Args) (m : nat) :
  forall (fuel : nat) (s : LoopState),
    (m <= fuel)%nat ->
    (iterations s + 50 * Z.of_nat m >= max_iterations a)%Z ->
    (forall k, (k < m)%nat ->
       (iterations s + 50 * Z.of_nat k < max_iterations a)%Z) ->
    while fuel a s = Some (run m s).
Proof.
  induction m as [|m IH]; intros fuel s Hfuel Hend Hgo.
  - assert (E : (iterations s <? max_iterations a)%Z = false)
      by (apply Z.ltb_ge; simpl in Hend; lia).
    destruct fuel; simpl; rewrite E; reflexivity.
  - assert (E : (iterations s <? max_iterations a)%Z = true).
    { apply Z.ltb_lt. specialize (Hgo 0%nat). simpl in Hgo. lia. }
    destruct fuel as [|fuel]; [lia|].
    cbn [while_loop cycles]. rewrite E.
    destruct (loop_body_total s) as (s1 & H1 & I1).
    rewrite H1. cbn [bind]. apply IH.
    + lia.
    + lia.
    + intros k Hk. specialize (Hgo (S k)). lia.
Qed.

Lemma ceil_div_50 (b : Z) :
  (0 < b)%Z ->
  (50 * (ceil_div b 50 - 1) < b <= 50 * ceil_div b 50)%Z /\
  (0 < ceil_div b 50)%Z.
Proof.
  intros Hb. unfold ceil_div.
  pose proof (Z.div_mod (b + 50 - 1) 50 ltac:(lia)) as Hdm.
  pose proof (Z.mod_pos_bound (b + 50 - 1) 50 ltac:(lia)) as Hmod.
  lia.
Qed.

(** C8.  With [max_iterations > 0] the counter starts at 0 and grows by
    50 in each cycle, the loop runs [ceil(max_iterations / 50)] cycles and
    then ends (enough fuel gives the final state), and it does not end
    sooner: after fewer cycles the counter is still below the budget.
    Nothing of this depends on the solver or on its warning flag. *)
Theorem loop_runs_ceil_cycles (a : Args) (w0 : list fval) :
  (0 < max_iterations a)%Z ->
  let n := Z.to_nat (ceil_div (max_iterations a) 50) in
  exists final,
    run n (initial_state w0) = ok final /\
    iterations final = (50 * Z.of_nat n)%Z /\
    (forall fuel, (n <= fuel)%nat ->
       while fuel a (initial_state w0) = Some (ok final)) /\
    (forall m s, run m (initial_state w0) = ok s ->
       iterations s = (50 * Z.of_nat m)%Z /\
       ((m < n)%nat -> (iterations s < max_iterations a)%Z)) /\
    (50 * (Z.of_nat n - 1) < max_iterations a <= 50 * Z.of_nat n)%Z.
Proof.
  intros Hmax n.
  destruct (ceil_div_50 (max_iterations a) Hmax) as [Hceil Hpos].
  assert (Hn : Z.of_nat n = ceil_div (max_iterations a) 50)
    by (unfold n; rewrite Z2Nat.id; lia).
  clearbody n.
  destruct (cycles_total n (initial_state w0)) as (final & Hrun & Hit).
  cbn [iterations initial_state] in Hit.
  exists final. split; [exact Hrun|]. split; [lia|]. split; [|split].
  - intros fuel Hfuel. rewrite <- Hrun.
    apply while_loop_cycles; cbn [iterations initial_state];
      [exact Hfuel | lia |].
    intros k Hk. lia.
  - intros m s Hs.
    destruct (cycles_total m (initial_state w0)) as (s' & Hs' & Hi).
    rewrite Hs in Hs'. injection Hs' as <-.
    cbn [iterations initial_state] in Hi.
    split; [lia|]. intros Hm. lia.
  - lia.
Qed.

End LoopClaims.

Lemma loop_runs_ceil_cycles_witness :
  exists final,
    cycles grad_ones solver_stalls keep_entry fine_axis fine_axis fine_axis
           26 (initial_state winds_at_rest) = ok final /\
    iterations final = 1300%Z /\
    (forall fuel, (26 <= fuel)%nat ->
       while_loop grad_ones solver_stalls keep_entry fine_axis fine_axis
                  fine_axis fuel args_defaults (initial_state winds_at_rest)
       = Some (ok final)).
Proof.
  destruct (loop_runs_ceil_cycles grad_ones solver_stalls keep_entry
              fine_axis fine_axis fine_axis args_defaults winds_at_rest)
    as (final & Hrun & Hit & Hwhile & _).
  - reflexivity.
  - exists final. split; [exact Hrun|]. split; [exact Hit|]. exact Hwhile.
Defined.

(** ** The coarse adapters *)

Section AdapterClaims.

Variable J_function : list rval -> rval.
Variable grad_J : list rval -> list rval.

Lemma select_finite (cost : rval) (winds residual : list rval) :
  length winds = length residual ->
  map (fun r => rsub cost (rmul scale_residual r))
      (select residual (map2 andb (map isfinite winds) (map isfinite residual)))
  = flat_map
      (fun wr : rval * rval =>
         if isfinite (fst wr) && isfinite (snd wr)
         then [rsub cost (rmul scale_residual (snd wr))] else [])
      (combine winds residual).
Proof.
  revert residual. induction winds as [|w winds IH]; intros [|r residual] H;
    simpl in *; try discriminate; [reflexivity|].
  destruct (isfinite w && isfinite r); simpl; rewrite IH by lia; reflexivity.
Qed.

Lemma finites_ok (winds residual : list rval) :
  length winds = length residual ->
  elementwise andb (map isfinite winds) (map isfinite residual) =
  ok (map2 andb (map isfinite winds) (map isfinite residual)).
Proof.
  intros H. unfold elementwise.
  rewrite !length_map, H, Nat.eqb_refl. reflexivity.
Qed.

Lemma J_coarse_norm (winds residual : list rval) :
  length winds = length residual ->
  _J_coarse J_function winds residual =
  ok (norm_over_finite (J_function winds) winds residual).
Proof.
  intros H. unfold _J_coarse. rewrite (finites_ok _ _ H). cbn [bind ok].
  unfold boolean_index.
  rewrite length_map2 by (rewrite !length_map; exact H).
  rewrite length_map, H, Nat.eqb_refl. cbn [bind ok].
  unfold norm_over_finite. now rewrite select_finite.
Qed.

Lemma sum_repeat (v a : R) (n : nat) :
  fold_left radd (repeat (Finite v) n) (Finite a) = Finite (a + INR n * v).
Proof.
  revert a. induction n as [|n IH]; intros a.
  - simpl. f_equal. ring.
  - cbn [repeat fold_left radd]. rewrite IH. f_equal.
    rewrite S_INR. ring.
Qed.

Lemma select_all_true {A} (arr : list A) (n : nat) :
  length arr = n -> select arr (repeat true n) = arr.
Proof.
  revert n. induction arr as [|e arr IH]; intros [|n] H; simpl in *;
    try discriminate; [reflexivity|].
  f_equal. apply IH. lia.
Qed.

(** At [winds = 0, residual = 0] every entry of the vector under the norm
    is the cost itself. *)
Lemma J_coarse_at_zero (n : nat) (c : R) :
  J_function (repeat (Finite 0) n) = Finite c ->
  _J_coarse J_function (repeat (Finite 0) n) (repeat (Finite 0) n) =
  ok (Finite (sqrt (INR n) * Rabs c)).
Proof.
  intros Hc. rewrite J_coarse_norm by reflexivity.
  unfold norm_over_finite. rewrite <- select_finite by reflexivity.
  rewrite Hc, !map_repeat, map2_repeat. cbn [isfinite andb].
  rewrite select_all_true by apply repeat_length.
  rewrite map_repeat. unfold norm. rewrite map_repeat.
  cbn [rsub rmul scale_residual]. rewrite sum_repeat.
  unfold rsqrt.
  set (v := (c - 1 / 1000 * 0)%R).
  assert (Hv : v = c) by (unfold v; lra).
  assert (Hsq : (0 <= v * v)%R) by nra.
  assert (Hn : (0 <= INR n)%R) by apply pos_INR.
  destruct (Rlt_dec (0 + INR n * (v * v)) 0) as [Hneg|_]; [nra|].
  do 2 f_equal.
  rewrite Rplus_0_l, sqrt_mult by assumption.
  f_equal. rewrite Hv. fold (Rsqr c). apply sqrt_Rsqr_abs.
Qed.

(** C2, amended.  For winds and residual of one shape the cost adapter
    returns the Euclidean norm of [J_coarse(winds) - 0.001 * residual] over
    the entries where both are finite, and the gradient adapter returns
    [grad J_coarse(winds) - 0.001 * residual] entry by entry with no
    restriction.  At [winds = 0, residual = 0] with [n] entries the cost
    adapter returns [sqrt(n) * |J_coarse(0)|], which is 0 exactly when
    [J_coarse(0) = 0] or there is no entry. *)
Theorem coarse_adapters (winds residual : list rval) (n : nat) (c : R) :
  length winds = length residual ->
  length (grad_J winds) = length winds ->
  J_function (repeat (Finite 0) n) = Finite c ->
  _J_coarse J_function winds residual =
    ok (norm_over_finite (J_function winds) winds residual) /\
  (exists g, _grad_coarse grad_J winds residual = ok g /\
     length g = length winds /\
     forall i gi ri, nth_error (grad_J winds) i = Some gi ->
       nth_error residual i = Some ri ->
       nth_error g i = Some (rsub gi (rmul scale_residual ri))) /\
  _J_coarse J_function (repeat (Finite 0) n) (repeat (Finite 0) n) =
    ok (Finite (sqrt (INR n) * Rabs c)) /\
  ((sqrt (INR n) * Rabs c = 0)%R <-> n = 0%nat \/ c = 0%R).
Proof.
  intros Hlen Hgrad Hc. split; [now apply J_coarse_norm|]. split; [|split].
  - unfold _grad_coarse. rewrite (finites_ok _ _ Hlen). cbn [bind ok].
    unfold elementwise. rewrite Hgrad, Hlen, Nat.eqb_refl.
    eexists. split; [reflexivity|]. split.
    + rewrite length_map2 by congruence. congruence.
    + intros i gi ri Hg Hr.
      exact (nth_error_map2 (fun g r => rsub g (rmul scale_residual r))
               _ _ i gi ri Hg Hr).
  - now apply J_coarse_at_zero.
  - split.
    + intros H. apply Rmult_integral in H. destruct H as [H|H].
      * left. apply sqrt_eq_0 in H; [|apply pos_INR].
        now apply INR_eq.
      * right. destruct (Req_dec c 0) as [E|E]; [exact E|].
        exfalso. apply (Rabs_no_R0 c E H).
    + intros [-> | ->].
      * simpl. rewrite sqrt_0. ring.
      * rewrite Rabs_R0. ring.
Qed.

End AdapterClaims.

Lemma cost_misfit_at_rest (n : nat) :
  cost_misfit (repeat (Finite 0) n) = Finite (INR n).
Proof.
  unfold cost_misfit. rewrite map_repeat. cbn [rsub rmul].
  rewrite sum_repeat. f_equal. ring.
Qed.

Lemma coarse_adapters_witness :
  _J_coarse cost_misfit [Finite 0; NotFinite] [Finite 2; Finite 3] =
    ok (norm_over_finite (cost_misfit [Finite 0; NotFinite])
          [Finite 0; NotFinite] [Finite 2; Finite 3]) /\
  _J_coarse cost_misfit (repeat (Finite 0) 4) (repeat (Finite 0) 4) =
    ok (Finite (sqrt (INR 4) * Rabs (INR 4))).
Proof.
  destruct (coarse_adapters cost_misfit grad_misfit
              [Finite 0; NotFinite] [Finite 2; Finite 3] 4 (INR 4))
    as (H1 & _ & H3 & _); try reflexivity.
  - apply cost_misfit_at_rest.
  - split; [exact H1 | exact H3].
Defined.

(** C2 as stated fails in its last part: with the squared misfit to a unit
    observation as the cost, which is 1 at [winds = 0] on one entry, the
    adapter evaluated at [winds = 0, residual = 0] returns 1. *)
Lemma J_coarse_at_zero_not_zero :
  _J_coarse cost_misfit [Finite 0] [Finite 0] = ok (Finite 1) /\
  _J_coarse cost_misfit [Finite 0] [Finite 0] <> ok (Finite 0).
Proof.
  assert (E : _J_coarse cost_misfit [Finite 0] [Finite 0] = ok (Finite 1)).
  { change [Finite 0%R] with (repeat (Finite 0%R) 1).
    rewrite (J_coarse_at_zero cost_misfit 1 1 (cost_misfit_at_rest 1)).
    do 2 f_equal. simpl. rewrite sqrt_1, Rabs_R1. ring. }
  split; [exact E|]. rewrite E. intros H. injection H as H. lra.
Qed.

(* ------------------------------------------------------------------ *)
(** ** Lines 153-162: the coarse axes *)

Section CoarseAxes.

Lemma list_pair_ind {A} (P : list A -> Prop) :
  P [] -> (forall a, P [a]) -> (forall a b l, P l -> P (a :: b :: l)) ->
  forall l, P l.
Proof.
  intros H0 H1 H2.
  assert (H : forall l, P l /\ forall a, P (a :: l)).
  { induction l as [|b l [IH1 IH2]]; split; auto. }
  intros l. apply H.
Qed.

Lemma every_other_nth {A} (l : list A) (i : nat) :
  nth_error (every_other l) i = nth_error l (2 * i).
Proof.
  revert i. induction l as [| a | a b l IH] using list_pair_ind; intros i.
  - destruct i; reflexivity.
  - destruct i as [|i]; [reflexivity|].
    transitivity (@None A); [|symmetry]; apply nth_error_None; simpl; lia.
  - destruct i as [|i]; [reflexivity|].
    change (every_other (a :: b :: l)) with (a :: every_other l).
    simpl nth_error at 1. rewrite IH.
    replace (2 * S i)%nat with (S (S (2 * i))) by lia. reflexivity.
Qed.

Lemma every_other_length {A} (l : list A) :
  length (every_other l) = Nat.div2 (S (length l)).
Proof.
  induction l as [| a | a b l IH] using list_pair_ind; try reflexivity.
  change (every_other (a :: b :: l)) with (a :: every_other l).
  simpl length. rewrite IH. reflexivity.
Qed.

Lemma removelast_nth {A} (l : list A) (i : nat) :
  (S i < length l)%nat -> nth_error (removelast l) i = nth_error l i.
Proof.
  revert i. induction l as [|a l IH]; intros i H; [simpl in H; lia|].
  destruct l as [|b l]; [simpl in H; lia|].
  destruct i as [|i]; [reflexivity|].
  change (removelast (a :: b :: l)) with (a :: removelast (b :: l)).
  simpl nth_error. apply IH. simpl in *. lia.
Qed.

Lemma removelast_length {A} (l : list A) :
  length (removelast l) = pred (length l).
Proof.
  induction l as [|a l IH]; [reflexivity|].
  destruct l as [|b l]; [reflexivity|].
  change (removelast (a :: b :: l)) with (a :: removelast (b :: l)).
  simpl length in *. rewrite IH. reflexivity.
Qed.

Lemma tl_nth {A} (l : list A) (i : nat) :
  nth_error (tl l) i = nth_error l (S i).
Proof. destruct l; [now destruct i | reflexivity]. Qed.

Lemma div2_lt (i n : nat) : (i < Nat.div2 n)%nat <-> (2 * i + 1 < n)%nat.
Proof.
  pose proof (Nat.div2_odd n) as H.
  destruct (Nat.odd n); simpl Nat.b2n in H; lia.
Qed.

Lemma last_nth_pred {A} (l : list A) (d : A) :
  last l d = nth (pred (length l)) l d.
Proof.
  induction l as [|a l IH]; [reflexivity|].
  destruct l as [|b l]; [reflexivity|].
  change (last (a :: b :: l) d) with (last (b :: l) d). rewrite IH.
  reflexivity.
Qed.

Lemma coarsen_axis_length (f : list Q) :
  length (coarsen_axis f) = Nat.div2 (length f).
Proof.
  unfold coarsen_axis. rewrite length_map2.
  - rewrite every_other_length, removelast_length.
    destruct f as [|a f]; reflexivity.
  - rewrite !every_other_length, removelast_length.
    destruct f as [|a f]; reflexivity.
Qed.

Lemma coarsen_axis_nth_error (f : list Q) (i : nat) :
  (2 * i + 1 < length f)%nat ->
  nth_error (coarsen_axis f) i =
  Some ((nth (2 * i) f 0 + nth (2 * i + 1) f 0) / 2).
Proof.
  intros Hi. unfold coarsen_axis.
  apply (nth_error_map2 (fun p q => (p + q) / 2)).
  - rewrite every_other_nth, removelast_nth by lia.
    apply nth_error_nth'. lia.
  - rewrite every_other_nth, tl_nth.
    replace (S (2 * i)) with (2 * i + 1)%nat by lia.
    apply nth_error_nth'. lia.
Qed.

Lemma coarsen_axis_nth (f : list Q) (i : nat) :
  (2 * i + 1 < length f)%nat ->
  nth i (coarsen_axis f) 0 = (nth (2 * i) f 0 + nth (2 * i + 1) f 0) / 2.
Proof.
  intros Hi. apply nth_error_nth. now apply coarsen_axis_nth_error.
Qed.

Lemma ascending_le (f : list Q) (i j : nat) :
  ascending f -> (i <= j)%nat -> (j < length f)%nat ->
  nth i f 0 <= nth j f 0.
Proof.
  intros [_ Hasc] Hij. induction Hij as [|j Hij IH]; intros Hj.
  - apply Qle_refl.
  - apply Qle_trans with (nth j f 0); [apply IH; lia|].
    apply Qlt_le_weak, Hasc. exact Hj.
Qed.

Lemma ascending_lt (f : list Q) (i j : nat) :
  ascending f -> (i < j)%nat -> (j < length f)%nat ->
  nth i f 0 < nth j f 0.
Proof.
  intros Hf Hij Hj. destruct j as [|j]; [lia|].
  apply Qle_lt_trans with (nth j f 0).
  - apply ascending_le; [exact Hf | lia | lia].
  - apply (proj2 Hf). exact Hj.
Qed.

Lemma coarsen_axis_between (f : list Q) (i : nat) :
  ascending f -> (2 * i + 1 < length f)%nat ->
  nth (2 * i) f 0 < nth i (coarsen_axis f) 0 /\
  nth i (coarsen_axis f) 0 < nth (2 * i + 1) f 0.
Proof.
  intros Hf Hi. rewrite coarsen_axis_nth by exact Hi.
  assert (H : nth (2 * i) f 0 < nth (2 * i + 1) f 0)
    by (apply ascending_lt; [exact Hf | lia | lia]).
  set (p := nth (2 * i) f 0) in *. set (q := nth (2 * i + 1) f 0) in *.
  clearbody p q. split.
  - apply Qlt_shift_div_l; lra.
  - apply Qlt_shift_div_r; lra.
Qed.

Lemma coarsen_axis_ascending (f : list Q) :
  ascending f -> (4 <= length f)%nat -> ascending (coarsen_axis f).
Proof.
  intros Hf H4. split.
  - rewrite coarsen_axis_length.
    assert (H : (1 < Nat.div2 (length f))%nat) by (apply div2_lt; lia).
    lia.
  - intros i Hi. rewrite coarsen_axis_length in Hi.
    apply div2_lt in Hi.
    destruct (coarsen_axis_between f i Hf) as [_ Hhi]; [lia|].
    destruct (coarsen_axis_between f (S i) Hf) as [Hlo _]; [lia|].
    apply Qlt_le_trans with (nth (2 * i + 1) f 0); [exact Hhi|].
    apply Qle_trans with (nth (2 * S i) f 0); [|apply Qlt_le_weak, Hlo].
    apply ascending_le; [exact Hf | lia | lia].
Qed.

Lemma out_of_bounds_false (grid : list Q) (v : Q) :
  out_of_bounds grid v = false <-> nth 0 grid 0 <= v /\ v <= last grid 0.
Proof.
  unfold out_of_bounds. rewrite orb_false_iff, !negb_false_iff, !Qle_bool_iff.
  reflexivity.
Qed.

Lemma out_of_bounds_true (grid : list Q) (v : Q) :
  out_of_bounds grid v = true <-> v < nth 0 grid 0 \/ last grid 0 < v.
Proof.
  unfold out_of_bounds. rewrite orb_true_iff, !negb_true_iff.
  split; intros [H | H]; [left | right | left | right].
  - apply Qnot_le_lt. intros C. apply Qle_bool_iff in C. congruence.
  - apply Qnot_le_lt. intros C. apply Qle_bool_iff in C. congruence.
  - destruct (Qle_bool (nth 0 grid 0) v) eqn:E; [|reflexivity].
    apply Qle_bool_iff in E. lra.
  - destruct (Qle_bool v (last grid 0)) eqn:E; [|reflexivity].
    apply Qle_bool_iff in E. lra.
Qed.

Lemma coarsen_axis_inside (f : list Q) (c : Q) :
  ascending f -> In c (coarsen_axis f) -> out_of_bounds f c = false.
Proof.
  intros Hf Hc. apply In_nth_error in Hc as [i Hi].
  assert (Hlen : (i < length (coarsen_axis f))%nat)
    by (apply nth_error_Some; congruence).
  rewrite coarsen_axis_length in Hlen. apply div2_lt in Hlen.
  assert (Ec : c = nth i (coarsen_axis f) 0)
    by (symmetry; now apply nth_error_nth).
  destruct (coarsen_axis_between f i Hf Hlen) as [Hlo Hhi].
  rewrite <- Ec in Hlo, Hhi.
  apply out_of_bounds_false. split.
  - apply Qle_trans with (nth (2 * i) f 0); [|now apply Qlt_le_weak].
    apply ascending_le; [exact Hf | lia | lia].
  - apply Qle_trans with (nth (2 * i + 1) f 0); [now apply Qlt_le_weak|].
    rewrite last_nth_pred. apply ascending_le; [exact Hf | lia | lia].
Qed.

Lemma in_meshgrid (zs ys xs : list Q) (pz py px : Q) :
  In (pz, py, px) (meshgrid zs ys xs) <-> In pz zs /\ In py ys /\ In px xs.
Proof.
  unfold meshgrid. rewrite in_flat_map. split.
  - intros (z0 & Hz & H). apply in_flat_map in H as (y0 & Hy & H).
    apply in_map_iff in H as (x0 & E & Hx). injection E as -> -> ->. auto.
  - intros (Hz & Hy & Hx). exists pz. split; [exact Hz|].
    apply in_flat_map. exists py. split; [exact Hy|].
    apply in_map_iff. exists px. auto.
Qed.

(** X1.  Lines 157-162: a coarse axis has one node for every full pair of
    fine nodes, the midpoint of the pair; a last fine node without a
    partner is dropped. *)
Theorem coarsen_axis_midpoints (f : list Q) :
  length (coarsen_axis f) = Nat.div2 (length f) /\
  forall i, (2 * i + 1 < length f)%nat ->
    nth_error (coarsen_axis f) i =
    Some ((nth (2 * i) f 0 + nth (2 * i + 1) f 0) / 2).
Proof.
  split; [apply coarsen_axis_length | apply coarsen_axis_nth_error].
Qed.

Lemma coarse_mesh_inside (zf yf xf : list Q) (vals : list fval)
    (p : Q * Q * Q) :
  ascending zf -> ascending yf -> ascending xf ->
  In p (meshgrid (zc zf) (yc yf) (xc xf)) ->
  ~ outside (make_interpolator zf yf xf vals) p.
Proof.
  intros Hz Hy Hx Hp. destruct p as [[pz py] px].
  apply in_meshgrid in Hp as (Iz & Iy & Ix).
  unfold outside. simpl.
  rewrite (coarsen_axis_inside zf pz Hz Iz), (coarsen_axis_inside yf py Hy Iy),
          (coarsen_axis_inside xf px Hx Ix).
  intros [H | [H | H]]; discriminate.
Qed.

(** X2.  Lines 157-165 and 177-196: on ascending fine axes every node of
    the coarse mesh lies within the bounds of the fine grid, so the
    restriction never extrapolates. *)
Theorem restriction_in_bounds (zf yf xf : list Q) (vals : list fval)
    (p : Q * Q * Q) :
  ascending zf -> ascending yf -> ascending xf ->
  In p (meshgrid (zc zf) (yc yf) (xc xf)) ->
  ~ outside (make_interpolator zf yf xf vals) p.
Proof.
  intros Hz Hy Hx Hp. now apply coarse_mesh_inside.
Qed.

(** X3.  Lines 461-469: the first and the last node of an ascending fine
    axis lie outside the coarse axis, so the prolongation extrapolates at
    every boundary node of the fine grid. *)
Theorem prolongation_boundary_outside (f : list Q) :
  ascending f ->
  out_of_bounds (coarsen_axis f) (nth 0 f 0) = true /\
  out_of_bounds (coarsen_axis f) (last f 0) = true.
Proof.
  intros Hf. pose proof (proj1 Hf) as H2.
  assert (Hc : (0 < Nat.div2 (length f))%nat) by (apply div2_lt; lia).
  split; apply out_of_bounds_true.
  - left. destruct (coarsen_axis_between f 0 Hf) as [Hlo _]; [lia|].
    exact Hlo.
  - right. rewrite (last_nth_pred (coarsen_axis f)), coarsen_axis_length.
    set (i := pred (Nat.div2 (length f))).
    assert (Hi : (2 * i + 1 < length f)%nat) by (apply div2_lt; lia).
    destruct (coarsen_axis_between f i Hf Hi) as [_ Hhi].
    apply Qlt_le_trans with (nth (2 * i + 1) f 0); [exact Hhi|].
    rewrite last_nth_pred. apply ascending_le; [exact Hf | lia | lia].
Qed.

End CoarseAxes.

Lemma fine_axis_ascending : ascending fine_axis.
Proof.
  split; [simpl; lia|]. intros i Hi. simpl in Hi.
  destruct i as [|[|[|i]]]; simpl; try lra; lia.
Qed.

Lemma coarsen_axis_midpoints_witness :
  nth_error (coarsen_axis fine_axis) 1 =
  Some ((nth 2 fine_axis 0 + nth 3 fine_axis 0) / 2).
Proof.
  apply (proj2 (coarsen_axis_midpoints fine_axis) 1%nat). simpl. lia.
Defined.

Lemma restriction_in_bounds_witness :
  ~ outside (make_interpolator fine_axis fine_axis fine_axis [])
            (1 # 2, 5 # 2, 1 # 2).
Proof.
  apply (restriction_in_bounds fine_axis fine_axis fine_axis []
           (1 # 2, 5 # 2, 1 # 2));
    try apply fine_axis_ascending.
  vm_compute. tauto.
Defined.

Lemma prolongation_boundary_outside_witness :
  out_of_bounds (coarsen_axis fine_axis) (nth 0 fine_axis 0) = true /\
  out_of_bounds (coarsen_axis fine_axis) (last fine_axis 0) = true.
Proof.
  apply (prolongation_boundary_outside fine_axis). apply fine_axis_ascending.
Defined.

(* ------------------------------------------------------------------ *)
(** ** Lines 177-196 and 266-283: restricted fields stay within bounds *)

Section Convexity.

Lemma searchsorted_before (grid : list Q) (v : Q) (j : nat) :
  (j < searchsorted grid v)%nat -> nth j grid 0 < v.
Proof.
  revert j. induction grid as [|g grid IH]; intros j Hj; simpl in *; [lia|].
  destruct (Qle_bool v g) eqn:E; [lia|].
  destruct j as [|j].
  - apply Qnot_le_lt. intros C. apply Qle_bool_iff in C. congruence.
  - apply IH. lia.
Qed.

Lemma searchsorted_at (grid : list Q) (v : Q) :
  (searchsorted grid v < length grid)%nat ->
  v <= nth (searchsorted grid v) grid 0.
Proof.
  induction grid as [|g grid IH]; intros H; simpl in *; [lia|].
  destruct (Qle_bool v g) eqn:E.
  - now apply Qle_bool_iff.
  - apply IH. lia.
Qed.

Lemma searchsorted_le (grid : list Q) (v : Q) :
  (searchsorted grid v <= length grid)%nat.
Proof.
  induction grid as [|g grid IH]; simpl; [lia|].
  destruct (Qle_bool v g); lia.
Qed.

Lemma unit_quotient (n d : Q) : 0 < d -> 0 <= n -> n <= d -> 0 <= n / d /\ n / d <= 1.
Proof.
  intros Hd H0 H1. split.
  - apply Qle_shift_div_l; [exact Hd | lra].
  - apply Qle_shift_div_r; [exact Hd | lra].
Qed.

(** Inside the bounds the distance to the lower edge of the cell is a
    fraction of the cell. *)
Lemma find_index_unit (grid : list Q) (v : Q) :
  ascending grid -> out_of_bounds grid v = false ->
  0 <= snd (find_index grid v) /\ snd (find_index grid v) <= 1.
Proof.
  intros Hg Hb. apply out_of_bounds_false in Hb as [Hlo Hhi].
  pose proof (proj1 Hg) as H2.
  rewrite (find_index_distance grid v Hg).
  pose proof (proj2 Hg _ (find_index_bound grid v H2)) as Hcell.
  unfold find_index in *. cbn [fst] in *.
  pose proof (searchsorted_le grid v) as Hle.
  pose proof (searchsorted_before grid v) as Hbefore.
  pose proof (searchsorted_at grid v) as Hat.
  set (s := searchsorted grid v) in *. clearbody s.
  rewrite last_nth_pred in Hhi.
  destruct s as [|s].
  - cbn [pred Nat.min] in *.
    assert (Hv : v <= nth 0 grid 0) by (apply Hat; lia).
    apply unit_quotient; lra.
  - cbn [pred] in *.
    destruct (Nat.le_gt_cases s (length grid - 2)) as [Hs | Hs].
    + rewrite Nat.min_l in * by exact Hs.
      assert (Hv0 : nth s grid 0 < v) by (apply Hbefore; lia).
      assert (Hv1 : v <= nth (S s) grid 0) by (apply Hat; lia).
      apply unit_quotient; lra.
    + exfalso.
      assert (Hv0 : nth (pred (length grid)) grid 0 < v)
        by (apply Hbefore; lia).
      lra.
Qed.

Lemma value_at_Forall (P : fval -> Prop) (I : RegularGridInterpolator)
    (a b c : nat) :
  length (values I) =
    (length (grid_z I) * length (grid_y I) * length (grid_x I))%nat ->
  Forall P (values I) ->
  (a < length (grid_z I))%nat -> (b < length (grid_y I))%nat ->
  (c < length (grid_x I))%nat ->
  P (value_at I a b c).
Proof.
  intros Hlen Hall Ha Hb Hc. unfold value_at.
  rewrite !node_id by assumption.
  rewrite Forall_forall in Hall. apply Hall. apply nth_In. rewrite Hlen.
  apply flat_index_lt; [|assumption]. now apply flat_index_lt.
Qed.

(** A weighted mean of the eight corners: the weights are not negative
    and add up to one. *)
Lemma evaluate_linear_within (I : RegularGridInterpolator)
    (iz iy ix : nat) (dz dy dx lo hi : Q) :
  (forall a b c, (a = iz \/ a = S iz) -> (b = iy \/ b = S iy) ->
                 (c = ix \/ c = S ix) -> within lo hi (value_at I a b c)) ->
  0 <= dz /\ dz <= 1 -> 0 <= dy /\ dy <= 1 -> 0 <= dx /\ dx <= 1 ->
  within lo hi (evaluate_linear I iz iy ix dz dy dx).
Proof.
  intros H [Hz0 Hz1] [Hy0 Hy1] [Hx0 Hx1]. unfold evaluate_linear, edges.
  simpl fold_left.
  destruct (H iz iy ix) as (v1 & -> & L1 & U1); auto.
  destruct (H iz iy (S ix)) as (v2 & -> & L2 & U2); auto.
  destruct (H iz (S iy) ix) as (v3 & -> & L3 & U3); auto.
  destruct (H iz (S iy) (S ix)) as (v4 & -> & L4 & U4); auto.
  destruct (H (S iz) iy ix) as (v5 & -> & L5 & U5); auto.
  destruct (H (S iz) iy (S ix)) as (v6 & -> & L6 & U6); auto.
  destruct (H (S iz) (S iy) ix) as (v7 & -> & L7 & U7); auto.
  destruct (H (S iz) (S iy) (S ix)) as (v8 & -> & L8 & U8); auto.
  rewrite !edge_weight_low, !edge_weight_high.
  simpl. eexists. split; [reflexivity|].
  assert (Hnn : forall p q r, 0 <= p -> 0 <= q -> 0 <= r -> 0 <= 1 * p * q * r).
  { intros p q r Hp Hq Hr.
    repeat apply Qmult_le_0_compat; try assumption. lra. }
  assert (Hsum :
    1 * (1 - dz) * (1 - dy) * (1 - dx) + 1 * (1 - dz) * (1 - dy) * dx +
    1 * (1 - dz) * dy * (1 - dx) + 1 * (1 - dz) * dy * dx +
    1 * dz * (1 - dy) * (1 - dx) + 1 * dz * (1 - dy) * dx +
    1 * dz * dy * (1 - dx) + 1 * dz * dy * dx == 1) by ring.
  assert (T1 := Hnn (1 - dz) (1 - dy) (1 - dx)).
  assert (T2 := Hnn (1 - dz) (1 - dy) dx).
  assert (T3 := Hnn (1 - dz) dy (1 - dx)).
  assert (T4 := Hnn (1 - dz) dy dx).
  assert (T5 := Hnn dz (1 - dy) (1 - dx)).
  assert (T6 := Hnn dz (1 - dy) dx).
  assert (T7 := Hnn dz dy (1 - dx)).
  assert (T8 := Hnn dz dy dx).
  set (t1 := 1 * (1 - dz) * (1 - dy) * (1 - dx)) in *.
  set (t2 := 1 * (1 - dz) * (1 - dy) * dx) in *.
  set (t3 := 1 * (1 - dz) * dy * (1 - dx)) in *.
  set (t4 := 1 * (1 - dz) * dy * dx) in *.
  set (t5 := 1 * dz * (1 - dy) * (1 - dx)) in *.
  set (t6 := 1 * dz * (1 - dy) * dx) in *.
  set (t7 := 1 * dz * dy * (1 - dx)) in *.
  set (t8 := 1 * dz * dy * dx) in *.
  clearbody t1 t2 t3 t4 t5 t6 t7 t8. clear Hnn.
  assert (P1 : 0 <= t1) by (apply T1; lra).
  assert (P2 : 0 <= t2) by (apply T2; lra).
  assert (P3 : 0 <= t3) by (apply T3; lra).
  assert (P4 : 0 <= t4) by (apply T4; lra).
  assert (P5 : 0 <= t5) by (apply T5; lra).
  assert (P6 : 0 <= t6) by (apply T6; lra).
  assert (P7 : 0 <= t7) by (apply T7; lra).
  assert (P8 : 0 <= t8) by (apply T8; lra).
  clear T1 T2 T3 T4 T5 T6 T7 T8.
  assert (A : forall t v, 0 <= t -> lo <= v -> v <= hi ->
                          t * lo <= v * t /\ v * t <= t * hi).
  { intros t v Ht Hl Hu. split.
    - assert (E : 0 <= t * (v - lo))
        by (apply Qmult_le_0_compat; lra).
      lra.
    - assert (E : 0 <= t * (hi - v))
        by (apply Qmult_le_0_compat; lra).
      lra. }
  destruct (A t1 v1 P1 L1 U1), (A t2 v2 P2 L2 U2), (A t3 v3 P3 L3 U3),
           (A t4 v4 P4 L4 U4), (A t5 v5 P5 L5 U5), (A t6 v6 P6 L6 U6),
           (A t7 v7 P7 L7 U7), (A t8 v8 P8 L8 U8).
  clear A.
  assert (El : lo == t1 * lo + t2 * lo + t3 * lo + t4 * lo + t5 * lo +
                     t6 * lo + t7 * lo + t8 * lo).
  { transitivity ((t1 + t2 + t3 + t4 + t5 + t6 + t7 + t8) * lo); [|ring].
    rewrite Hsum. ring. }
  assert (Eh : hi == t1 * hi + t2 * hi + t3 * hi + t4 * hi + t5 * hi +
                     t6 * hi + t7 * hi + t8 * hi).
  { transitivity ((t1 + t2 + t3 + t4 + t5 + t6 + t7 + t8) * hi); [|ring].
    rewrite Hsum. ring. }
  split; lra.
Qed.

Lemma interpolate_within (gz gy gx : list Q) (vals : list fval)
    (p : Q * Q * Q) (lo hi : Q) :
  well_formed (make_interpolator gz gy gx vals) ->
  Forall (within lo hi) vals ->
  ~ outside (make_interpolator gz gy gx vals) p ->
  exists b, interpolate (make_interpolator gz gy gx vals) p = ok b /\
            within lo hi b.
Proof.
  intros (Hz & Hy & Hx & Hlen) Hall Hin. simpl in Hz, Hy, Hx.
  destruct p as [[pz py] px]. unfold outside in Hin. simpl in Hin.
  assert (Bz : out_of_bounds gz pz = false)
    by (destruct (out_of_bounds gz pz); [tauto | reflexivity]).
  assert (By : out_of_bounds gy py = false)
    by (destruct (out_of_bounds gy py); [tauto | reflexivity]).
  assert (Bx : out_of_bounds gx px = false)
    by (destruct (out_of_bounds gx px); [tauto | reflexivity]).
  rewrite interpolate_make. eexists. split; [reflexivity|].
  pose proof (find_index_bound gz pz (proj1 Hz)) as Iz.
  pose proof (find_index_bound gy py (proj1 Hy)) as Iy.
  pose proof (find_index_bound gx px (proj1 Hx)) as Ix.
  apply evaluate_linear_within.
  - intros a b c Ha Hb Hc. apply value_at_Forall; simpl; auto;
      [destruct Ha | destruct Hb | destruct Hc]; subst; lia.
  - now apply find_index_unit.
  - now apply find_index_unit.
  - now apply find_index_unit.
Qed.

Lemma restriction_keeps_bounds (zf yf xf : list Q) (field : list fval)
    (lo hi : Q) :
  ascending zf -> ascending yf -> ascending xf ->
  length field = n_fine zf yf xf ->
  Forall (within lo hi) field ->
  exists out,
    resample zf yf xf field (zc zf) (yc yf) (xc xf) = ok out /\
    Forall (within lo hi) out /\
    length out = n_coarse zf yf xf.
Proof.
  intros Hz Hy Hx Hlen Hall.
  destruct (map_result_ok
              (interpolate (make_interpolator zf yf xf field))
              (within lo hi) (meshgrid (zc zf) (yc yf) (xc xf)))
    as (out & Hout & Hw & Hl).
  - intros p Hp. apply interpolate_within.
    + repeat split; simpl; try apply Hz; try apply Hy; try apply Hx.
      exact Hlen.
    + exact Hall.
    + now apply coarse_mesh_inside.
  - exists out. repeat split; [exact Hout | exact Hw |].
    rewrite Hl, meshgrid_length. reflexivity.
Qed.

(** X4.  Lines 177-196, 266-269 and 389-416: a field whose entries all lie
    between two bounds is restricted to a coarse field within the same
    bounds (an observation weight of 0 or 1 to a coarse weight between 0
    and 1), with one entry per node of the coarse mesh. *)
Theorem restriction_within_bounds (zf yf xf : list Q) (field : list fval)
    (lo hi : Q) :
  ascending zf -> ascending yf -> ascending xf ->
  length field = n_fine zf yf xf ->
  Forall (within lo hi) field ->
  exists out,
    resample zf yf xf field (zc zf) (yc yf) (xc xf) = ok out /\
    Forall (within lo hi) out /\
    length out = n_coarse zf yf xf.
Proof. exact (restriction_keeps_bounds zf yf xf field lo hi). Qed.

End Convexity.

Lemma restriction_within_bounds_witness :
  exists out,
    resample fine_axis fine_axis fine_axis (field_of_ones 64)
             (zc fine_axis) (yc fine_axis) (xc fine_axis) = ok out /\
    Forall (within 0 1) out /\
    length out = n_coarse fine_axis fine_axis fine_axis.
Proof.
  apply (restriction_within_bounds fine_axis fine_axis fine_axis
           (field_of_ones 64) 0 1); try apply fine_axis_ascending.
  - reflexivity.
  - apply Forall_forall. intros v Hv. apply repeat_spec in Hv. subst v.
    exists 1. repeat split; lra.
Defined.

(* ------------------------------------------------------------------ *)
(** ** Constant fields and the shape of the coarse grid *)

Section ConstantFields.

Lemma evaluate_linear_constant (I : RegularGridInterpolator)
    (iz iy ix : nat) (dz dy dx c : Q) :
  (forall a b k, (a = iz \/ a = S iz) -> (b = iy \/ b = S iy) ->
                 (k = ix \/ k = S ix) -> within c c (value_at I a b k)) ->
  within c c (evaluate_linear I iz iy ix dz dy dx).
Proof.
  intros H. unfold evaluate_linear, edges. simpl fold_left.
  destruct (H iz iy ix) as (v1 & -> & L1 & U1); auto.
  destruct (H iz iy (S ix)) as (v2 & -> & L2 & U2); auto.
  destruct (H iz (S iy) ix) as (v3 & -> & L3 & U3); auto.
  destruct (H iz (S iy) (S ix)) as (v4 & -> & L4 & U4); auto.
  destruct (H (S iz) iy ix) as (v5 & -> & L5 & U5); auto.
  destruct (H (S iz) iy (S ix)) as (v6 & -> & L6 & U6); auto.
  destruct (H (S iz) (S iy) ix) as (v7 & -> & L7 & U7); auto.
  destruct (H (S iz) (S iy) (S ix)) as (v8 & -> & L8 & U8); auto.
  rewrite !edge_weight_low, !edge_weight_high.
  simpl. eexists. split; [reflexivity|].
  assert (E1 : v1 == c) by lra. assert (E2 : v2 == c) by lra.
  assert (E3 : v3 == c) by lra. assert (E4 : v4 == c) by lra.
  assert (E5 : v5 == c) by lra. assert (E6 : v6 == c) by lra.
  assert (E7 : v7 == c) by lra. assert (E8 : v8 == c) by lra.
  rewrite E1, E2, E3, E4, E5, E6, E7, E8.
  assert (E : 0 + c * (1 * (1 - dz) * (1 - dy) * (1 - dx)) +
              c * (1 * (1 - dz) * (1 - dy) * dx) +
              c * (1 * (1 - dz) * dy * (1 - dx)) +
              c * (1 * (1 - dz) * dy * dx) +
              c * (1 * dz * (1 - dy) * (1 - dx)) +
              c * (1 * dz * (1 - dy) * dx) +
              c * (1 * dz * dy * (1 - dx)) + c * (1 * dz * dy * dx) == c)
    by ring.
  rewrite E. split; apply Qle_refl.
Qed.

Lemma interpolate_constant (gz gy gx : list Q) (vals : list fval)
    (p : Q * Q * Q) (c : Q) :
  well_formed (make_interpolator gz gy gx vals) ->
  Forall (within c c) vals ->
  exists b, interpolate (make_interpolator gz gy gx vals) p = ok b /\
            within c c b.
Proof.
  intros (Hz & Hy & Hx & Hlen) Hall. simpl in Hz, Hy, Hx.
  destruct p as [[pz py] px].
  rewrite interpolate_make. eexists. split; [reflexivity|].
  pose proof (find_index_bound gz pz (proj1 Hz)) as Iz.
  pose proof (find_index_bound gy py (proj1 Hy)) as Iy.
  pose proof (find_index_bound gx px (proj1 Hx)) as Ix.
  apply evaluate_linear_constant.
  intros a b k Ha Hb Hk. apply value_at_Forall; simpl; auto;
    [destruct Ha | destruct Hb | destruct Hk]; subst; lia.
Qed.

Lemma resample_keeps_constant (gz gy gx : list Q) (field : list fval)
    (to_z to_y to_x : list Q) (c : Q) :
  well_formed (make_interpolator gz gy gx field) ->
  Forall (within c c) field ->
  exists out,
    resample gz gy gx field to_z to_y to_x = ok out /\
    Forall (within c c) out /\
    length out = (length to_z * length to_y * length to_x)%nat.
Proof.
  intros Hwf Hall.
  destruct (map_result_ok
              (interpolate (make_interpolator gz gy gx field))
              (within c c) (meshgrid to_z to_y to_x))
    as (out & Hout & Hw & Hl).
  - intros p _. now apply interpolate_constant.
  - exists out. repeat split; [exact Hout | exact Hw |].
    rewrite Hl. apply meshgrid_length.
Qed.

Lemma coarse_well_formed (zf yf xf : list Q) (vals : list fval) :
  ascending zf -> ascending yf -> ascending xf ->
  (4 <= length zf)%nat -> (4 <= length yf)%nat -> (4 <= length xf)%nat ->
  length vals = n_coarse zf yf xf ->
  well_formed (make_interpolator (zc zf) (yc yf) (xc xf) vals).
Proof.
  intros Hz Hy Hx Lz Ly Lx Hlen.
  repeat split; simpl;
    try (apply coarsen_axis_ascending; assumption);
    try (apply (proj2 (coarsen_axis_ascending _ ltac:(eassumption)
                         ltac:(eassumption)))).
  exact Hlen.
Qed.

(** X5.  Lines 177-196 and 461-469: a field with one and the same number
    at every node is resampled to that number at every node of the target
    mesh, also at the nodes outside the bounds of the source grid; no NaN
    and no fill value appears. *)
Theorem resample_constant (gz gy gx : list Q) (field : list fval)
    (to_z to_y to_x : list Q) (c : Q) :
  well_formed (make_interpolator gz gy gx field) ->
  Forall (within c c) field ->
  exists out,
    resample gz gy gx field to_z to_y to_x = ok out /\
    length out = (length to_z * length to_y * length to_x)%nat /\
    forall v, In v out -> exists q, v = Num q /\ q == c.
Proof.
  intros Hwf Hall.
  destruct (resample_keeps_constant gz gy gx field to_z to_y to_x c Hwf Hall)
    as (out & Hout & Hw & Hl).
  exists out. split; [exact Hout|]. split; [exact Hl|].
  intros v Hv. rewrite Forall_forall in Hw.
  destruct (Hw v Hv) as (q & -> & L & U). exists q. split; [reflexivity|lra].
Qed.

(** X6.  Lines 157-162: the coarse version of an ascending axis is an
    ascending axis with a cell to interpolate in exactly when the fine
    axis has at least four nodes; with two or three nodes the coarse axis
    is a single node. *)
Theorem coarse_axis_needs_four_nodes (f : list Q) :
  ascending f ->
  (ascending (coarsen_axis f) <-> (4 <= length f)%nat) /\
  ((length f < 4)%nat -> length (coarsen_axis f) = 1%nat).
Proof.
  intros Hf. pose proof (proj1 Hf) as H2. split; [split|].
  - intros [Hc _]. rewrite coarsen_axis_length in Hc.
    assert (H : (1 < Nat.div2 (length f))%nat) by lia.
    apply div2_lt in H. lia.
  - now apply coarsen_axis_ascending.
  - intros H4. rewrite coarsen_axis_length.
    assert (H0 : (0 < Nat.div2 (length f))%nat) by (apply div2_lt; lia).
    destruct (Nat.le_gt_cases 2 (Nat.div2 (length f))) as [H | H]; [|lia].
    assert (H1 : (1 < Nat.div2 (length f))%nat) by lia.
    apply div2_lt in H1. lia.
Qed.

End ConstantFields.

Lemma fine_grid_well_formed (field : list fval) :
  length field = 64%nat ->
  well_formed (make_interpolator fine_axis fine_axis fine_axis field).
Proof.
  intros H. repeat split; simpl; try apply fine_axis_ascending;
    try apply (proj2 fine_axis_ascending). exact H.
Qed.

Lemma resample_constant_witness :
  exists out,
    resample fine_axis fine_axis fine_axis (field_of_ones 64)
             odd_axis odd_axis odd_axis = ok out /\
    length out = 125%nat /\
    forall v, In v out -> exists q, v = Num q /\ q == 1.
Proof.
  apply (resample_constant fine_axis fine_axis fine_axis (field_of_ones 64)
           odd_axis odd_axis odd_axis 1).
  - apply fine_grid_well_formed. reflexivity.
  - apply Forall_forall. intros v Hv. apply repeat_spec in Hv. subst v.
    exists 1. repeat split; lra.
Defined.

Lemma coarse_axis_needs_four_nodes_witness :
  (ascending (coarsen_axis fine_axis) <-> (4 <= length fine_axis)%nat) /\
  ((length fine_axis < 4)%nat -> length (coarsen_axis fine_axis) = 1%nat).
Proof.
  apply (coarse_axis_needs_four_nodes fine_axis). apply fine_axis_ascending.
Defined.

(* ------------------------------------------------------------------ *)
(** ** Lines 364-478: what the cycles keep *)

Section CycleInvariants.

Variable grad_J : list fval -> list fval.
Variable fmin_l_bfgs_b : list fval -> list fval -> list fval * Z.
Variable masked_entry : fval -> fval -> fval.
Variables zf yf xf : list Q.

Local Abbreviation nf := (n_fine zf yf xf).
Local Abbreviation nc := (n_coarse zf yf xf).
Local Abbreviation one_cycle :=
  (cycle grad_J fmin_l_bfgs_b masked_entry zf yf xf).
Local Abbreviation body :=
  (loop_body grad_J fmin_l_bfgs_b masked_entry zf yf xf).
Local Abbreviation while :=
  (while_loop grad_J fmin_l_bfgs_b masked_entry zf yf xf).

Lemma cycle_length (w g : list fval) :
  length w = (3 * nf)%nat ->
  exists out warn res,
    one_cycle w g = ok (out, warn, res) /\ length out = length w.
Proof.
  intros Hw.
  destruct (cycle_stages grad_J fmin_l_bfgs_b masked_entry zf yf xf w g)
    as (uc & vc & wc & sol & warn & ua & va & wa & H).
  destruct H as (_ & _ & _ & _ & _ & _ & _ & Lu & Lv & Lw & Hc).
  destruct (components_split nf w Hw) as (_ & L0 & L1 & L2).
  eexists _, _, _. split; [exact Hc|].
  rewrite !length_app, !length_map2 by congruence. lia.
Qed.

Lemma loop_body_length (s : LoopState) :
  length (winds s) = (3 * nf)%nat ->
  exists s', body s = ok s' /\ length (winds s') = length (winds s).
Proof.
  intros Hw. unfold loop_body.
  destruct (cycle_length (winds s) (fine_gradient s) Hw)
    as (out & warn & res & Hc & Hl).
  rewrite Hc. cbn [bind ok]. eexists. split; [reflexivity|]. exact Hl.
Qed.

(** X7.  Lines 364-478: the loop keeps the shape of the wind field.  From
    a field of [3 * nz * ny * nx] entries, whenever the loop ends it ends
    without an exception, with a field of as many entries. *)
Theorem loop_keeps_shape (a : Args) (fuel : nat) (s : LoopState)
    (r : result LoopState) :
  length (winds s) = (3 * nf)%nat ->
  while fuel a s = Some r ->
  exists final, r = ok final /\ length (winds final) = length (winds s).
Proof.
  revert s. induction fuel as [|fuel IH]; intros s Hw Hr.
  - simpl in Hr. destruct (iterations s <? max_iterations a)%Z;
      [discriminate|]. injection Hr as <-. exists s. auto.
  - cbn [while_loop] in Hr.
    destruct (iterations s <? max_iterations a)%Z.
    + destruct (loop_body_length s Hw) as (s1 & H1 & L1).
      rewrite H1 in Hr. destruct (IH s1) as (final & Hf & Lf);
        [congruence | exact Hr |].
      exists final. split; [exact Hf | congruence].
    + injection Hr as <-. exists s. auto.
Qed.

Lemma Forall_map2 {A B C} (P : A -> Prop) (Q' : B -> Prop) (R : C -> Prop)
    (f : A -> B -> C) (l : list A) (m : list B) :
  (forall a b, P a -> Q' b -> R (f a b)) ->
  Forall P l -> Forall Q' m -> Forall R (map2 f l m).
Proof.
  intros Hf Hl. revert m. induction Hl as [|a l Pa Hl IH]; intros m Hm;
    [constructor|].
  destruct Hm as [|b m Qb Hm]; simpl; constructor; auto.
Qed.

Lemma descent_numbers (w : list fval) :
  keeps_numbers (3 * nf) grad_J ->
  length w = (3 * nf)%nat -> Forall is_number w ->
  length (descent grad_J w) = (3 * nf)%nat /\
  Forall is_number (descent grad_J w).
Proof.
  intros HG Hl Hn. destruct (HG w Hl Hn) as [Gl Gn]. unfold descent. split.
  - rewrite length_map2; [exact Hl|]. rewrite length_map. congruence.
  - apply (Forall_map2 is_number is_number); [| exact Hn |].
    + intros a b [p ->] [q ->]. eexists. reflexivity.
    + apply Forall_map. revert Gn. apply Forall_impl.
      intros v [q ->]. eexists. reflexivity.
Qed.

Lemma components_numbers (P : fval -> Prop) (n : nat) (arr : list fval) :
  length arr = (3 * n)%nat -> Forall P arr ->
  forall c, (c < 3)%nat ->
    length (component c n arr) = n /\ Forall P (component c n arr).
Proof.
  intros Hl Hn c Hc.
  destruct (components_split n arr Hl) as (E & L0 & L1 & L2).
  rewrite E in Hn. apply Forall_app in Hn as [F0 Hn].
  apply Forall_app in Hn as [F1 F2].
  destruct c as [|[|[|c]]]; auto; lia.
Qed.

Lemma difference_with_itself (l : list fval) :
  Forall is_number l ->
  length (map2 fsub l l) = length l /\ Forall (within 0 0) (map2 fsub l l).
Proof.
  intros H. split; [now apply length_map2|].
  induction H as [|v l [q ->] H IH]; simpl; constructor; [|exact IH].
  exists (q - q). split; [reflexivity|]. split; lra.
Qed.

Lemma add_nothing (comp add : list fval) :
  Forall is_number comp -> Forall (within 0 0) add ->
  length add = length comp ->
  Forall2 same_number comp (map2 (add_correction masked_entry) comp add).
Proof.
  intros Hc. revert add. induction Hc as [|w comp [q ->] Hc IH];
    intros add Ha Hl.
  - constructor.
  - destruct Ha as [|d add (e & -> & L & U) Ha]; [discriminate|].
    simpl. constructor.
    + exists q, (q + e). repeat split. lra.
    + apply IH; [exact Ha|]. simpl in Hl. lia.
Qed.

(** X8.  Lines 365-478: when the coarse solve makes no progress (the
    optimiser returns its starting point), the cycle hands back, entry by
    entry, the wind field it was given: the correction is zero at every
    fine node, also where the prolongation extrapolates, and the five
    relaxation sweeps leave no trace in the field. *)
Theorem stalled_cycle_returns_entry_field (w g : list fval) :
  ascending zf -> ascending yf -> ascending xf ->
  (4 <= length zf)%nat -> (4 <= length yf)%nat -> (4 <= length xf)%nat ->
  keeps_numbers (3 * nf) grad_J ->
  (forall x0 res, fst (fmin_l_bfgs_b x0 res) = x0) ->
  length w = (3 * nf)%nat -> Forall is_number w ->
  exists out warn res,
    one_cycle w g = ok (out, warn, res) /\ Forall2 same_number w out.
Proof.
  intros Hz Hy Hx Lz Ly Lx HG Hstall Hl Hn.
  destruct (cycle_stages grad_J fmin_l_bfgs_b masked_entry zf yf xf w g)
    as (uc & vc & wc & sol & warn & ua & va & wa & H).
  destruct H as (Ru & Rv & Rw & Hs & Pu & Pv & Pw & Lu & Lv & Lw & Hc).
  (* the relaxed field is an array of numbers *)
  assert (Hrel : length (Nat.iter 5 (descent grad_J) w) = (3 * nf)%nat /\
                 Forall is_number (Nat.iter 5 (descent grad_J) w)).
  { simpl Nat.iter.
    repeat (apply descent_numbers; [exact HG | |]); try exact Hl;
      try exact Hn;
      repeat (apply descent_numbers; [exact HG | |]); try exact Hl;
      exact Hn. }
  destruct Hrel as [Rl Rn].
  (* so is its restriction *)
  assert (Hres : forall c out, (c < 3)%nat ->
    resample zf yf xf (component c nf (Nat.iter 5 (descent grad_J) w))
             (zc zf) (yc yf) (xc xf) = ok out ->
    length out = nc /\ Forall is_number out).
  { intros c out Hlt Hout.
    destruct (components_numbers is_number nf _ Rl Rn c Hlt) as [Cl Cn].
    destruct (resample_numbers zf yf xf
                (component c nf (Nat.iter 5 (descent grad_J) w))
                (zc zf) (yc yf) (xc xf)) as (o & Ho & Fo & Lo).
    - repeat split; simpl; try apply Hz; try apply Hy; try apply Hx.
      exact Cl.
    - exact Cn.
    - rewrite Hout in Ho. injection Ho as <-. split; [|exact Fo].
      rewrite Lo. apply meshgrid_length. }
  destruct (Hres 0%nat uc ltac:(lia) Ru) as [Luc Nuc].
  destruct (Hres 1%nat vc ltac:(lia) Rv) as [Lvc Nvc].
  destruct (Hres 2%nat wc ltac:(lia) Rw) as [Lwc Nwc].
  clear Hres.
  (* the solver returns the restricted field *)
  assert (Esol : sol = (uc ++ vc ++ wc)%list).
  { rewrite <- (Hstall (uc ++ vc ++ wc)%list (uc ++ vc ++ wc)%list).
    now rewrite Hs. }
  subst sol.
  assert (Lall : length (uc ++ vc ++ wc)%list = (3 * nc)%nat)
    by (rewrite !length_app; lia).
  assert (Nall : Forall is_number (uc ++ vc ++ wc)%list)
    by (repeat (apply Forall_app; split); assumption).
  (* the correction is zero on the coarse grid, hence on the fine grid *)
  assert (Hzero : forall c add, (c < 3)%nat ->
    resample (zc zf) (yc yf) (xc xf)
      (map2 fsub (component c nc (uc ++ vc ++ wc))
                 (component c nc (uc ++ vc ++ wc))) zf yf xf = ok add ->
    Forall (within 0 0) add).
  { intros c add Hlt Hadd.
    destruct (components_numbers is_number nc _ Lall Nall c Hlt) as [Cl Cn].
    destruct (difference_with_itself _ Cn) as [Dl Dz].
    destruct (resample_keeps_constant (zc zf) (yc yf) (xc xf)
                (map2 fsub (component c nc (uc ++ vc ++ wc))
                           (component c nc (uc ++ vc ++ wc)))
                zf yf xf 0) as (o & Ho & Fo & _).
    - apply coarse_well_formed; try assumption. congruence.
    - exact Dz.
    - rewrite Hadd in Ho. injection Ho as <-. exact Fo. }
  pose proof (Hzero 0%nat ua ltac:(lia) Pu) as Zu.
  pose proof (Hzero 1%nat va ltac:(lia) Pv) as Zv.
  pose proof (Hzero 2%nat wa ltac:(lia) Pw) as Zw.
  clear Hzero.
  destruct (components_numbers is_number nf w Hl Hn 0%nat ltac:(lia))
    as [L0 N0].
  destruct (components_numbers is_number nf w Hl Hn 1%nat ltac:(lia))
    as [L1 N1].
  destruct (components_numbers is_number nf w Hl Hn 2%nat ltac:(lia))
    as [L2 N2].
  eexists _, _, _. split; [exact Hc|].
  rewrite (proj1 (components_split nf w Hl)) at 1.
  repeat apply Forall2_app; apply add_nothing; try assumption; congruence.
Qed.

End CycleInvariants.

Lemma grad_ones_keeps_numbers (n : nat) : keeps_numbers n grad_ones.
Proof.
  intros v Hl _. unfold grad_ones. split; [now rewrite length_map|].
  apply Forall_map, Forall_forall. intros x _. eexists. reflexivity.
Qed.

Lemma winds_at_rest_numbers : Forall is_number winds_at_rest.
Proof.
  apply Forall_forall. intros v Hv. apply repeat_spec in Hv. subst v.
  eexists. reflexivity.
Qed.

Lemma loop_keeps_shape_witness :
  exists final,
    while_loop grad_ones solver_stalls keep_entry fine_axis fine_axis
               fine_axis 1 (args_budget 50) (initial_state winds_at_rest)
    = Some (ok final) /\
    length (winds final) = length winds_at_rest.
Proof.
  destruct (while_loop grad_ones solver_stalls keep_entry fine_axis fine_axis
              fine_axis 1 (args_budget 50) (initial_state winds_at_rest))
    as [r|] eqn:E.
  - destruct (loop_keeps_shape grad_ones solver_stalls keep_entry
                fine_axis fine_axis fine_axis (args_budget 50) 1
                (initial_state winds_at_rest) r)
      as (final & Hf & Hl).
    + reflexivity.
    + exact E.
    + exists final. split; [now rewrite Hf | exact Hl].
  - vm_compute in E. discriminate.
Defined.

Lemma stalled_cycle_returns_entry_field_witness :
  exists out warn res,
    cycle grad_ones solver_stalls keep_entry fine_axis fine_axis fine_axis
          winds_at_rest [] = ok (out, warn, res) /\
    Forall2 same_number winds_at_rest out.
Proof.
  apply (stalled_cycle_returns_entry_field grad_ones solver_stalls keep_entry
           fine_axis fine_axis fine_axis winds_at_rest []);
    try apply fine_axis_ascending; try (simpl; lia).
  - apply grad_ones_keeps_numbers.
  - reflexivity.
  - apply winds_at_rest_numbers.
Defined.

(* ------------------------------------------------------------------ *)
(** ** Lines 60-141: the calls that pass the argument checks *)

Section AcceptedCalls.

Lemma check_grids_accepts (gs : list Grid) :
  same_shape gs ->
  (check_grids gs = ok tt <->
   gs <> [] /\ forall g q ax, consecutive gs g q -> ~ disagree ax g q).
Proof.
  intros Hs. split.
  - intros Hok.
    assert (Hne : gs <> []) by (intros ->; discriminate).
    split; [exact Hne|].
    destruct (check_grids_spec gs Hne Hs) as [[_ H] | (ax & g & q & H & _)];
      [exact H|].
    rewrite Hok in H. discriminate.
  - intros [Hne Hno].
    destruct (check_grids_spec gs Hne Hs)
      as [[H _] | (ax & g & q & _ & Hc & Hd)]; [exact H|].
    exfalso. exact (Hno g q ax Hc Hd).
Qed.

(** X9.  Lines 60-141: the argument checks let a call through exactly
    when the storm motion is given or the vorticity constraint is off, the
    list of grids is not empty and no two neighbours in it disagree in x,
    y, z (beyond [10 + 1e-5 * |b|]) or in origin latitude, both field
    names are given, and the model constraint is off or model fields are
    named.  Nothing else about the arguments is checked here. *)
Theorem check_args_accepts (a : Args) (gs : list Grid) :
  Grids a = PyList gs -> same_shape gs ->
  ((exists names, check_args a = ok names) <->
   ~ storm_motion_missing a /\
   gs <> [] /\
   (forall g q ax, consecutive gs g q -> ~ disagree ax g q) /\
   refl_field a <> None /\ vel_name a <> None /\
   ~ model_fields_missing a).
Proof.
  intros Hg Hs. unfold check_args, storm_motion_missing, model_fields_missing.
  rewrite Hg.
  pose proof (check_grids_accepts gs Hs) as Hacc.
  split.
  - intros [names H].
    destruct ((is_None (Ut a) || is_None (Vt a)) && negb (Qeq_bool (Cv a) 0))
      eqn:E1; [discriminate|].
    destruct (check_grids gs) as [e | []] eqn:E2; [discriminate|].
    cbn [bind] in H.
    destruct (refl_field a) as [r|] eqn:E3; [|discriminate].
    destruct (vel_name a) as [v|] eqn:E4; [|discriminate].
    cbn [default_field_name bind ok] in H.
    destruct (is_None (model_fields a) && negb (Qeq_bool (Cmod a) 0))
      eqn:E5; [discriminate|].
    destruct (proj1 Hacc eq_refl) as [Hne Hno].
    repeat split; try assumption; try discriminate.
    + intros [Hcv Hnone].
      apply Qeq_bool_false in Hcv. rewrite Hcv in E1.
      destruct Hnone as [Hn | Hn]; rewrite Hn in E1; simpl in E1;
        try discriminate.
      destruct (is_None (Ut a)); discriminate.
    + intros [Hcm Hnone].
      apply Qeq_bool_false in Hcm. rewrite Hcm, Hnone in E5. discriminate.
  - intros (Hsm & Hne & Hno & Hr & Hv & Hm).
    assert (E1 : (is_None (Ut a) || is_None (Vt a)) &&
                 negb (Qeq_bool (Cv a) 0) = false).
    { destruct (Qeq_bool (Cv a) 0) eqn:Ec; [now rewrite andb_false_r|].
      rewrite andb_true_r. apply Qeq_bool_neq in Ec.
      destruct (Ut a) eqn:EU, (Vt a) eqn:EV; try reflexivity;
        exfalso; apply Hsm; split; auto. }
    rewrite E1. rewrite (proj2 Hacc (conj Hne Hno)). cbn [bind].
    destruct (refl_field a) as [r|]; [|congruence].
    destruct (vel_name a) as [v|]; [|congruence].
    cbn [default_field_name bind ok].
    assert (E5 : is_None (model_fields a) && negb (Qeq_bool (Cmod a) 0)
                 = false).
    { destruct (Qeq_bool (Cmod a) 0) eqn:Ec; [now rewrite andb_false_r|].
      rewrite andb_true_r. apply Qeq_bool_neq in Ec.
      destruct (model_fields a) eqn:EM; [reflexivity|].
      exfalso. apply Hm. split; auto. }
    rewrite E5. eexists. reflexivity.
Qed.

End AcceptedCalls.

Lemma check_args_accepts_witness :
  (exists names, check_args args_two_grids = ok names) <->
  ~ storm_motion_missing args_two_grids /\
  [grid_a; grid_a] <> [] /\
  (forall g q ax, consecutive [grid_a; grid_a] g q -> ~ disagree ax g q) /\
  refl_field args_two_grids <> None /\ vel_name args_two_grids <> None /\
  ~ model_fields_missing args_two_grids.
Proof.
  apply (check_args_accepts args_two_grids [grid_a; grid_a]).
  - reflexivity.
  - apply same_shape_pair; reflexivity.
Defined.

(* ------------------------------------------------------------------ *)
(** ** Lines 13-26: the range of the coarse cost *)

Section AdapterRange.

Variable J_function : list rval -> rval.

Lemma norm_not_negative (v : list rval) (r : R) :
  norm v = Finite r -> (0 <= r)%R.
Proof.
  unfold norm, rsqrt.
  destruct (fold_left radd (map (fun e => rmul e e) v) (Finite 0))
    as [p|]; [|discriminate].
  destruct (Rlt_dec p 0); [discriminate|].
  intros H. injection H as <-. apply sqrt_pos.
Qed.

Lemma nothing_selected (cost : rval) (winds residual : list rval) :
  (forall w r, In (w, r) (combine winds residual) ->
               isfinite w && isfinite r = false) ->
  flat_map
    (fun wr : rval * rval =>
       if isfinite (fst wr) && isfinite (snd wr)
       then [rsub cost (rmul scale_residual (snd wr))] else [])
    (combine winds residual) = [].
Proof.
  induction (combine winds residual) as [|[w r] l IH]; intros H;
    [reflexivity|].
  simpl. rewrite (H w r) by (left; reflexivity).
  apply IH. intros w' r' Hin. apply H. right. exact Hin.
Qed.

(** X10.  Lines 13-26: the coarse cost is a norm.  For winds and residual
    of one shape a finite value of it is never negative, and when no entry
    is finite in both arrays it is 0 whatever the cost function returns,
    a non-finite cost included. *)
Theorem J_coarse_range (winds residual : list rval) :
  length winds = length residual ->
  (forall v, _J_coarse J_function winds residual = ok (Finite v) ->
             (0 <= v)%R) /\
  ((forall w r, In (w, r) (combine winds residual) ->
                isfinite w && isfinite r = false) ->
   _J_coarse J_function winds residual = ok (Finite 0)).
Proof.
  intros Hlen. rewrite (J_coarse_norm J_function winds residual Hlen).
  unfold norm_over_finite. split.
  - intros v H. injection H as H. exact (norm_not_negative _ _ H).
  - intros Hnone. rewrite (nothing_selected _ _ _ Hnone).
    unfold norm, rsqrt. simpl.
    destruct (Rlt_dec 0 0) as [H|_]; [lra|]. now rewrite sqrt_0.
Qed.

End AdapterRange.

Lemma J_coarse_range_witness :
  _J_coarse (fun _ => NotFinite) [NotFinite; Finite 1] [Finite 2; NotFinite]
  = ok (Finite 0).
Proof.
  apply (J_coarse_range (fun _ => NotFinite) [NotFinite; Finite 1]
           [Finite 2; NotFinite]).
  - reflexivity.
  - intros w r [H | [H | []]]; injection H as <- <-; reflexivity.
Defined.

(* ------------------------------------------------------------------ *)
(** ** Lines 198-262: the weights of two radars *)

Section UpdatedVolumes.

Lemma update_nth_same {A} (l : list A) (i : nat) (v : A) :
  (i < length l)%nat -> nth_error (update l i v) i = Some v.
Proof.
  revert i. induction l as [|b l IH]; intros [|i] H; simpl in *;
    try lia; [reflexivity|].
  apply IH. lia.
Qed.

Lemma update_nth_other {A} (l : list A) (i j : nat) (v : A) :
  i <> j -> nth_error (update l i v) j = nth_error l j.
Proof.
  revert i j. induction l as [|b l IH]; intros [|i] [|j] H; simpl;
    try reflexivity; try lia.
  apply IH. lia.
Qed.

Lemma has_shape_row {A} (n m : nat) (v : list (list A)) (k : nat) :
  has_shape n m v -> (k < n)%nat ->
  exists row, nth_error v k = Some row /\ length row = m /\ nth k v [] = row.
Proof.
  intros [Hl Hr] Hk.
  destruct (nth_error v k) as [row|] eqn:E.
  - exists row. split; [reflexivity|]. split.
    + rewrite Forall_forall in Hr. apply Hr. eapply nth_error_In; eauto.
    + now apply nth_error_nth.
  - apply nth_error_None in E. lia.
Qed.

Lemma has_shape_update {A} (n m : nat) (v : list (list A)) (k : nat)
    (row : list A) :
  has_shape n m v -> length row = m -> has_shape n m (update v k row).
Proof.
  intros [Hl Hr] Hrow. split; [now rewrite update_length|].
  clear Hl. revert k. induction Hr as [|r v Hr0 Hr IH]; intros k.
  - destruct k; constructor.
  - destruct k; simpl; constructor; auto.
Qed.

Lemma add_one_to_zeros (n : nat) (cond : list bool) :
  length cond = n ->
  map2 (fun (c : bool) (v : Q) => if c then v + 1 else v) cond (repeat 0 n)
  = map (fun c : bool => if c then 1 else 0) cond.
Proof.
  revert cond. induction n as [|n IH]; intros [|c cond] H; simpl in *;
    try discriminate; [reflexivity|].
  f_equal; try (now destruct c). apply IH. lia.
Qed.

End UpdatedVolumes.

Section TwoRadars.

Variable get_bca : nat -> nat -> list Q.
Variable radians : Q -> Q.
Variables nz nyx : nat.
Variable a : Args.
Variables m0 m1 : list (list bool).

Hypothesis obs_default : weights_obs a = None.
Hypothesis bg_default : weights_bg a = None.
Hypothesis bounds_ordered : radians (min_bca a) <= radians (max_bca a).
Hypothesis shape0 : has_shape nz nyx m0.
Hypothesis shape1 : has_shape nz nyx m1.
Hypothesis bca_shape : length (get_bca 0%nat 1%nat) = nyx.

Local Abbreviation bca := (get_bca 0%nat 1%nat).
Local Abbreviation vrs := [m0; m1].
Local Abbreviation zeros := (repeat 0 nyx).

Lemma observed_level_length (mask : list bool) :
  length mask = nyx -> length (observed_level radians a bca mask) = nyx.
Proof.
  intros H. unfold observed_level, within_bounds.
  rewrite length_map, length_map2; rewrite !length_map; congruence.
Qed.

Lemma valid_level_length (mask : list bool) :
  length (valid_level mask) = length mask.
Proof. apply length_map. Qed.

(** Lines 212-221 and 223-232 on a level that still holds zeros. *)
Lemma observation_weight_fresh (r k : nat) (weights : list (list (list Q)))
    (w_r : list (list Q)) (vr : list (list bool)) (mask : list bool) :
  nth_error weights r = Some w_r ->
  nth_error w_r k = Some zeros ->
  nth_error vrs r = Some vr ->
  nth_error vr k = Some mask ->
  length mask = nyx ->
  observation_weight radians a vrs bca r k weights =
  ok (update weights r (update w_r k (observed_level radians a bca mask))).
Proof.
  intros Hw Hz Hvr Hmask Lm.
  unfold observation_weight, getitem. rewrite Hw. cbn [bind ok].
  rewrite obs_default, Hz. cbn [bind ok]. rewrite Hvr. cbn [bind ok].
  rewrite Hmask. cbn [bind ok].
  unfold elementwise, within_bounds. rewrite !length_map, Lm, bca_shape.
  rewrite Nat.eqb_refl. cbn [bind ok].
  unfold where_mask.
  rewrite length_map2 by (rewrite !length_map; congruence).
  rewrite length_map, Lm, repeat_length, Nat.eqb_refl. cbn [bind ok].
  rewrite add_one_to_zeros
    by (rewrite length_map2; rewrite !length_map; congruence).
  unfold setitem.
  assert (Hk : (k < length w_r)%nat) by (apply nth_error_Some; congruence).
  assert (Hr : (r < length weights)%nat)
    by (apply nth_error_Some; congruence).
  apply Nat.ltb_lt in Hk, Hr. rewrite Hk. cbn [bind ok]. rewrite Hr.
  reflexivity.
Qed.

(** Lines 211-242 at a level that still holds zeros. *)
Lemma level_body_fresh (k : nat) (W0 W1 bg : list (list Q)) :
  (k < nz)%nat ->
  nth_error W0 k = Some zeros -> nth_error W1 k = Some zeros ->
  has_shape nz nyx bg -> (0 < nz)%nat ->
  level_body radians a vrs 0 1 bca k ([W0; W1], bg) =
  ok ([observed_step radians a bca m0 W0 k;
       observed_step radians a bca m1 W1 k],
      background_step m0 bg k).
Proof.
  intros Hk Z0 Z1 Hbg Hnz.
  destruct (has_shape_row nz nyx m0 k shape0 Hk) as (r0 & E0 & L0 & N0).
  destruct (has_shape_row nz nyx m1 k shape1 Hk) as (r1 & E1 & L1 & N1).
  destruct (has_shape_row nz nyx bg k Hbg Hk) as (b & Eb & Lb & _).
  unfold level_body.
  rewrite (observation_weight_fresh 0 k [W0; W1] W0 m0 r0 eq_refl Z0 eq_refl
             E0 L0).
  cbn [bind ok update].
  rewrite (observation_weight_fresh 1 k
             [update W0 k (observed_level radians a bca r0); W1]
             W1 m1 r1 eq_refl Z1 eq_refl E1 L1).
  cbn [bind ok update].
  rewrite (background_weight_level radians a vrs bca 0 k bg b m0 r0
             bg_default bounds_ordered Eb eq_refl E0);
    [| congruence | congruence | rewrite (proj1 Hbg); exact Hnz].
  cbn [bind ok]. unfold observed_step, background_step, valid_level.
  rewrite N0, N1. reflexivity.
Qed.

Lemma background_step_shape (bg : list (list Q)) (k : nat) :
  (k < nz)%nat -> has_shape nz nyx bg ->
  has_shape nz nyx (background_step m0 bg k).
Proof.
  intros Hk Hbg.
  destruct (has_shape_row nz nyx m0 k shape0 Hk) as (r0 & _ & L0 & N0).
  unfold background_step. rewrite N0.
  repeat apply has_shape_update; try exact Hbg;
    now rewrite valid_level_length.
Qed.

(** Lines 210-242: the levels one after the other. *)
Lemma levels_loop (len : nat) :
  forall (st : nat) (W0 W1 bg : list (list Q)),
    (st + len = nz)%nat ->
    (forall k, (st <= k < nz)%nat ->
       nth_error W0 k = Some zeros /\ nth_error W1 k = Some zeros) ->
    has_shape nz nyx bg ->
    for_each (seq st len) (level_body radians a vrs 0 1 bca) ([W0; W1], bg) =
    ok ([fold_left (observed_step radians a bca m0) (seq st len) W0;
         fold_left (observed_step radians a bca m1) (seq st len) W1],
        fold_left (background_step m0) (seq st len) bg).
Proof.
  induction len as [|len IH]; intros st W0 W1 bg Hst Hz Hbg;
    [reflexivity|].
  cbn [seq for_each fold_left].
  destruct (Hz st ltac:(lia)) as [Z0 Z1].
  rewrite (level_body_fresh st W0 W1 bg) by (try assumption; lia).
  cbn [bind ok]. apply IH.
  - lia.
  - intros k Hk. destruct (Hz k ltac:(lia)) as [K0 K1].
    unfold observed_step. rewrite !update_nth_other by lia. auto.
  - apply background_step_shape; [lia | exact Hbg].
Qed.

Lemma fold_observed_length (masks : list (list bool)) (len st : nat)
    (W : list (list Q)) :
  length (fold_left (observed_step radians a bca masks) (seq st len) W)
  = length W.
Proof.
  revert st W. induction len as [|len IH]; intros st W; [reflexivity|].
  cbn [seq fold_left]. rewrite IH. apply update_length.
Qed.

Lemma fold_observed_nth (masks : list (list bool)) (len : nat) :
  forall (st : nat) (W : list (list Q)) (k : nat),
    (st <= k < st + len)%nat -> (k < length W)%nat ->
    nth_error (fold_left (observed_step radians a bca masks) (seq st len) W) k
    = Some (observed_level radians a bca (nth k masks [])).
Proof.
  induction len as [|len IH]; intros st W k Hk Hl; [lia|].
  rewrite seq_S, fold_left_app. cbn [fold_left]. unfold observed_step at 1.
  destruct (Nat.eq_dec k (st + len)) as [-> | Hne].
  - apply update_nth_same. now rewrite fold_observed_length.
  - rewrite update_nth_other by lia. apply IH; lia.
Qed.

Lemma fold_background_length (len st : nat) (bg : list (list Q)) :
  length (fold_left (background_step m0) (seq st len) bg) = length bg.
Proof.
  revert st bg. induction len as [|len IH]; intros st bg; [reflexivity|].
  cbn [seq fold_left]. rewrite IH. unfold background_step.
  now rewrite !update_length.
Qed.

Lemma fold_background_nth (len : nat) :
  forall (st : nat) (bg : list (list Q)) (k : nat),
    (st <= k < st + len)%nat -> (0 < k < length bg)%nat ->
    nth_error (fold_left (background_step m0) (seq st len) bg) k
    = Some (valid_level (nth k m0 [])).
Proof.
  induction len as [|len IH]; intros st bg k Hk Hl; [lia|].
  rewrite seq_S, fold_left_app. cbn [fold_left]. unfold background_step at 1.
  rewrite update_nth_other by lia.
  destruct (Nat.eq_dec k (st + len)) as [-> | Hne].
  - apply update_nth_same. now rewrite fold_background_length.
  - rewrite update_nth_other by lia. apply IH; lia.
Qed.

Lemma fold_background_first (len st : nat) (bg : list (list Q)) :
  (0 < length bg)%nat ->
  nth_error (fold_left (background_step m0) (seq st (S len)) bg) 0
  = Some (valid_level (nth (st + len) m0 [])).
Proof.
  intros Hl. rewrite seq_S, fold_left_app. cbn [fold_left].
  unfold background_step at 1. apply update_nth_same.
  now rewrite update_length, fold_background_length.
Qed.

Lemma full_row {A} (v : A) (k : nat) :
  (k < nz)%nat -> nth_error (full nz nyx v) k = Some (repeat v nyx).
Proof. intros H. unfold full. now apply nth_error_repeat. Qed.

Lemma full_shape {A} (v : A) : has_shape nz nyx (full nz nyx v).
Proof.
  unfold full. split; [apply repeat_length|].
  apply Forall_forall. intros l Hl. apply repeat_spec in Hl. subst l.
  apply repeat_length.
Qed.

(** Lines 199-242 for two radars: one pair, every level once. *)
Lemma pairs_loop_two :
  pairs_loop get_bca radians a vrs
    ([full nz nyx 0; full nz nyx 0], full nz nyx 0) =
  ok ([fold_left (observed_step radians a bca m0) (seq 0 nz) (full nz nyx 0);
       fold_left (observed_step radians a bca m1) (seq 0 nz) (full nz nyx 0)],
      fold_left (background_step m0) (seq 0 nz) (full nz nyx 0)).
Proof.
  unfold pairs_loop. cbn [length range Nat.sub seq for_each Nat.add].
  unfold pair_body at 1. cbn [getitem nth_error bind ok].
  unfold range. rewrite (proj1 shape0), Nat.sub_0_r.
  rewrite levels_loop.
  - reflexivity.
  - reflexivity.
  - intros k Hk. split; apply full_row; lia.
  - apply full_shape.
Qed.

Lemma array_max_ok (arr : list (list Q)) (row : list Q) :
  nth_error arr 0 = Some row -> row <> [] ->
  exists top, array_max arr = ok top.
Proof.
  intros Hrow Hne. destruct arr as [|r arr]; [discriminate|].
  injection Hrow as ->. destruct row as [|c cs]; [congruence|].
  unfold array_max. simpl. eexists. reflexivity.
Qed.

Lemma map2_not_nil {A B C} (f : A -> B -> C) (l : list A) (m : list B) :
  l <> [] -> m <> [] -> map2 f l m <> [].
Proof. destruct l, m; simpl; congruence. Qed.

Lemma not_nil_length {A} (l : list A) : (0 < length l)%nat -> l <> [].
Proof. destruct l; simpl; [lia | discriminate]. Qed.

Lemma store_model_weights (V : list (list fval)) (len : nat) :
  forall (st : nat) (mw : list (list (list fval))),
    (st + len <= length mw)%nat ->
    exists mw', for_each (seq st len) (fun i mw0 => setitem mw0 i V) mw
                = ok mw'.
Proof.
  induction len as [|len IH]; intros st mw H; [eexists; reflexivity|].
  cbn [seq for_each]. unfold setitem at 1.
  assert (Hst : (st <? length mw)%nat = true) by (apply Nat.ltb_lt; lia).
  rewrite Hst. cbn [bind ok]. apply IH. rewrite update_length. lia.
Qed.

(** Lines 245-257 raise nothing on a grid with at least one cell. *)
Lemma model_weights_two (W0 W1 : list (list Q)) (r0 r1 : list Q) :
  weights_model a = None ->
  (0 < nz)%nat -> (0 < nyx)%nat ->
  nth_error W0 0 = Some r0 -> length r0 = nyx ->
  nth_error W1 0 = Some r1 -> length r1 = nyx ->
  exists mw,
    model_weights nz nyx a vrs [W0; W1]
      match model_fields a with
      | Some fields => repeat (full nz nyx (Num 1)) (length fields)
      | None => [full nz nyx (Num 0)]
      end = ok mw.
Proof.
  intros Hmod Hnz Hnyx E0 L0 E1 L1. unfold model_weights.
  destruct (array_max_ok (sum_axis0 nz nyx [W0; W1])
              (map2 Qplus (map2 Qplus (repeat 0 nyx) r0) r1)) as [top Htop].
  - unfold sum_axis0. cbn [fold_left].
    apply (nth_error_map2 (map2 Qplus)); [|exact E1].
    apply (nth_error_map2 (map2 Qplus)); [|exact E0].
    now apply full_row.
  - repeat apply map2_not_nil; apply not_nil_length;
      rewrite ?repeat_length; lia.
  - rewrite Htop. cbn [bind ok].
    destruct (model_fields a) as [fields|]; [|eexists; reflexivity].
    rewrite Hmod. unfold range. rewrite Nat.sub_0_r.
    apply store_model_weights. rewrite repeat_length. lia.
Qed.

Lemma clip_zero_one (c : bool) :
  (if Qlt_le_dec 0 (if c then 1 else 0) then 1 else (if c then 1 else 0))
  = (if c then 1 else 0).
Proof.
  destruct c.
  - now destruct (Qlt_le_dec 0 1).
  - destruct (Qlt_le_dec 0 0) as [H|_]; [|reflexivity]. exfalso. lra.
Qed.

Lemma cell_row {A} (v : list (list A)) (k c : nat) (e : A) :
  cell v k c = Some e ->
  exists row, nth_error v k = Some row /\ nth_error row c = Some e /\
              nth k v [] = row.
Proof.
  unfold cell. destruct (nth_error v k) as [row|] eqn:E; [|discriminate].
  intros H. exists row. repeat split; [exact H|]. now apply nth_error_nth.
Qed.

Lemma observed_cell (masks : list (list bool)) (k c : nat) (b : bool)
    (ang : Q) :
  has_shape nz nyx masks ->
  cell masks k c = Some b -> nth_error bca c = Some ang ->
  cell (map (map (fun w => if Qlt_le_dec 0 w then 1 else w))
          (fold_left (observed_step radians a bca masks) (seq 0 nz)
                     (full nz nyx 0))) k c
  = Some (if negb b && (Qle_bool (radians (min_bca a)) ang &&
                        Qle_bool ang (radians (max_bca a)))
          then 1 else 0).
Proof.
  intros Hs Hb Hang. rewrite cell_map.
  destruct (cell_row masks k c b Hb) as (row & Er & Ec & En).
  assert (Hk : (k < nz)%nat).
  { rewrite <- (proj1 Hs). apply nth_error_Some. congruence. }
  unfold cell. rewrite fold_observed_nth;
    [| lia | rewrite (proj1 (full_shape 0)); exact Hk].
  rewrite En. unfold observed_level.
  erewrite map_nth_error.
  - cbn [option_map]. now rewrite clip_zero_one.
  - apply (nth_error_map2 andb).
    + now apply map_nth_error.
    + unfold within_bounds.
      exact (map_nth_error
               (fun b0 => Qle_bool (radians (min_bca a)) b0 &&
                          Qle_bool b0 (radians (max_bca a))) c bca Hang).
Qed.

(** X11.  Lines 198-262 for two radars with the weights left to the
    function and the beam-crossing bounds in their natural order.  The
    observation weight of a radar is 1 where its velocity is valid and the
    beam-crossing angle within the bounds, and 0 elsewhere.  The
    background weight looks at the first radar alone: at every level but
    the lowest it is 1 where the first radar is valid and 0 where it is
    masked, and the lowest level ends as a copy of the highest. *)
Theorem two_radar_weights :
  weights_model a = None ->
  (0 < nz)%nat -> (0 < nyx)%nat ->
  exists w0 w1 bg mw,
    build_weights get_bca radians nz nyx a [m0; m1] = ok ([w0; w1], bg, mw) /\
    (forall k c b ang,
       cell m0 k c = Some b -> nth_error (get_bca 0%nat 1%nat) c = Some ang ->
       cell w0 k c =
       Some (if negb b && (Qle_bool (radians (min_bca a)) ang &&
                           Qle_bool ang (radians (max_bca a)))
             then 1 else 0)) /\
    (forall k c b ang,
       cell m1 k c = Some b -> nth_error (get_bca 0%nat 1%nat) c = Some ang ->
       cell w1 k c =
       Some (if negb b && (Qle_bool (radians (min_bca a)) ang &&
                           Qle_bool ang (radians (max_bca a)))
             then 1 else 0)) /\
    (forall k c b, (0 < k)%nat -> cell m0 k c = Some b ->
       cell bg k c = Some (if b then 0 else 1)) /\
    (forall c b, cell m0 (nz - 1) c = Some b ->
       cell bg 0 c = Some (if b then 0 else 1)).
Proof.
  intros Hmod Hnz Hnyx. unfold build_weights.
  cbn [length repeat Nat.ltb Nat.leb]. rewrite pairs_loop_two.
  cbn [bind ok].
  destruct (has_shape_row nz nyx m0 0 shape0 Hnz) as (r0 & _ & L0 & N0).
  destruct (has_shape_row nz nyx m1 0 shape1 Hnz) as (r1 & _ & L1 & N1).
  destruct (model_weights_two
              (fold_left (observed_step radians a bca m0) (seq 0 nz)
                         (full nz nyx 0))
              (fold_left (observed_step radians a bca m1) (seq 0 nz)
                         (full nz nyx 0))
              (observed_level radians a bca r0)
              (observed_level radians a bca r1) Hmod Hnz Hnyx)
    as [mw Hmw].
  - rewrite fold_observed_nth;
      [now rewrite N0 | lia | now rewrite (proj1 (full_shape 0))].
  - now apply observed_level_length.
  - rewrite fold_observed_nth;
      [now rewrite N1 | lia | now rewrite (proj1 (full_shape 0))].
  - now apply observed_level_length.
  - rewrite Hmw. cbn [bind ok]. unfold clip. cbn [map].
    eexists _, _, _, _. split; [reflexivity|].
    split; [|split; [|split]].
    + intros k c b ang Hb Hang. now apply observed_cell.
    + intros k c b ang Hb Hang. now apply observed_cell.
    + intros k c b Hk Hb.
      destruct (cell_row m0 k c b Hb) as (row & Er & Ec & En).
      assert (Hlt : (k < nz)%nat).
      { rewrite <- (proj1 shape0). apply nth_error_Some. congruence. }
      unfold cell. rewrite fold_background_nth;
        [| lia | rewrite (proj1 (full_shape 0)); lia].
      rewrite En. unfold valid_level.
      exact (map_nth_error (fun m : bool => if m then 0 else 1) c row Ec).
    + intros c b Hb.
      destruct (cell_row m0 (nz - 1) c b Hb) as (row & Er & Ec & En).
      unfold cell.
      replace nz with (S (nz - 1)) at 1 by lia.
      rewrite fold_background_first
        by (rewrite (proj1 (full_shape 0)); exact Hnz).
      cbn [Nat.add]. rewrite En. unfold valid_level.
      exact (map_nth_error (fun m : bool => if m then 0 else 1) c row Ec).
Qed.

End TwoRadars.

Lemma two_radar_weights_witness :
  exists w0 w1 bg mw,
    build_weights bca_one_radian radians_approx 2 2 args_defaults
      [vel_mask grid_two_levels; vel_mask grid_two_levels_valid]
    = ok ([w0; w1], bg, mw) /\
    cell w0 0 1 = Some 0 /\ cell w1 0 1 = Some 1 /\
    cell bg 1 0 = Some 0 /\ cell bg 0 0 = Some 0.
Proof.
  destruct (two_radar_weights bca_one_radian radians_approx 2 2 args_defaults
              (vel_mask grid_two_levels) (vel_mask grid_two_levels_valid))
    as (w0 & w1 & bg & mw & Hb & H0 & H1 & Hbg & Hfirst);
    try reflexivity; try lia.
  - unfold Qle. vm_compute. discriminate.
  - split; [reflexivity | repeat constructor].
  - split; [reflexivity | repeat constructor].
  - exists w0, w1, bg, mw. split; [exact Hb|].
    split; [|split; [|split]].
    + exact (H0 0%nat 1%nat true 1 eq_refl eq_refl).
    + rewrite (H1 0%nat 1%nat false 1 eq_refl eq_refl).
      vm_compute. reflexivity.
    + exact (Hbg 1%nat 0%nat true ltac:(lia) eq_refl).
    + exact (Hfirst 0%nat true eq_refl).
Defined.

(* ------------------------------------------------------------------ *)
(** ** Lines 198-262: observation weights of any number of radars *)

Section ClippedWeights.

Variable get_bca : nat -> nat -> list Q.
Variable radians : Q -> Q.
Variables nz nyx : nat.
Variable a : Args.
Variable vrs_mask : list (list (list bool)).

Hypothesis obs_default : weights_obs a = None.

Local Abbreviation counted := (counted (length vrs_mask)).

Lemma for_each_invariant {A S} (P : S -> Prop) (body : A -> S -> result S)
    (xs : list A) :
  (forall x s s', P s -> body x s = ok s' -> P s') ->
  forall s s', P s -> for_each xs body s = ok s' -> P s'.
Proof.
  intros Hbody. induction xs as [|x0 xs IH]; intros s s' Hs H.
  - injection H as <-. exact Hs.
  - cbn [for_each] in H. destruct (body x0 s) as [e|s1] eqn:E;
      [discriminate|].
    cbn [bind] in H. apply (IH s1 s'); [|exact H]. exact (Hbody x0 s s1 Hs E).
Qed.

Lemma Forall_update {A} (P : A -> Prop) (l : list A) (i : nat) (v : A) :
  Forall P l -> P v -> Forall P (update l i v).
Proof.
  intros Hl Hv. revert i. induction Hl as [|b l Hb Hl IH]; intros [|i];
    simpl; constructor; auto.
Qed.

Lemma Forall_getitem {A} (P : A -> Prop) (l : list A) (i : nat) (v : A) :
  Forall P l -> getitem l i = ok v -> P v.
Proof.
  intros Hl. unfold getitem.
  destruct (nth_error l i) as [b|] eqn:E; [|discriminate].
  intros H. injection H as <-. rewrite Forall_forall in Hl.
  apply Hl. eapply nth_error_In; eauto.
Qed.

Lemma setitem_update {A} (l l' : list A) (i : nat) (v : A) :
  setitem l i v = ok l' -> l' = update l i v.
Proof.
  unfold setitem. destruct (i <? length l)%nat; [|discriminate].
  intros H. now injection H.
Qed.

Lemma observation_weight_counted (bca : list Q) (r k : nat)
    (weights weights' : list (list (list Q))) :
  counted weights ->
  observation_weight radians a vrs_mask bca r k weights = ok weights' ->
  counted weights'.
Proof.
  intros [Hlen Hall] H. unfold observation_weight in H.
  rewrite obs_default in H.
  destruct (getitem weights r) as [e|w_r] eqn:E1; [discriminate|].
  cbn [bind] in H.
  destruct (getitem w_r k) as [e|cur] eqn:E2; [discriminate|].
  cbn [bind] in H.
  destruct (getitem vrs_mask r) as [e|vr]; [discriminate|]. cbn [bind] in H.
  destruct (getitem vr k) as [e|mask]; [discriminate|]. cbn [bind] in H.
  destruct (elementwise andb (map negb mask) (within_bounds radians a bca))
    as [e|cond]; [discriminate|].
  cbn [bind] in H. unfold where_mask in H.
  destruct (length cond =? length cur)%nat; [|discriminate].
  cbn [bind ok] in H.
  destruct (setitem w_r k _) as [e|w_r'] eqn:E3; [discriminate|].
  cbn [bind] in H. apply setitem_update in E3, H. subst weights' w_r'.
  pose proof (Forall_getitem _ _ _ _ Hall E1) as Hw.
  pose proof (Forall_getitem _ _ _ _ Hw E2) as Hc.
  split; [now rewrite update_length|].
  apply Forall_update; [exact Hall|]. apply Forall_update; [exact Hw|].
  clear - Hc. revert cond. induction Hc as [|v cur Hv Hc IH];
    intros [|c cond]; simpl; constructor; auto.
  destruct c; lra.
Qed.

Lemma pairs_loop_counted (weights weights' : list (list (list Q)))
    (bg bg' : list (list Q)) :
  counted weights ->
  pairs_loop get_bca radians a vrs_mask (weights, bg) = ok (weights', bg') ->
  counted weights'.
Proof.
  intros Hc H.
  refine (for_each_invariant (fun s : weights_state => counted (fst s))
            _ _ _ (weights, bg) (weights', bg') Hc H).
  clear weights weights' bg bg' Hc H. intros i s s' Hs.
  apply (for_each_invariant (fun s : weights_state => counted (fst s)));
    [|exact Hs].
  clear s s' Hs. intros j s s' Hs Hp. unfold pair_body in Hp.
  destruct (getitem vrs_mask i) as [e|vr]; [discriminate|]. cbn [bind] in Hp.
  revert Hp.
  apply (for_each_invariant (fun s : weights_state => counted (fst s)));
    [|exact Hs].
  clear s s' Hs. intros k [w b] s' Hs Hl. unfold level_body in Hl.
  destruct (observation_weight radians a vrs_mask (get_bca i j) i k w)
    as [e|w1] eqn:E1; [discriminate|].
  cbn [bind] in Hl.
  destruct (observation_weight radians a vrs_mask (get_bca i j) j k w1)
    as [e|w2] eqn:E2; [discriminate|].
  cbn [bind] in Hl.
  destruct (background_weight radians a vrs_mask (get_bca i j) i k b)
    as [e|b1]; [discriminate|].
  cbn [bind ok] in Hl. injection Hl as <-. cbn [fst].
  eapply observation_weight_counted; [|exact E2].
  eapply observation_weight_counted; [|exact E1]. exact Hs.
Qed.

Lemma clip_counted (weights : list (list (list Q))) :
  Forall (Forall (Forall (fun q => 0 <= q))) weights ->
  zero_or_one (clip weights).
Proof.
  intros H. unfold clip, zero_or_one. apply Forall_map. revert H. apply Forall_impl.
  intros vol H. apply Forall_map. revert H. apply Forall_impl.
  intros row H. apply Forall_map. revert H. apply Forall_impl.
  intros q Hq. destruct (Qlt_le_dec 0 q); [left; reflexivity|].
  right. lra.
Qed.

Lemma build_weights_clipped (w : list (list (list Q)))
    (bg : list (list Q)) (mw : list (list (list fval))) :
  build_weights get_bca radians nz nyx a vrs_mask = ok (w, bg, mw) ->
  length w = length vrs_mask /\ zero_or_one w.
Proof.
  unfold build_weights. intros H.
  assert (Hinit : counted (repeat (full nz nyx 0) (length vrs_mask))).
  { split; [apply repeat_length|].
    apply Forall_forall. intros vol Hv. apply repeat_spec in Hv. subst vol.
    apply Forall_forall. intros row Hr. apply repeat_spec in Hr. subst row.
    apply Forall_forall. intros q Hq. apply repeat_spec in Hq. subst q.
    lra. }
  destruct (1 <? length vrs_mask)%nat.
  - destruct (pairs_loop _ _ _ _ _) as [e|[w1 b1]] eqn:E; [discriminate|].
    cbn [bind] in H.
    destruct (model_weights _ _ _ _ _ _) as [e|mw1]; [discriminate|].
    cbn [bind ok] in H. injection H as <- <- <-.
    destruct (pairs_loop_counted _ _ _ _ Hinit E) as [Hl Hall].
    split; [|now apply clip_counted].
    unfold clip. now rewrite length_map.
  - destruct (getitem vrs_mask 0) as [e|vr0]; [discriminate|].
    cbn [bind] in H.
    destruct (getitem _ 0) as [e|old]; [discriminate|]. cbn [bind] in H.
    destruct (same_dims _ _); [|discriminate].
    destruct (setitem _ 0 _) as [e|w1] eqn:E; [discriminate|].
    cbn [bind ok] in H. injection H as <- <- <-.
    apply setitem_update in E. subst w1.
    split; [unfold clip; now rewrite length_map, update_length,
                                      repeat_length|].
    apply clip_counted. apply Forall_update; [apply Hinit|].
    unfold where_valid. apply Forall_map, Forall_forall. intros row _.
    apply Forall_map, Forall_forall. intros m _. destruct (negb m); lra.
Qed.

(** X12.  Lines 126-128, 198-232 and 262: with the observation weights
    left to the function, whatever the number of radars, the weights it
    returns hold one volume per radar and every entry is 1 or 0: the
    counts of the pair loop never go below zero and the last line clips
    them. *)
Theorem observation_weights_clipped (w : list (list (list Q)))
    (bg : list (list Q)) (mw : list (list (list fval))) :
  build_weights get_bca radians nz nyx a vrs_mask = ok (w, bg, mw) ->
  length w = length vrs_mask /\ zero_or_one w.
Proof. exact (build_weights_clipped w bg mw). Qed.

End ClippedWeights.

Lemma observation_weights_clipped_witness :
  exists w bg mw,
    build_weights bca_one_radian radians_approx 2 2 args_defaults
      (velocity_masks [grid_two_levels; grid_two_levels_valid;
                       grid_two_levels_valid]) = ok (w, bg, mw) /\
    length w = 3%nat /\ zero_or_one w.
Proof.
  destruct (build_weights bca_one_radian radians_approx 2 2 args_defaults
              (velocity_masks [grid_two_levels; grid_two_levels_valid;
                               grid_two_levels_valid]))
    as [e | [[w bg] mw]] eqn:E.
  - vm_compute in E. discriminate.
  - exists w, bg, mw. split; [reflexivity|].
    apply (observation_weights_clipped bca_one_radian radians_approx 2 2
             args_defaults
             (velocity_masks [grid_two_levels; grid_two_levels_valid;
                              grid_two_levels_valid]) eq_refl w bg mw E).
Defined.

(* ------------------------------------------------------------------ *)
(** ** Line 240: the radar index used as a level index *)

Section RadarsAndLevels.

Variable get_bca : nat -> nat -> list Q.
Variable radians : Q -> Q.
Variables nz nyx : nat.
Variable a : Args.
Variable vrs_mask : list (list (list bool)).

Lemma for_each_reaches {A S} (P : S -> Prop) (body : A -> S -> result S)
    (xs : list A) (x : A) :
  (forall y s s', P s -> body y s = ok s' -> P s') ->
  In x xs ->
  forall s s', P s -> for_each xs body s = ok s' ->
               exists s1 s2, P s1 /\ body x s1 = ok s2.
Proof.
  intros Hbody. induction xs as [|x0 xs IH]; intros Hin s s' Hs H;
    [contradiction|].
  cbn [for_each] in H. destruct (body x0 s) as [e|s1] eqn:E; [discriminate|].
  cbn [bind] in H. destruct Hin as [-> | Hin].
  - exists s, s1. auto.
  - apply (IH Hin s1 s'); [|exact H]. exact (Hbody x0 s s1 Hs E).
Qed.

(** Lines 234-242 write to [bg_weights[i]]: the radar index has to be a
    valid level index, and the number of levels stays as it is. *)
Lemma background_weight_index (bca : list Q) (i k : nat)
    (bg bg' : list (list Q)) :
  background_weight radians a vrs_mask bca i k bg = ok bg' ->
  (i < length bg)%nat /\ length bg' = length bg.
Proof.
  unfold background_weight. destruct (weights_bg a) as [given|].
  - destruct (getitem given i) as [e|g_i]; [discriminate|]. cbn [bind].
    destruct (getitem bg i) as [e|old]; [discriminate|]. cbn [bind].
    unfold assign_level, setitem.
    destruct (length g_i =? length old)%nat; [|discriminate].
    destruct (i <? length bg)%nat eqn:E; [|discriminate].
    intros H. injection H as <-. apply Nat.ltb_lt in E.
    split; [exact E | apply update_length].
  - destruct (getitem bg k) as [e|cur]; [discriminate|]. cbn [bind].
    destruct (where_mask _ _ cur) as [e|cur1]; [discriminate|]. cbn [bind].
    destruct (getitem vrs_mask i) as [e|vr]; [discriminate|]. cbn [bind].
    destruct (getitem vr k) as [e|mask]; [discriminate|]. cbn [bind].
    destruct (where_mask _ mask cur1) as [e|cur2]; [discriminate|].
    cbn [bind]. unfold setitem.
    destruct (k <? length bg)%nat; [|discriminate]. cbn [bind ok].
    rewrite update_length.
    destruct (i <? length bg)%nat eqn:E; [|discriminate].
    intros H. injection H as <-. apply Nat.ltb_lt in E.
    split; [exact E | now rewrite !update_length].
Qed.

Lemma level_body_levels (i j k : nat) (bca : list Q) (s s' : weights_state) :
  level_body radians a vrs_mask i j bca k s = ok s' ->
  (i < length (snd s))%nat /\ length (snd s') = length (snd s).
Proof.
  destruct s as [w b]. unfold level_body.
  destruct (observation_weight _ _ _ _ i k w) as [e|w1]; [discriminate|].
  cbn [bind].
  destruct (observation_weight _ _ _ _ j k w1) as [e|w2]; [discriminate|].
  cbn [bind].
  destruct (background_weight radians a vrs_mask bca i k b) as [e|b1] eqn:E;
    [discriminate|].
  cbn [bind ok]. intros H. injection H as <-. cbn [snd].
  exact (background_weight_index bca i k b b1 E).
Qed.

Lemma pair_body_levels (i j : nat) (s s' : weights_state) :
  length (snd s) = nz ->
  pair_body get_bca radians a vrs_mask i j s = ok s' ->
  length (snd s') = nz.
Proof.
  intros Hs. unfold pair_body.
  destruct (getitem vrs_mask i) as [e|vr]; [discriminate|]. cbn [bind].
  apply (for_each_invariant (fun s : weights_state => length (snd s) = nz));
    [|exact Hs].
  intros k s0 s1 H0 H1. apply level_body_levels in H1. lia.
Qed.

(** X13.  Lines 199-242: [bg_weights] has one entry per level, and line
    240 (or 242) stores to it at the index of the first radar of each
    pair.  With more than [nz + 1] radars on a grid of [nz] levels the pair
    of radars [nz] and [nz + 1] is reached with that index out of range:
    the weights are never returned, an exception is. *)
Theorem more_radars_than_levels :
  Forall (has_shape nz nyx) vrs_mask ->
  (0 < nz)%nat -> (nz + 2 <= length vrs_mask)%nat ->
  exists e, build_weights get_bca radians nz nyx a vrs_mask = raise e.
Proof.
  intros Hshape Hnz Hn.
  destruct (build_weights get_bca radians nz nyx a vrs_mask) as [e|r] eqn:E;
    [exists e; reflexivity|].
  exfalso. unfold build_weights in E.
  assert (H1 : (1 <? length vrs_mask)%nat = true) by (apply Nat.ltb_lt; lia).
  rewrite H1 in E.
  destruct (pairs_loop _ _ _ _ _) as [e|s'] eqn:Ep; [discriminate|].
  clear E r. unfold pairs_loop in Ep.
  set (P := fun s : weights_state => length (snd s) = nz).
  assert (Hpair : forall i j s s', P s ->
            pair_body get_bca radians a vrs_mask i j s = ok s' -> P s')
    by (intros i j s0 s1; apply pair_body_levels).
  assert (Hrow : forall i s s', P s ->
            for_each (range (i + 1) (length vrs_mask))
              (pair_body get_bca radians a vrs_mask i) s = ok s' -> P s').
  { intros i s0 s1 H0. apply (for_each_invariant P); [|exact H0].
    intros j. apply Hpair. }
  destruct (for_each_reaches P _ (range 0 (length vrs_mask)) nz Hrow)
    with (s := (repeat (full nz nyx 0) (length vrs_mask), full nz nyx 0))
         (s' := s') as (s1 & s2 & P1 & E1).
  - unfold range. apply in_seq. lia.
  - unfold P, full. cbn [snd]. apply repeat_length.
  - exact Ep.
  - destruct (for_each_reaches P _ (range (nz + 1) (length vrs_mask))
                (nz + 1)%nat (Hpair nz)) with (s := s1) (s' := s2)
      as (s3 & s4 & P3 & E3).
    + unfold range. apply in_seq. lia.
    + exact P1.
    + exact E1.
    + unfold pair_body in E3.
      destruct (getitem vrs_mask nz) as [e|vr] eqn:Ev; [discriminate|].
      cbn [bind] in E3.
      assert (Hvr : has_shape nz nyx vr)
        by (exact (Forall_getitem _ _ _ _ Hshape Ev)).
      destruct (for_each_reaches P
                  (level_body radians a vrs_mask nz (nz + 1)
                     (get_bca nz (nz + 1)%nat))
                  (range 0 (length vr)) 0%nat) with (s := s3) (s' := s4)
        as (s5 & s6 & P5 & E5).
      * intros k s s0 H0 Hl. apply level_body_levels in Hl. unfold P in *.
        lia.
      * unfold range. apply in_seq. rewrite (proj1 Hvr). lia.
      * exact P3.
      * exact E3.
      * apply level_body_levels in E5. unfold P in P5. lia.
Qed.

End RadarsAndLevels.

Lemma more_radars_than_levels_witness :
  exists e,
    build_weights bca_one_radian radians_approx 1 2 args_defaults
      (velocity_masks [grid_second_cell; grid_all_valid; grid_all_valid])
    = raise e.
Proof.
  apply (more_radars_than_levels bca_one_radian radians_approx 1 2
           args_defaults
           (velocity_masks [grid_second_cell; grid_all_valid;
                            grid_all_valid])).
  - repeat constructor.
  - lia.
  - simpl. lia.
Defined.

(* ------------------------------------------------------------------ *)
(** ** Lines 126-128 and 198-269: the coarse observation weights *)

Section CoarseWeights.

Variable get_bca : nat -> nat -> list Q.
Variable radians : Q -> Q.
Variables nz nyx : nat.
Variable a : Args.
Variable vrs_mask : list (list (list bool)).

Hypothesis obs_default : weights_obs a = None.

Lemma observation_weight_shaped (bca : list Q) (r k : nat)
    (weights weights' : list (list (list Q))) :
  Forall (has_shape nz nyx) weights ->
  observation_weight radians a vrs_mask bca r k weights = ok weights' ->
  Forall (has_shape nz nyx) weights'.
Proof.
  intros Hall H. unfold observation_weight in H.
  rewrite obs_default in H.
  destruct (getitem weights r) as [e|w_r] eqn:E1; [discriminate|].
  cbn [bind] in H.
  destruct (getitem w_r k) as [e|cur] eqn:E2; [discriminate|].
  cbn [bind] in H.
  destruct (getitem vrs_mask r) as [e|vr]; [discriminate|]. cbn [bind] in H.
  destruct (getitem vr k) as [e|mask]; [discriminate|]. cbn [bind] in H.
  destruct (elementwise andb (map negb mask) (within_bounds radians a bca))
    as [e|cond]; [discriminate|].
  cbn [bind] in H. unfold where_mask in H.
  destruct (length cond =? length cur)%nat eqn:El; [|discriminate].
  cbn [bind ok] in H.
  destruct (setitem w_r k _) as [e|w_r'] eqn:E3; [discriminate|].
  cbn [bind] in H. apply setitem_update in E3, H. subst weights' w_r'.
  pose proof (Forall_getitem _ _ _ _ Hall E1) as Hw.
  pose proof (Forall_getitem _ _ _ _ (proj2 Hw) E2) as Hc.
  cbv beta in Hc. apply Nat.eqb_eq in El.
  apply Forall_update; [exact Hall|].
  apply has_shape_update; [exact Hw|].
  rewrite length_map2; congruence.
Qed.

Lemma pairs_loop_shaped (weights weights' : list (list (list Q)))
    (bg bg' : list (list Q)) :
  Forall (has_shape nz nyx) weights ->
  pairs_loop get_bca radians a vrs_mask (weights, bg) = ok (weights', bg') ->
  Forall (has_shape nz nyx) weights'.
Proof.
  intros Hc H.
  set (P := fun s : weights_state => Forall (has_shape nz nyx) (fst s)).
  refine (for_each_invariant P _ _ _ (weights, bg) (weights', bg') Hc H).
  clear weights weights' bg bg' Hc H. intros i s s' Hs.
  apply (for_each_invariant P); [|exact Hs].
  clear s s' Hs. intros j s s' Hs Hp. unfold pair_body in Hp.
  destruct (getitem vrs_mask i) as [e|vr]; [discriminate|]. cbn [bind] in Hp.
  revert Hp. apply (for_each_invariant P); [|exact Hs].
  clear s s' Hs. intros k [w b] s' Hs Hl. unfold level_body in Hl.
  destruct (observation_weight radians a vrs_mask (get_bca i j) i k w)
    as [e|w1] eqn:E1; [discriminate|].
  cbn [bind] in Hl.
  destruct (observation_weight radians a vrs_mask (get_bca i j) j k w1)
    as [e|w2] eqn:E2; [discriminate|].
  cbn [bind] in Hl.
  destruct (background_weight radians a vrs_mask (get_bca i j) i k b)
    as [e|b1]; [discriminate|].
  cbn [bind ok] in Hl. injection Hl as <-. unfold P. cbn [fst].
  eapply observation_weight_shaped; [|exact E2].
  eapply observation_weight_shaped; [|exact E1]. exact Hs.
Qed.

Lemma same_dims_shape {A B} (u : list (list A)) (v : list (list B))
    (n m : nat) :
  same_dims u v = true -> has_shape n m v -> has_shape n m u.
Proof.
  unfold same_dims. intros H [Hl Hr]. apply andb_true_iff in H as [H1 H2].
  apply Nat.eqb_eq in H1. split; [congruence|].
  clear Hl. revert v H1 H2 Hr.
  induction u as [|r u IH]; intros [|r' v] H1 H2 Hr; simpl in *;
    try discriminate; constructor.
  - apply andb_true_iff in H2 as [H2 _]. apply Nat.eqb_eq in H2.
    inversion Hr; subst. congruence.
  - apply andb_true_iff in H2 as [_ H2]. inversion Hr; subst.
    apply (IH v); auto.
Qed.

Lemma clip_shaped (weights : list (list (list Q))) :
  Forall (has_shape nz nyx) weights ->
  Forall (has_shape nz nyx) (clip weights).
Proof.
  intros H. unfold clip. apply Forall_map. revert H. apply Forall_impl.
  intros vol [Hl Hr]. split; [now rewrite length_map|].
  apply Forall_map. revert Hr. apply Forall_impl.
  intros row Hrow. now rewrite length_map.
Qed.

Lemma build_weights_shaped (w : list (list (list Q)))
    (bg : list (list Q)) (mw : list (list (list fval))) :
  build_weights get_bca radians nz nyx a vrs_mask = ok (w, bg, mw) ->
  Forall (has_shape nz nyx) w.
Proof.
  unfold build_weights. intros H.
  assert (Hinit : Forall (has_shape nz nyx)
                    (repeat (full nz nyx 0) (length vrs_mask))).
  { apply Forall_forall. intros vol Hv. apply repeat_spec in Hv. subst vol.
    apply full_shape. }
  destruct (1 <? length vrs_mask)%nat.
  - destruct (pairs_loop _ _ _ _ _) as [e|[w1 b1]] eqn:E; [discriminate|].
    cbn [bind] in H.
    destruct (model_weights _ _ _ _ _ _) as [e|mw1]; [discriminate|].
    cbn [bind ok] in H. injection H as <- <- <-.
    apply clip_shaped. exact (pairs_loop_shaped _ _ _ _ Hinit E).
  - destruct (getitem vrs_mask 0) as [e|vr0]; [discriminate|].
    cbn [bind] in H.
    destruct (getitem _ 0) as [e|old] eqn:Eo; [discriminate|].
    cbn [bind] in H.
    destruct (same_dims _ _) eqn:Ed; [|discriminate].
    destruct (setitem _ 0 _) as [e|w1] eqn:E; [discriminate|].
    cbn [bind ok] in H. injection H as <- <- <-.
    apply setitem_update in E. subst w1.
    apply clip_shaped. apply Forall_update; [exact Hinit|].
    apply (same_dims_shape _ old); [exact Ed|].
    exact (Forall_getitem _ _ _ _ Hinit Eo).
Qed.

Lemma concat_shape {A} (n m : nat) (v : list (list A)) :
  has_shape n m v -> length (concat v) = (n * m)%nat.
Proof.
  intros [Hl Hr]. subst n. induction Hr as [|r v Hr0 Hr IH];
    [reflexivity|].
  simpl. rewrite length_app, IH, Hr0. reflexivity.
Qed.

Lemma Forall_concat {A} (P : A -> Prop) (v : list (list A)) :
  Forall (Forall P) v -> Forall P (concat v).
Proof.
  induction 1 as [|r v Hr Hv IH]; simpl; [constructor|].
  apply Forall_app. split; assumption.
Qed.

(** X14.  Lines 126-128 and 198-269: with the observation weights left to
    the function and ascending axes, the weights on the coarse grid exist
    for every radar, one value per coarse node, and each of them lies
    between 0 and 1. *)
Theorem coarse_weights_in_unit_interval (zf yf xf : list Q)
    (w : list (list (list Q))) (bg : list (list Q))
    (mw : list (list (list fval))) :
  ascending zf -> ascending yf -> ascending xf ->
  nz = length zf -> nyx = (length yf * length xf)%nat ->
  build_weights get_bca radians nz nyx a vrs_mask = ok (w, bg, mw) ->
  exists wc,
    coarse_weights zf yf xf w = ok wc /\
    length wc = length vrs_mask /\
    Forall (fun vol => length vol = n_coarse zf yf xf /\
                       Forall (within 0 1) vol) wc.
Proof.
  intros Hz Hy Hx Enz Enyx Hb.
  destruct (build_weights_clipped get_bca radians nz nyx a vrs_mask
              obs_default w bg mw Hb) as [Hlen H01].
  pose proof (build_weights_shaped w bg mw Hb) as Hshape.
  unfold coarse_weights.
  destruct (map_result_ok
              (fun vol => resample zf yf xf (volume_values vol)
                 (coarsen_axis zf) (coarsen_axis yf) (coarsen_axis xf))
              (fun vol => length vol = n_coarse zf yf xf /\
                          Forall (within 0 1) vol) w)
    as (wc & Hwc & Hall & Hl).
  - intros vol Hin.
    rewrite Forall_forall in Hshape. specialize (Hshape vol Hin).
    unfold zero_or_one in H01. rewrite Forall_forall in H01.
    specialize (H01 vol Hin).
    destruct (restriction_keeps_bounds zf yf xf (volume_values vol) 0 1
                Hz Hy Hx) as (out & Ho & Fo & Lo).
    + unfold volume_values, n_fine. rewrite length_map.
      rewrite (concat_shape nz nyx vol Hshape). subst nz nyx. lia.
    + unfold volume_values. apply Forall_map.
      apply Forall_concat in H01. revert H01. apply Forall_impl.
      intros v [Hv | Hv]; exists v; (split; [reflexivity|]).
      * subst v. split; lra.
      * split; lra.
    + exists out. auto.
  - exists wc. split; [exact Hwc|]. split; [congruence | exact Hall].
Qed.

End CoarseWeights.

Lemma axis_pair_ascending : ascending axis_pair.
Proof. apply ascending_pair. reflexivity. Qed.

Lemma coarse_weights_in_unit_interval_witness :
  exists w bg mw wc,
    build_weights bca_four radians_approx 2 4 args_defaults
                  [mask_partly; mask_none] = ok (w, bg, mw) /\
    coarse_weights axis_pair axis_pair axis_pair w = ok wc /\
    length wc = 2%nat /\
    Forall (fun vol => length vol = 1%nat /\ Forall (within 0 1) vol) wc.
Proof.
  destruct (build_weights bca_four radians_approx 2 4 args_defaults
              [mask_partly; mask_none]) as [e | [[w bg] mw]] eqn:E.
  - vm_compute in E. discriminate.
  - destruct (coarse_weights_in_unit_interval bca_four radians_approx 2 4
                args_defaults [mask_partly; mask_none] eq_refl
                axis_pair axis_pair axis_pair w bg mw)
      as (wc & Hwc & Hl & Hall);
      try apply axis_pair_ascending; try reflexivity.
    + exact E.
    + exists w, bg, mw, wc. split; [reflexivity|]. auto.
Defined.

(* ------------------------------------------------------------------ *)
(** ** Lines 480-497: where the retrieved winds are masked *)

Section Output.

Variable get_bca : nat -> nat -> list Q.
Variable radians : Q -> Q.
Variables nz nyx : nat.
Variable a : Args.
Variable g : Grid.

Hypothesis mask_shape : has_shape nz nyx (vel_mask g).
Hypothesis no_model : model_fields a = None.

Lemma map2_repeat_l {A B C} (h : A -> B -> C) (v : A) (l : list B) (n : nat) :
  length l = n -> map2 h (repeat v n) l = map (h v) l.
Proof.
  revert n. induction l as [|b l IH]; intros [|n] H; simpl in *;
    try discriminate; [reflexivity|].
  f_equal. apply IH. lia.
Qed.

Lemma map2_repeat_r {A B C} (h : A -> B -> C) (v : B) (l : list A) (n : nat) :
  length l = n -> map2 h l (repeat v n) = map (fun x => h x v) l.
Proof.
  revert n. induction l as [|b l IH]; intros [|n] H; simpl in *;
    try discriminate; [reflexivity|].
  f_equal. apply IH. lia.
Qed.

Lemma map2_full_l {A B C} (h : A -> B -> C) (v : A) (m : list (list B)) :
  has_shape nz nyx m ->
  map2 (map2 h) (repeat (repeat v nyx) nz) m = map (map (h v)) m.
Proof.
  intros [Hl Hr]. rewrite map2_repeat_l by exact Hl.
  apply map_ext_in. intros row Hin. apply map2_repeat_l.
  rewrite Forall_forall in Hr. now apply Hr.
Qed.

Lemma map2_full_r {A B C} (h : A -> B -> C) (v : B) (m : list (list A)) :
  has_shape nz nyx m ->
  map2 (map2 h) m (repeat (repeat v nyx) nz) = map (map (fun x => h x v)) m.
Proof.
  intros [Hl Hr]. rewrite map2_repeat_r by exact Hl.
  apply map_ext_in. intros row Hin. apply map2_repeat_r.
  rewrite Forall_forall in Hr. now apply Hr.
Qed.

Lemma has_shape_map {A B} (f : A -> B) (m : list (list A)) :
  has_shape nz nyx m -> has_shape nz nyx (map (map f) m).
Proof.
  intros [Hl Hr]. split; [now rewrite length_map|].
  apply Forall_map. revert Hr. apply Forall_impl.
  intros row Hrow. now rewrite length_map.
Qed.

(** Lines 486 and 492 for one grid without model fields: the cells
    without coverage are the cells where the velocity is masked. *)
Lemma outside_coverage_single :
  outside_coverage nz nyx [where_valid 1 0 (vel_mask g)]
                   [repeat (repeat (Num 0) nyx) nz]
  = concat (vel_mask g).
Proof.
  unfold outside_coverage, sum_axis0, sum_axis0_float, full.
  cbn [fold_left].
  rewrite (map2_full_l fadd) by apply full_shape.
  unfold where_valid.
  rewrite (map2_full_l Qplus) by (apply has_shape_map; exact mask_shape).
  rewrite !map_repeat.
  rewrite map2_full_r by (do 2 apply has_shape_map; exact mask_shape).
  rewrite !map_map. f_equal.
  rewrite <- (map_id (vel_mask g)) at 2.
  apply map_ext. intros row. rewrite !map_map.
  rewrite <- (map_id row) at 2.
  apply map_ext. intros []; reflexivity.
Qed.

Lemma mask_unmasked (cond : list bool) (arr : list fval) :
  length cond = length arr ->
  mask_where cond (unmasked arr) = ok (mkMasked arr cond) /\
  mask_where cond (mkMasked arr cond) = ok (mkMasked arr cond).
Proof.
  intros H. unfold mask_where, masked_where, unmasked. cbn [data mask].
  rewrite H, Nat.eqb_refl. split; do 2 f_equal.
  - revert arr H. induction cond as [|c cond IH]; intros [|x arr] H;
      simpl in *; try discriminate; [reflexivity|].
    rewrite orb_false_r, IH; [reflexivity | lia].
  - clear. induction cond as [|c cond IH]; simpl; [reflexivity|].
    now rewrite orb_diag, IH.
Qed.

(** X15.  Lines 258-262 and 480-497 for one grid without model fields:
    the data of [u], [v] and [w] are the three components of the wind
    vector as the loop left them; with [mask_w_outside_opt] (the default)
    [w] is masked exactly where the velocity field of the grid is masked;
    [u] and [v] are masked there only with [mask_outside_opt], and not
    masked at all without it (the default). *)
Theorem single_grid_output_masks (winds : list fval)
    (mask_outside_opt mask_w_outside_opt : bool) :
  length winds = (3 * (nz * nyx))%nat ->
  exists w bg mw out,
    build_weights get_bca radians nz nyx a (velocity_masks [g])
    = ok (w, bg, mw) /\
    retrieved_winds nz nyx winds w mw mask_outside_opt mask_w_outside_opt
    = ok out /\
    data (u_wind out) = component 0 (nz * nyx) winds /\
    data (v_wind out) = component 1 (nz * nyx) winds /\
    data (w_wind out) = component 2 (nz * nyx) winds /\
    (if mask_outside_opt
     then mask (u_wind out) = concat (vel_mask g) /\
          mask (v_wind out) = concat (vel_mask g)
     else nothing_masked (u_wind out) /\ nothing_masked (v_wind out)) /\
    (if mask_outside_opt || mask_w_outside_opt
     then mask (w_wind out) = concat (vel_mask g)
     else nothing_masked (w_wind out)).
Proof.
  intros Hlen.
  rewrite (build_weights_single get_bca radians nz nyx a g mask_shape).
  rewrite no_model.
  unfold retrieved_winds. rewrite Hlen, Nat.eqb_refl. cbn [negb].
  destruct (components_split (nz * nyx) winds Hlen) as (_ & L0 & L1 & L2).
  pose proof (concat_shape nz nyx (vel_mask g) mask_shape) as Lc.
  destruct (mask_unmasked (concat (vel_mask g))
              (component 0 (nz * nyx) winds)) as [U _]; [congruence|].
  destruct (mask_unmasked (concat (vel_mask g))
              (component 1 (nz * nyx) winds)) as [V _]; [congruence|].
  destruct (mask_unmasked (concat (vel_mask g))
              (component 2 (nz * nyx) winds)) as [W W2]; [congruence|].
  destruct mask_outside_opt, mask_w_outside_opt; cbn [orb];
    eexists _, _, _, _; (split; [reflexivity|]);
    rewrite ?outside_coverage_single;
    rewrite ?U, ?V, ?W; cbn [bind ok]; rewrite ?W2, ?W; cbn [bind ok];
    (split; [reflexivity|]); cbn [u_wind v_wind w_wind data mask unmasked];
    repeat split; reflexivity.
Qed.

End Output.

Lemma single_grid_output_masks_witness :
  exists w bg mw out,
    build_weights bca_one_radian radians_approx 2 2 args_defaults
                  (velocity_masks [grid_two_levels]) = ok (w, bg, mw) /\
    retrieved_winds 2 2 (repeat (Num 0) 12) w mw false true = ok out /\
    mask (w_wind out) = [false; true; true; false] /\
    nothing_masked (u_wind out).
Proof.
  destruct (single_grid_output_masks bca_one_radian radians_approx 2 2
              args_defaults grid_two_levels
              ltac:(split; [reflexivity | repeat constructor]) eq_refl
              (repeat (Num 0) 12) false true eq_refl)
    as (w & bg & mw & out & Hb & Ho & _ & _ & _ & [Hu _] & Hw).
  exists w, bg, mw, out. auto.
Defined.

(* ------------------------------------------------------------------ *)
(** ** Lines 157-162 and 297-299: the spacing of the two grids *)

Section Spacing.

Lemma first_difference_uniform (h : Q) (arr : list Q) :
  uniform h arr -> (2 <= length arr)%nat ->
  exists d, first_difference arr = ok d /\ d == h.
Proof.
  intros Hu Hl. destruct arr as [|a0 [|a1 arr]]; simpl in Hl; try lia.
  exists (a1 - a0). split; [reflexivity|]. apply (Hu 0%nat). simpl. lia.
Qed.

Lemma coarsen_axis_uniform (h : Q) (f : list Q) :
  uniform h f -> uniform (2 * h) (coarsen_axis f).
Proof.
  intros Hu i Hi. rewrite coarsen_axis_length in Hi. apply div2_lt in Hi.
  rewrite !coarsen_axis_nth by lia.
  pose proof (Hu (2 * i)%nat ltac:(lia)) as H0.
  pose proof (Hu (2 * i + 1)%nat ltac:(lia)) as H1.
  pose proof (Hu (2 * i + 2)%nat ltac:(lia)) as H2.
  replace (2 * S i)%nat with (S (2 * i + 1)) by lia.
  replace (S (2 * i + 1) + 1)%nat with (S (S (2 * i + 1))) by lia.
  replace (S (2 * i)) with (2 * i + 1)%nat in H0 by lia.
  replace (2 * i + 2)%nat with (S (2 * i + 1)) in H2 by lia.
  set (a0 := nth (2 * i) f 0) in *.
  set (a1 := nth (2 * i + 1) f 0) in *.
  set (a2 := nth (S (2 * i + 1)) f 0) in *.
  set (a3 := nth (S (S (2 * i + 1))) f 0) in *.
  clearbody a0 a1 a2 a3.
  unfold Qdiv. change (/ 2) with (1 # 2). lra.
Qed.

(** X16.  Lines 157-162 and 297-299: on an axis of equally spaced nodes
    the spacing that lines 297-299 read off the fine grid is the spacing
    of the axis, and the coarse axis is equally spaced as well, its nodes
    twice as far apart. *)
Theorem coarse_spacing_doubles (h : Q) (f : list Q) :
  uniform h f -> (4 <= length f)%nat ->
  exists d dc,
    first_difference f = ok d /\ d == h /\
    first_difference (coarsen_axis f) = ok dc /\ dc == 2 * d /\
    uniform (2 * h) (coarsen_axis f).
Proof.
  intros Hu Hl.
  destruct (first_difference_uniform h f Hu ltac:(lia)) as (d & Hd & Ed).
  destruct (first_difference_uniform (2 * h) (coarsen_axis f)
              (coarsen_axis_uniform h f Hu)) as (dc & Hdc & Edc).
  - rewrite coarsen_axis_length.
    assert (H : (1 < Nat.div2 (length f))%nat) by (apply div2_lt; lia).
    lia.
  - exists d, dc. repeat split; try assumption.
    + rewrite Edc, Ed. reflexivity.
    + now apply coarsen_axis_uniform.
Qed.

End Spacing.

Lemma coarse_spacing_doubles_witness :
  exists d dc,
    first_difference fine_axis = ok d /\ d == 1 /\
    first_difference (coarsen_axis fine_axis) = ok dc /\ dc == 2 * d /\
    uniform (2 * 1) (coarsen_axis fine_axis).
Proof.
  apply (coarse_spacing_doubles 1 fine_axis).
  - intros i Hi. simpl in Hi.
    destruct i as [|[|[|i]]]; simpl; try reflexivity; lia.
  - simpl. lia.
Defined.

(* ------------------------------------------------------------------ *)
(** ** Lines 263-276 and 326-361: model fields stop the retrieval *)

Section ModelFields.

Variables zf yf xf : list Q.
Variable fields : list (string * MaskedArray).
Variable mod_weights : list (list (list fval)).

Lemma coarsen_two_model_weights (n1 n2 : string) (rest : list string) :
  length mod_weights = length (n1 :: n2 :: rest) ->
  coarsen_model_weights zf yf xf (Some (n1 :: n2 :: rest)) mod_weights
  = inl (AttributeError no_append).
Proof.
  intros Hl. unfold coarsen_model_weights, range.
  rewrite Nat.sub_0_r. cbn [length seq attempt_each].
  destruct mod_weights as [|v0 [|v1 mw]]; simpl in Hl; try lia.
  cbn [getitem nth_error lift attempt_bind ok].
  destruct (resample_total zf yf xf (concat v0) (coarsen_axis zf)
              (coarsen_axis yf) (coarsen_axis xf)) as (c0 & E0 & _).
  rewrite E0. cbn [lift attempt_bind ok append app np_stack].
  destruct (resample_total zf yf xf (concat v1) (coarsen_axis zf)
              (coarsen_axis yf) (coarsen_axis xf)) as (c1 & E1 & _).
  rewrite E1. reflexivity.
Qed.

Lemma coarsen_one_model_weight (n1 : string) :
  length mod_weights = 1%nat ->
  exists c, coarsen_model_weights zf yf xf (Some [n1]) mod_weights
            = inr (AsArray [c]).
Proof.
  intros Hl. unfold coarsen_model_weights, range.
  cbn [length Nat.sub seq attempt_each].
  destruct mod_weights as [|v0 [|v1 mw]]; simpl in Hl; try lia.
  cbn [getitem nth_error lift attempt_bind ok].
  destruct (resample_total zf yf xf (concat v0) (coarsen_axis zf)
              (coarsen_axis yf) (coarsen_axis xf)) as (c0 & E0 & _).
  rewrite E0. exists c0. reflexivity.
Qed.

Lemma first_difference_total (arr : list Q) :
  (exists d, first_difference arr = ok d /\ (2 <= length arr)%nat) \/
  (first_difference arr = raise IndexError /\ (length arr < 2)%nat).
Proof.
  destruct arr as [|a0 [|a1 arr]]; simpl.
  - right. split; [reflexivity | lia].
  - right. split; [reflexivity | lia].
  - left. eexists. split; [reflexivity | lia].
Qed.

(** X17.  Lines 263-276, 297-299 and 326-361: a call that names model
    fields never gets to the loop.  With two or more names the second pass
    of line 275 calls [append] on the array of line 276
    ([AttributeError]).  With one name and an axis of fewer than two
    nodes, lines 297-299 raise [IndexError]; with one name and two nodes
    or more on every axis, the first pass of the loop of line 335 ends
    with a [KeyError] for a wind component that [Grids[0]] lacks or, with
    all three there, with the [NameError] of line 343. *)
Theorem model_fields_stop_retrieval (names : list string) :
  names <> [] -> length mod_weights = length names ->
  exists e,
    model_fields_setup zf yf xf fields (Some names) mod_weights = inl e /\
    ((2 <= length names)%nat -> e = AttributeError no_append) /\
    (forall name, names = [name] ->
       ((length xf < 2)%nat \/ (length yf < 2)%nat \/ (length zf < 2)%nat ->
        e = Base IndexError) /\
       ((2 <= length xf)%nat /\ (2 <= length yf)%nat /\
        (2 <= length zf)%nat ->
        e = Base (NameError "model_no") \/ exists key, e = KeyError key)).
Proof.
  intros Hne Hl. unfold model_fields_setup.
  destruct names as [|n1 [|n2 rest]]; [congruence | |].
  - destruct (coarsen_one_model_weight n1 Hl) as [c Hc]. rewrite Hc.
    cbn [attempt_bind].
    destruct (first_difference_total xf) as [(dx & Ex & Lx) | [Ex Lx]];
      rewrite Ex; cbn [lift attempt_bind raise ok];
      [| eexists; split; [reflexivity|]; split; [simpl; lia|];
         intros name _; split; [reflexivity | lia]].
    destruct (first_difference_total yf) as [(dy & Ey & Ly) | [Ey Ly]];
      rewrite Ey; cbn [lift attempt_bind raise ok];
      [| eexists; split; [reflexivity|]; split; [simpl; lia|];
         intros name _; split; [reflexivity | lia]].
    destruct (first_difference_total zf) as [(dz & Ez & Lz) | [Ez Lz]];
      rewrite Ez; cbn [lift attempt_bind raise ok];
      [| eexists; split; [reflexivity|]; split; [simpl; lia|];
         intros name _; split; [reflexivity | lia]].
    cbn [attempt_each model_field_body attempt_bind].
    destruct (field_data fields ("U_" ++ n1)) as [e|u] eqn:Eu.
    + exists e. split; [reflexivity|]. split; [simpl; lia|].
      intros name _. split; [lia|]. intros _. right. unfold field_data in Eu.
      destruct (find _ fields); [discriminate|]. injection Eu as <-. eauto.
    + cbn [attempt_bind].
      destruct (field_data fields ("V_" ++ n1)) as [e|v] eqn:Ev.
      * exists e. split; [reflexivity|]. split; [simpl; lia|].
        intros name _. split; [lia|]. intros _. right.
        unfold field_data in Ev.
        destruct (find _ fields); [discriminate|]. injection Ev as <-. eauto.
      * cbn [attempt_bind].
        destruct (field_data fields ("W_" ++ n1)) as [e|w] eqn:Ew.
        -- exists e. split; [reflexivity|]. split; [simpl; lia|].
           intros name _. split; [lia|]. intros _. right.
           unfold field_data in Ew.
           destruct (find _ fields); [discriminate|]. injection Ew as <-.
           eauto.
        -- cbn [attempt_bind]. eexists. split; [reflexivity|].
           split; [simpl; lia|]. intros name _. split; [lia|].
           intros _. left. reflexivity.
  - rewrite (coarsen_two_model_weights n1 n2 rest Hl).
    cbn [attempt_bind]. eexists. split; [reflexivity|].
    split; [reflexivity|]. intros name H. discriminate.
Qed.

End ModelFields.

Lemma model_fields_stop_retrieval_witness :
  model_fields_setup fine_axis fine_axis fine_axis hrrr_fields
    (Some ["hrrr"]) [[repeat (Num 1) 64]]
  = inl (Base (NameError "model_no")).
Proof.
  destruct (model_fields_stop_retrieval fine_axis fine_axis fine_axis
              hrrr_fields [[repeat (Num 1) 64]] ["hrrr"])
    as (e & He & _ & H1).
  - discriminate.
  - reflexivity.
  - rewrite He. f_equal.
    destruct (proj2 (H1 "hrrr" eq_refl)) as [-> | [key ->]];
      [simpl; lia | reflexivity |].
    exfalso. revert He. vm_compute. discriminate.
Defined.

(* ------------------------------------------------------------------ *)
(** ** Lines 258-280: the coarse background weights of one grid *)

Section CoarseBackground.

Variable get_bca : nat -> nat -> list Q.
Variable radians : Q -> Q.
Variables nz nyx : nat.
Variable a : Args.
Variable g : Grid.
Variables zf yf xf : list Q.

Hypothesis mask_shape : has_shape nz nyx (vel_mask g).
Hypothesis no_model : model_fields a = None.

Lemma cell_where_valid (v_valid v_masked : Q) (k c : nat) (b : bool) :
  cell (vel_mask g) k c = Some b ->
  cell (where_valid v_valid v_masked (vel_mask g)) k c
  = Some (if negb b then v_valid else v_masked).
Proof.
  intros H. unfold where_valid. rewrite cell_map, H. reflexivity.
Qed.

Lemma all_valid_cell (k c : nat) :
  all_valid (vel_mask g) -> (k < nz)%nat -> (c < nyx)%nat ->
  cell (vel_mask g) k c = Some false.
Proof.
  intros Hv Hk Hc.
  destruct (has_shape_row nz nyx (vel_mask g) k mask_shape Hk)
    as (row & Er & Lr & _).
  unfold cell. rewrite Er.
  destruct (nth_error row c) as [b|] eqn:Eb.
  - f_equal. unfold all_valid in Hv. rewrite Forall_forall in Hv.
    specialize (Hv row (nth_error_In _ _ Er)).
    rewrite Forall_forall in Hv. exact (Hv b (nth_error_In _ _ Eb)).
  - apply nth_error_None in Eb. lia.
Qed.

Lemma all_valid_values :
  all_valid (vel_mask g) ->
  Forall (within 1 1) (volume_values (where_valid 1 0 (vel_mask g))).
Proof.
  intros Hv. unfold volume_values, where_valid. apply Forall_map.
  apply Forall_concat. apply Forall_map. revert Hv. apply Forall_impl.
  intros row Hrow. apply Forall_map. revert Hrow. apply Forall_impl.
  intros b ->. exists 1. repeat split; lra.
Qed.

(** X18.  Lines 258-280 for one grid without model fields, every velocity
    valid: the background weight is 0 at every node of the fine grid, and
    the background weight handed to the coarse cost is 1 at every node of
    the coarse grid.  Line 280 interpolates the observation weights, not
    the background weights of line 278. *)
Theorem coarse_background_of_valid_grid :
  ascending zf -> ascending yf -> ascending xf ->
  nz = length zf -> nyx = (length yf * length xf)%nat ->
  all_valid (vel_mask g) ->
  exists w bg mw out,
    build_weights get_bca radians nz nyx a (velocity_masks [g])
    = ok (w, bg, mw) /\
    (forall k c, (k < nz)%nat -> (c < nyx)%nat -> cell bg k c = Some 0) /\
    coarse_background zf yf xf w mw (model_fields a) bg = inr out /\
    length out = n_coarse zf yf xf /\
    (forall v, In v out -> exists q, v = Num q /\ q == 1).
Proof.
  intros Hz Hy Hx Enz Enyx Hv.
  rewrite (build_weights_single get_bca radians nz nyx a g mask_shape).
  rewrite no_model.
  destruct (map_result_ok
              (fun p : Q * Q * Q =>
                 let '(pz, py, px) := p in
                 interpolate
                   (make_interpolator zf yf xf
                      (volume_values (where_valid 1 0 (vel_mask g))))
                   (pz, px, py))
              (within 1 1)
              (meshgrid (coarsen_axis zf) (coarsen_axis yf)
                        (coarsen_axis xf)))
    as (out & Hout & Hall & Hl).
  - intros [[pz py] px] _. apply interpolate_constant.
    + repeat split; simpl; try apply Hz; try apply Hy; try apply Hx.
      unfold volume_values. rewrite length_map.
      rewrite (concat_shape nz nyx) by (apply has_shape_map; exact mask_shape).
      subst nz nyx. lia.
    + now apply all_valid_values.
  - eexists _, _, _, out. split; [reflexivity|]. split; [|split; [|split]].
    + intros k c Hk Hc.
      rewrite (cell_where_valid 0 1 k c false); [reflexivity|].
      now apply all_valid_cell.
    + unfold coarse_background, coarse_weights. cbn [map_result].
      destruct (resample_total zf yf xf
                  (volume_values (where_valid 1 0 (vel_mask g)))
                  (coarsen_axis zf) (coarsen_axis yf) (coarsen_axis xf))
        as (wc & Ewc & _).
      rewrite Ewc. cbn [bind ok lift attempt_bind coarsen_model_weights].
      cbn [map app rev]. rewrite Hout. reflexivity.
    + rewrite Hl, meshgrid_length. reflexivity.
    + intros v Hin. rewrite Forall_forall in Hall.
      destruct (Hall v Hin) as (q & -> & L & U).
      exists q. split; [reflexivity | lra].
Qed.

End CoarseBackground.

Lemma coarse_background_of_valid_grid_witness :
  exists w bg mw out,
    build_weights bca_four radians_approx 2 4 args_defaults
                  (velocity_masks [grid_of_mask mask_none])
    = ok (w, bg, mw) /\
    cell bg 1 3 = Some 0 /\
    coarse_background axis_pair axis_pair axis_pair w mw None bg = inr out /\
    length out = 1%nat /\
    (forall v, In v out -> exists q, v = Num q /\ q == 1).
Proof.
  destruct (coarse_background_of_valid_grid bca_four radians_approx 2 4
              args_defaults (grid_of_mask mask_none)
              axis_pair axis_pair axis_pair
              ltac:(split; [reflexivity | repeat constructor]) eq_refl)
    as (w & bg & mw & out & Hb & Hbg & Hc & Hl & Hall);
    try apply axis_pair_ascending; try reflexivity.
  - repeat constructor.
  - exists w, bg, mw, out. split; [exact Hb|].
    split; [apply Hbg; lia|]. auto.
Defined.

(* ------------------------------------------------------------------ *)
(** ** Lines 107-110: the coarse background wind *)

Section BackgroundWind.

Lemma gather_nth {A} (arr : list A) (indices : list Z) (k : nat) :
  (forall i, In i indices -> (0 <= i < Z.of_nat (length arr))%Z) ->
  nth_error (gather arr indices) k =
  match nth_error indices k with
  | Some i => nth_error arr (Z.to_nat i)
  | None => None
  end.
Proof.
  revert k. induction indices as [|i0 indices IH]; intros k Hin.
  - now destruct k.
  - unfold gather. cbn [flat_map]. fold (gather arr indices).
    assert (H0 : (0 <= i0 < Z.of_nat (length arr))%Z)
      by (apply Hin; left; reflexivity).
    destruct (nth_error arr (Z.to_nat i0)) as [e|] eqn:E.
    + destruct k as [|k]; [simpl; now rewrite E|].
      simpl. apply IH. intros i Hi. apply Hin. right. exact Hi.
    + apply nth_error_None in E. lia.
Qed.

Lemma gather_length {A} (arr : list A) (indices : list Z) :
  (forall i, In i indices -> (0 <= i < Z.of_nat (length arr))%Z) ->
  length (gather arr indices) = length indices.
Proof.
  induction indices as [|i0 indices IH]; intros Hin; [reflexivity|].
  unfold gather. cbn [flat_map]. fold (gather arr indices).
  assert (H0 : (0 <= i0 < Z.of_nat (length arr))%Z)
    by (apply Hin; left; reflexivity).
  destruct (nth_error arr (Z.to_nat i0)) as [e|] eqn:E.
  - simpl. f_equal. apply IH. intros i Hi. apply Hin. right. exact Hi.
  - apply nth_error_None in E. lia.
Qed.

(** [arr[:-2:-2]] is the last entry alone. *)
Lemma slice_top {A} (arr : list A) (top : A) :
  nth_error arr (pred (length arr)) = Some top ->
  pyslice arr None (Some (-2)%Z) (-2)%Z = [top].
Proof.
  intros Htop.
  assert (Hn : (0 < length arr)%nat).
  { destruct arr; [discriminate | simpl; lia]. }
  unfold pyslice, slice_start, slice_stop, adjust.
  set (n := Z.of_nat (length arr)).
  assert (En : (1 <= n)%Z) by (unfold n; lia).
  assert (Estop : (if (-2 + n <? 0)%Z then (-1)%Z else (-2 + n)%Z)
                  = (n - 2)%Z).
  { destruct (Z.ltb_spec (-2 + n) 0); lia. }
  cbn [Z.ltb Z.compare]. rewrite Estop.
  destruct (length arr) as [|m] eqn:El; [lia|].
  cbn [slice_walk]. cbn [Z.ltb Z.compare].
  assert (E1 : (n - 2 <? n - 1)%Z = true) by (apply Z.ltb_lt; lia).
  rewrite E1.
  assert (E2 : slice_walk m (n - 1 + -2) (n - 2) (-2) = []).
  { destruct m; [reflexivity|]. cbn [slice_walk]. cbn [Z.ltb Z.compare].
    assert (E : (n - 2 <? n - 1 + -2)%Z = false) by (apply Z.ltb_ge; lia).
    now rewrite E. }
  rewrite E2. unfold gather. cbn [flat_map].
  replace (Z.to_nat (n - 1)) with m by (unfold n; lia).
  cbn [pred] in Htop. rewrite Htop. reflexivity.
Qed.

Lemma slice_walk_up (fuel : nat) :
  forall (i stop : Z) (k : nat),
    nth_error (slice_walk fuel i stop 2) k =
    if (k <? fuel)%nat && (i + 2 * Z.of_nat k <? stop)%Z
    then Some (i + 2 * Z.of_nat k)%Z else None.
Proof.
  induction fuel as [|fuel IH]; intros i stop k.
  - cbn [slice_walk]. now destruct k.
  - cbn [slice_walk]. cbn [Z.ltb Z.compare].
    destruct (Z.ltb_spec i stop) as [Hlt | Hge].
    + destruct k as [|k].
      * cbn [nth_error]. replace (i + 2 * Z.of_nat 0)%Z with i by lia.
        assert (E : (i <? stop)%Z = true) by (apply Z.ltb_lt; lia).
        now rewrite E.
      * cbn [nth_error]. rewrite IH.
        replace (i + 2 + 2 * Z.of_nat k)%Z with (i + 2 * Z.of_nat (S k))%Z
          by lia.
        reflexivity.
    + assert (E : (i + 2 * Z.of_nat k <? stop)%Z = false)
        by (apply Z.ltb_ge; lia).
      rewrite E, andb_false_r. now destruct k.
Qed.

Lemma slice_walk_in (fuel : nat) (i stop j : Z) :
  In j (slice_walk fuel i stop 2) -> (i <= j < stop)%Z.
Proof.
  revert i. induction fuel as [|fuel IH]; intros i H; [contradiction|].
  cbn [slice_walk] in H. cbn [Z.ltb Z.compare] in H.
  destruct (Z.ltb_spec i stop) as [Hlt | Hge]; [|contradiction].
  destruct H as [<- | H]; [lia|]. apply IH in H. lia.
Qed.

(** [arr[1:-1:2]]: the entries at the odd indices short of the last. *)
Lemma slice_odd_nth {A} (arr : list A) (k : nat) :
  nth_error (pyslice arr (Some 1%Z) (Some (-1)%Z) 2%Z) k =
  if (2 * k + 1 <? pred (length arr))%nat then nth_error arr (2 * k + 1)
  else None.
Proof.
  unfold pyslice, slice_start, slice_stop, adjust.
  set (n := Z.of_nat (length arr)).
  cbn [Z.ltb Z.compare].
  assert (Estart : (if (n <=? 1)%Z then n else 1%Z) = Z.min n 1)
    by (destruct (Z.leb_spec n 1); lia).
  assert (Estop : (if (-1 + n <? 0)%Z then 0%Z else (-1 + n)%Z)
                  = Z.max 0 (n - 1))
    by (destruct (Z.ltb_spec (-1 + n) 0); lia).
  rewrite Estart, Estop.
  rewrite gather_nth.
  - rewrite slice_walk_up.
    destruct (Nat.ltb_spec (2 * k + 1) (pred (length arr))) as [Hlt | Hge].
    + assert (E1 : (k <? length arr)%nat = true) by (apply Nat.ltb_lt; lia).
      assert (E2 : (Z.min n 1 + 2 * Z.of_nat k <? Z.max 0 (n - 1))%Z = true)
        by (apply Z.ltb_lt; unfold n; lia).
      rewrite E1, E2. cbn [andb]. f_equal. unfold n. lia.
    + assert (E2 : (Z.min n 1 + 2 * Z.of_nat k <? Z.max 0 (n - 1))%Z = false)
        by (apply Z.ltb_ge; unfold n; lia).
      now rewrite E2, andb_false_r.
  - intros j Hj. apply slice_walk_in in Hj. unfold n in *. lia.
Qed.

Lemma slice_odd_length {A} (arr : list A) :
  length (pyslice arr (Some 1%Z) (Some (-1)%Z) 2%Z)
  = Nat.div2 (pred (length arr)).
Proof.
  set (s := pyslice arr (Some 1%Z) (Some (-1)%Z) 2%Z).
  pose proof (slice_odd_nth arr (length s)) as Hat.
  fold s in Hat.
  assert (Hnone : nth_error s (length s) = None)
    by (apply nth_error_None; lia).
  rewrite Hnone in Hat.
  assert (Hup : (Nat.div2 (pred (length arr)) <= length s)%nat).
  { destruct (Nat.ltb_spec (2 * length s + 1) (pred (length arr)))
      as [Hlt | Hge].
    - symmetry in Hat. apply nth_error_None in Hat. lia.
    - destruct (Nat.le_gt_cases (Nat.div2 (pred (length arr))) (length s))
        as [H | H]; [exact H|].
      apply div2_lt in H. lia. }
  assert (Hdown : (length s <= Nat.div2 (pred (length arr)))%nat).
  { destruct (Nat.eq_dec (length s) 0) as [E0 | Hpos];
      [rewrite E0; apply Nat.le_0_l|].
    assert (Hlast : (pred (length s) < length s)%nat) by lia.
    apply nth_error_Some in Hlast.
    unfold s in Hlast at 1. rewrite slice_odd_nth in Hlast.
    destruct (Nat.ltb_spec (2 * pred (length s) + 1) (pred (length arr)))
      as [Hlt | Hge]; [|congruence].
    assert (H : (pred (length s) < Nat.div2 (pred (length arr)))%nat)
      by (apply div2_lt; lia).
    lia. }
  lia.
Qed.

Lemma broadcast_add_single (top : fval) (v : list fval) :
  broadcast_add [top] v = ok (map (fadd top) v).
Proof.
  unfold broadcast_add. destruct v as [|v0 [|v1 v]]; reflexivity.
Qed.

Lemma back_coarse_nth (top : fval) (odd : list fval) (k : nat) (e : fval) :
  nth_error odd k = Some e ->
  nth_error (map (fun x => fdiv x (Num 2)) (map (fadd top) odd)) k
  = Some (fdiv (fadd top e) (Num 2)).
Proof.
  intros H. rewrite map_map.
  exact (map_nth_error (fun x => fdiv (fadd top x) (Num 2)) k odd H).
Qed.

(** X19.  Lines 107-110, for profiles [u_back2] and [v_back2] on the [n]
    levels of the grid.  Entry [k] of the coarse u profile is the mean of
    the top level [u_back2[n - 1]] and of [u_back2[2 k + 1]]; entry [k] of
    the coarse v profile is the mean of [v_back2[n - 1]] and of the same
    [u_back2[2 k + 1]].  Both profiles have [(n - 1) div 2] entries, one
    fewer than the coarse axis has nodes when [n] is even. *)
Theorem coarse_background_wind (u_back2 v_back2 : list fval)
    (u_top v_top : fval) :
  length v_back2 = length u_back2 ->
  nth_error u_back2 (pred (length u_back2)) = Some u_top ->
  nth_error v_back2 (pred (length v_back2)) = Some v_top ->
  exists uc vc,
    u_back_coarse u_back2 = ok uc /\
    v_back_coarse u_back2 v_back2 = ok vc /\
    length uc = Nat.div2 (pred (length u_back2)) /\
    length vc = Nat.div2 (pred (length u_back2)) /\
    (forall k e, (2 * k + 1 < pred (length u_back2))%nat ->
       nth_error u_back2 (2 * k + 1) = Some e ->
       nth_error uc k = Some (fdiv (fadd u_top e) (Num 2)) /\
       nth_error vc k = Some (fdiv (fadd v_top e) (Num 2))) /\
    (Nat.even (length u_back2) = true ->
     S (length uc) = Nat.div2 (length u_back2)).
Proof.
  intros Hlen Hu Hv. unfold u_back_coarse, v_back_coarse.
  rewrite (slice_top u_back2 u_top Hu), (slice_top v_back2 v_top Hv).
  rewrite !broadcast_add_single. cbn [bind ok].
  eexists _, _. split; [reflexivity|]. split; [reflexivity|].
  rewrite !length_map, slice_odd_length.
  split; [reflexivity|]. split; [reflexivity|]. split.
  - intros k e Hk He.
    assert (Hodd : nth_error (pyslice u_back2 (Some 1%Z) (Some (-1)%Z) 2%Z) k
                   = Some e).
    { rewrite slice_odd_nth.
      assert (E : (2 * k + 1 <? pred (length u_back2))%nat = true)
        by (apply Nat.ltb_lt; exact Hk).
      now rewrite E. }
    split; now apply back_coarse_nth.
  - intros Heven.
    assert (Hn : (0 < length u_back2)%nat).
    { destruct u_back2; [discriminate | simpl; lia]. }
    pose proof (Nat.div2_odd (length u_back2)) as H1.
    pose proof (Nat.div2_odd (pred (length u_back2))) as H2.
    rewrite <- Nat.negb_even, Heven in H1. cbn [negb Nat.b2n] in H1.
    destruct (Nat.odd (pred (length u_back2))); cbn [Nat.b2n] in H2; lia.
Qed.

End BackgroundWind.

Lemma coarse_background_wind_witness :
  exists uc vc,
    u_back_coarse u_sounding = ok uc /\
    v_back_coarse u_sounding v_sounding = ok vc /\
    length uc = 2%nat /\
    nth_error uc 0 = Some (fdiv (fadd (Num 5) (Num 2)) (Num 2)) /\
    nth_error vc 0 = Some (fdiv (fadd (Num 50) (Num 2)) (Num 2)).
Proof.
  destruct (coarse_background_wind u_sounding v_sounding (Num 5) (Num 50)
              eq_refl eq_refl eq_refl)
    as (uc & vc & Hu & Hv & Lu & _ & Hat & _).
  exists uc, vc. split; [exact Hu|]. split; [exact Hv|].
  split; [exact Lu|].
  exact (Hat 0%nat (Num 2) ltac:(simpl; lia) eq_refl).
Defined.

(* ------------------------------------------------------------------ *)
(** ** Lines 176-196: the coarse fall speed *)

Section CoarseFallSpeed.

Variables zf yf xf : list Q.

Lemma nth_error_isnan (l : list fval) (i : nat) :
  nth_error (map isnan l) i = Some true <-> nth_error l i = Some NaN.
Proof.
  rewrite nth_error_map. destruct (nth_error l i) as [[q|]|]; simpl;
    split; intros H; try discriminate; reflexivity.
Qed.

Lemma nth_error_orb (cond m : list bool) (i : nat) :
  length cond = length m ->
  (nth_error (map2 orb cond m) i = Some true <->
   nth_error cond i = Some true \/ nth_error m i = Some true).
Proof.
  revert m i. induction cond as [|c cond IH]; intros [|b m] i Hl;
    simpl in Hl; try discriminate.
  - destruct i; simpl;
      (split; [discriminate | intros [H | H]; discriminate]).
  - destruct i as [|i]; simpl.
    + destruct c, b; simpl; split; intros H; auto;
        try discriminate; destruct H; discriminate.
    + apply IH. lia.
Qed.

Lemma nth_error_all_false {A} (l : list A) (i : nat) :
  nth_error (map (fun _ => false) l) i <> Some true.
Proof.
  rewrite nth_error_map. destruct (nth_error l i); simpl; discriminate.
Qed.

(** X20.  Lines 176-196: with [v] the velocity and [s] the fall speed of a
    radar as interpolated to the coarse mesh, one entry per coarse node,
    the coarse velocity holds [v], masked where [v] is NaN, and the coarse
    fall speed holds [v] as well, not [s]: of [s] only the positions of its
    NaNs are kept, as mask entries next to those of the velocity. *)
Theorem coarse_fall_speed_is_velocity (vr wt az el : MaskedArray) :
  exists v s vr_c wt_c az_c el_c,
    resample zf yf xf (filled_nan vr) (zc zf) (yc yf) (xc xf) = ok v /\
    resample zf yf xf (filled_nan wt) (zc zf) (yc yf) (xc xf) = ok s /\
    coarsen_radar zf yf xf vr wt az el = ok (vr_c, wt_c, az_c, el_c) /\
    length v = n_coarse zf yf xf /\ length s = n_coarse zf yf xf /\
    data vr_c = v /\ data wt_c = v /\
    (forall i, nth_error (mask vr_c) i = Some true <->
               nth_error v i = Some NaN) /\
    (forall i, nth_error (mask wt_c) i = Some true <->
               nth_error s i = Some NaN \/ nth_error v i = Some NaN).
Proof.
  unfold coarsen_radar.
  destruct (resample_total zf yf xf (filled_nan vr) (zc zf) (yc yf) (xc xf))
    as (v & Ev & Lv).
  destruct (resample_total zf yf xf (filled_nan wt) (zc zf) (yc yf) (xc xf))
    as (s & Es & Ls).
  destruct (resample_total zf yf xf (filled_nan az) (zc zf) (yc yf) (xc xf))
    as (a0 & Ea & _).
  destruct (resample_total zf yf xf (filled_nan el) (zc zf) (yc yf) (xc xf))
    as (e0 & Ee & _).
  rewrite Ev, Es, Ea, Ee. cbn [bind ok].
  exists v, s. eexists _, _, _, _.
  split; [reflexivity|]. split; [reflexivity|]. split; [reflexivity|].
  cbn [masked_where unmasked data mask].
  split; [exact Lv|]. split; [exact Ls|].
  split; [reflexivity|]. split; [reflexivity|].
  assert (Hv : forall i,
            nth_error (map2 orb (map isnan v) (map (fun _ => false) v)) i
            = Some true <-> nth_error v i = Some NaN).
  { intros i. rewrite nth_error_orb by (now rewrite !length_map).
    rewrite nth_error_isnan. split; [|auto].
    intros [H | H]; [exact H|]. now apply nth_error_all_false in H. }
  split; [exact Hv|].
  intros i. rewrite nth_error_orb.
  - now rewrite nth_error_isnan, Hv.
  - rewrite length_map, length_map2; rewrite !length_map; lia.
Qed.

End CoarseFallSpeed.

(* ------------------------------------------------------------------ *)
(** ** Lines 389-434: the masks of the coarse winds and the solver *)

Section NanAndSolver.

(** X21.  Lines 389-434: the masks that lines 402-404 set on the NaNs of
    the coarse winds do not reach the coarse solve.  [np.stack] at line 418
    keeps the data of its inputs and not their masks, so the starting
    point handed to the solver is the relaxed field as interpolated, NaNs
    included: a solver that reports whether its starting point holds a NaN
    reports exactly whether the restricted relaxed field holds one.  On the
    4 x 4 x 4 grid a NaN in the first entry of [u] of the entry field is
    reported. *)
Theorem nan_reaches_solver :
  (forall grad_J masked_entry zf yf xf w g,
     exists out coarse_in res,
       restricted zf yf xf (Nat.iter 5 (descent grad_J) w) coarse_in /\
       cycle grad_J solver_reports_nan masked_entry zf yf xf w g =
       ok (out, if existsb isnan coarse_in then 1%Z else 0%Z, res)) /\
  (exists out res,
     cycle grad_ones solver_reports_nan keep_entry
           fine_axis fine_axis fine_axis winds_one_nan [] =
     ok (out, 1%Z, res)).
Proof.
  split.
  - intros grad_J masked_entry zf yf xf w g.
    destruct (cycle_stages grad_J solver_reports_nan masked_entry
                zf yf xf w g)
      as (uc & vc & wc & sol & warn & ua & va & wa &
          Huc & Hvc & Hwc & Hs & _ & _ & _ & _ & _ & _ & Hc).
    unfold solver_reports_nan in Hs. injection Hs as _ <-.
    eexists _, (uc ++ vc ++ wc)%list, _.
    split; [exists uc, vc, wc; auto|]. exact Hc.
  - destruct (cycle_stages grad_ones solver_reports_nan keep_entry
                fine_axis fine_axis fine_axis winds_one_nan [])
      as (uc & vc & wc & sol & warn & ua & va & wa &
          Huc & Hvc & Hwc & Hs & _ & _ & _ & _ & _ & _ & Hc).
    vm_compute in Huc. injection Huc as <-.
    vm_compute in Hvc. injection Hvc as <-.
    vm_compute in Hwc. injection Hwc as <-.
    vm_compute in Hs. injection Hs as _ <-.
    do 2 eexists. exact Hc.
Qed.

End NanAndSolver.
